(** * A shallow embedding of the dawm DOM core (dom.ts, collections.ts, select.ts)

    Objects of the TypeScript program live in a heap [gmap nat NodeRec].  The
    address of a node is the number drawn from the static counter [Node.#__id]
    by its constructor ([this.id = `node-${++Node.#__id}`]), so identity and
    [id] coincide.  Methods are state-and-exception computations: a JavaScript
    [throw] keeps every write done before it, as in the source. *)

From stdpp Require Import base gmap strings list.
From Stdlib Require Import ZArith Ascii.

(* ------------------------------------------------------------------ *)
(** ** Node records *)

Inductive node_type :=
| ELEMENT_NODE
| ATTRIBUTE_NODE
| TEXT_NODE
| CDATA_SECTION_NODE
| PROCESSING_INSTRUCTION_NODE
| COMMENT_NODE
| DOCUMENT_NODE
| DOCUMENT_TYPE_NODE
| DOCUMENT_FRAGMENT_NODE
| OTHER_NODE (code : nat).

Global Instance node_type_eq_dec : EqDecision node_type.
Proof. solve_decision. Defined.

(** The fields of [Node] (plus the few subclass fields the claims read):
    [childNodes] is the backing [LinkedList] of the node's [NodeList],
    [attributes] the backing list of an [Element]'s [NamedNodeMap],
    [ownerElement] the field of [Attr], and the three [cached*] fields the
    private [#documentElement], [#head] and [#body] fields of [Document]. *)
Record NodeRec := mkNode {
  nodeType : node_type;
  nodeName : string;
  nodeValue : option string;
  tagName : string;
  parentNode : option nat;
  firstChild : option nat;
  lastChild : option nat;
  previousSibling : option nat;
  nextSibling : option nat;
  ownerDocument : option nat;
  childNodes : list nat;
  attributes : list nat;
  ownerElement : option nat;
  cachedDocumentElement : option nat;
  cachedHead : option nat;
  cachedBody : option nat
}.

Definition with_parentNode (v : option nat) (n : NodeRec) : NodeRec :=
  mkNode (nodeType n) (nodeName n) (nodeValue n) (tagName n) v (firstChild n)
    (lastChild n) (previousSibling n) (nextSibling n) (ownerDocument n)
    (childNodes n) (attributes n) (ownerElement n) (cachedDocumentElement n)
    (cachedHead n) (cachedBody n).
Definition with_firstChild (v : option nat) (n : NodeRec) : NodeRec :=
  mkNode (nodeType n) (nodeName n) (nodeValue n) (tagName n) (parentNode n) v
    (lastChild n) (previousSibling n) (nextSibling n) (ownerDocument n)
    (childNodes n) (attributes n) (ownerElement n) (cachedDocumentElement n)
    (cachedHead n) (cachedBody n).
Definition with_lastChild (v : option nat) (n : NodeRec) : NodeRec :=
  mkNode (nodeType n) (nodeName n) (nodeValue n) (tagName n) (parentNode n)
    (firstChild n) v (previousSibling n) (nextSibling n) (ownerDocument n)
    (childNodes n) (attributes n) (ownerElement n) (cachedDocumentElement n)
    (cachedHead n) (cachedBody n).
Definition with_previousSibling (v : option nat) (n : NodeRec) : NodeRec :=
  mkNode (nodeType n) (nodeName n) (nodeValue n) (tagName n) (parentNode n)
    (firstChild n) (lastChild n) v (nextSibling n) (ownerDocument n)
    (childNodes n) (attributes n) (ownerElement n) (cachedDocumentElement n)
    (cachedHead n) (cachedBody n).
Definition with_nextSibling (v : option nat) (n : NodeRec) : NodeRec :=
  mkNode (nodeType n) (nodeName n) (nodeValue n) (tagName n) (parentNode n)
    (firstChild n) (lastChild n) (previousSibling n) v (ownerDocument n)
    (childNodes n) (attributes n) (ownerElement n) (cachedDocumentElement n)
    (cachedHead n) (cachedBody n).
Definition with_ownerDocument (v : option nat) (n : NodeRec) : NodeRec :=
  mkNode (nodeType n) (nodeName n) (nodeValue n) (tagName n) (parentNode n)
    (firstChild n) (lastChild n) (previousSibling n) (nextSibling n) v
    (childNodes n) (attributes n) (ownerElement n) (cachedDocumentElement n)
    (cachedHead n) (cachedBody n).
Definition with_childNodes (v : list nat) (n : NodeRec) : NodeRec :=
  mkNode (nodeType n) (nodeName n) (nodeValue n) (tagName n) (parentNode n)
    (firstChild n) (lastChild n) (previousSibling n) (nextSibling n)
    (ownerDocument n) v (attributes n) (ownerElement n)
    (cachedDocumentElement n) (cachedHead n) (cachedBody n).
Definition with_attributes (v : list nat) (n : NodeRec) : NodeRec :=
  mkNode (nodeType n) (nodeName n) (nodeValue n) (tagName n) (parentNode n)
    (firstChild n) (lastChild n) (previousSibling n) (nextSibling n)
    (ownerDocument n) (childNodes n) v (ownerElement n)
    (cachedDocumentElement n) (cachedHead n) (cachedBody n).
Definition with_nodeValue (v : option string) (n : NodeRec) : NodeRec :=
  mkNode (nodeType n) (nodeName n) v (tagName n) (parentNode n)
    (firstChild n) (lastChild n) (previousSibling n) (nextSibling n)
    (ownerDocument n) (childNodes n) (attributes n) (ownerElement n)
    (cachedDocumentElement n) (cachedHead n) (cachedBody n).
Definition with_ownerElement (v : option nat) (n : NodeRec) : NodeRec :=
  mkNode (nodeType n) (nodeName n) (nodeValue n) (tagName n) (parentNode n)
    (firstChild n) (lastChild n) (previousSibling n) (nextSibling n)
    (ownerDocument n) (childNodes n) (attributes n) v
    (cachedDocumentElement n) (cachedHead n) (cachedBody n).
Definition with_cachedDocumentElement (v : option nat) (n : NodeRec) : NodeRec :=
  mkNode (nodeType n) (nodeName n) (nodeValue n) (tagName n) (parentNode n)
    (firstChild n) (lastChild n) (previousSibling n) (nextSibling n)
    (ownerDocument n) (childNodes n) (attributes n) (ownerElement n)
    v (cachedHead n) (cachedBody n).
Definition with_cachedHead (v : option nat) (n : NodeRec) : NodeRec :=
  mkNode (nodeType n) (nodeName n) (nodeValue n) (tagName n) (parentNode n)
    (firstChild n) (lastChild n) (previousSibling n) (nextSibling n)
    (ownerDocument n) (childNodes n) (attributes n) (ownerElement n)
    (cachedDocumentElement n) v (cachedBody n).
Definition with_cachedBody (v : option nat) (n : NodeRec) : NodeRec :=
  mkNode (nodeType n) (nodeName n) (nodeValue n) (tagName n) (parentNode n)
    (firstChild n) (lastChild n) (previousSibling n) (nextSibling n)
    (ownerDocument n) (childNodes n) (attributes n) (ownerElement n)
    (cachedDocumentElement n) (cachedHead n) v.

(** A freshly constructed node: [super(nodeName, nodeValue)] with no links. *)
Definition blank_node (ty : node_type) (name : string) (value : option string)
  : NodeRec :=
  mkNode ty name value "" None None None None None None [] [] None None None None.

(* ------------------------------------------------------------------ *)
(** ** The program state and the state/exception monad *)

(** [wsets] holds the [WeakSet]s created by complex selectors
    ([const leftMatches = new WeakSet()] in select.ts). *)
Record St := mkSt {
  heap : gmap nat NodeRec;
  next_id : nat;
  wsets : gmap nat (list nat);
  next_ws : nat
}.

Definition St_empty : St := mkSt ∅ 0 ∅ 0.

Inductive exn :=
| HierarchyViolation (msg : string)
| HierarchyRequestError
| TypeError (msg : string)
| ThrownNode (n : nat)
| ParseError (msg : string)
| SelectorError (msg : string)
| SyntaxError (msg : string)
| StackOverflow.

Inductive Res (A : Type) :=
| Ok (a : A)
| Throw (e : exn).
Arguments Ok {A} a.
Arguments Throw {A} e.

Definition M (A : Type) : Type := St -> St * Res A.

Global Instance M_ret : MRet M := fun A x s => (s, Ok x).
Global Instance M_bind : MBind M := fun A B f m s =>
  match m s with
  | (s', Ok a) => f a s'
  | (s', Throw e) => (s', Throw e)
  end.

Definition throw {A} (e : exn) : M A := fun s => (s, Throw e).

(** [try { m } catch { h }]: the state reached at the [throw] is kept. *)
Definition try_catch {A} (m : M A) (h : exn -> M A) : M A := fun s =>
  match m s with
  | (s', Throw e) => h e s'
  | r => r
  end.

Notation "m1 ;; m2" := (mbind (fun _ => m2) m1)
  (at level 100, m2 at level 200, right associativity) : stdpp_scope.

(* ------------------------------------------------------------------ *)
(** ** Heap primitives *)

Definition get (r : nat) : M NodeRec := fun s =>
  match heap s !! r with
  | Some n => (s, Ok n)
  | None => (s, Throw (TypeError "Cannot read properties of undefined"))
  end.

Definition put (r : nat) (n : NodeRec) : M unit := fun s =>
  (mkSt (<[r := n]> (heap s)) (next_id s) (wsets s) (next_ws s), Ok tt).

Definition modify (r : nat) (f : NodeRec -> NodeRec) : M unit :=
  n ← get r; put r (f n).

(** [new X(...)]: the [Node] constructor draws the next id. *)
Definition alloc (n : NodeRec) : M nat := fun s =>
  let i := S (next_id s) in
  (mkSt (<[i := n]> (heap s)) i (wsets s) (next_ws s), Ok i).

(** [Document]'s constructor redefines [parentNode], [previousSibling],
    [nextSibling] and [ownerDocument] with [writable: false]; dom.ts is an ES
    module, hence strict, so assigning them throws a [TypeError]. *)
Definition set_readonly_checked (prop : string) (f : NodeRec -> NodeRec)
    (r : nat) : M unit :=
  n ← get r;
  if decide (nodeType n = DOCUMENT_NODE) then
    throw (TypeError ("Cannot assign to read only property '" +:+ prop +:+ "'"))
  else put r (f n).

Definition set_parentNode (r : nat) (v : option nat) : M unit :=
  set_readonly_checked "parentNode" (with_parentNode v) r.
Definition set_previousSibling (r : nat) (v : option nat) : M unit :=
  set_readonly_checked "previousSibling" (with_previousSibling v) r.
Definition set_nextSibling (r : nat) (v : option nat) : M unit :=
  set_readonly_checked "nextSibling" (with_nextSibling v) r.
Definition set_ownerDocument (r : nat) (v : option nat) : M unit :=
  set_readonly_checked "ownerDocument" (with_ownerDocument v) r.
Definition set_firstChild (r : nat) (v : option nat) : M unit :=
  modify r (with_firstChild v).
Definition set_lastChild (r : nat) (v : option nat) : M unit :=
  modify r (with_lastChild v).
Definition set_childNodes (r : nat) (v : list nat) : M unit :=
  modify r (with_childNodes v).

(* ------------------------------------------------------------------ *)
(** ** List helpers: [indexOf] and [splice] on the child list *)

Fixpoint indexOf (x : nat) (l : list nat) : option nat :=
  match l with
  | [] => None
  | y :: l' => if decide (y = x) then Some 0 else S <$> indexOf x l'
  end.

(** [splice(children, index, 0, x)] with [index <= children.length]. *)
Definition splice_insert (i : nat) (x : nat) (l : list nat) : list nat :=
  take i l ++ x :: drop i l.

(** [splice(children, index, 1)]. *)
Definition splice_delete (i : nat) (l : list nat) : list nat :=
  take i l ++ drop (S i) l.

Definition is_attr (n : NodeRec) : bool :=
  bool_decide (nodeType n = ATTRIBUTE_NODE).

(* ------------------------------------------------------------------ *)
(** ** The mutation core ([Node.prototype] in dom.ts, with the [Attr]
    overrides that throw [HierarchyRequestError]) *)

Definition removeChild (this oldChild : nat) : M nat :=
  t ← get this;
  if is_attr t then throw HierarchyRequestError else
  match indexOf oldChild (childNodes t) with
  | None =>
      throw (HierarchyViolation "The node to be removed is not a child of this node.")
  | Some index =>
      set_childNodes this (splice_delete index (childNodes t));;
      o ← get oldChild;
      let prev := previousSibling o in
      let next := nextSibling o in
      (match prev with Some p => set_nextSibling p next | None => mret () end);;
      (match next with Some q => set_previousSibling q prev | None => mret () end);;
      t1 ← get this;
      (if decide (firstChild t1 = Some oldChild) then set_firstChild this next
       else mret ());;
      t2 ← get this;
      (if decide (lastChild t2 = Some oldChild) then set_lastChild this prev
       else mret ());;
      set_parentNode oldChild None;;
      set_previousSibling oldChild None;;
      set_nextSibling oldChild None;;
      mret oldChild
  end.

(** [fuel] bounds the depth of the recursive calls made for a
    [DocumentFragment] and the number of iterations of its [for..of] loop; when
    it runs out the call fails like a JavaScript stack overflow. *)
Fixpoint insertBefore (fuel : nat) (this newChild : nat) (refChild : option nat)
    : M nat :=
  match fuel with
  | O => throw StackOverflow
  | S fuel' =>
    t ← get this;
    if is_attr t then throw HierarchyRequestError else
    if decide (Some newChild = refChild) then mret newChild else
    (match refChild with
     | Some r =>
         rn ← get r;
         if decide (parentNode rn = Some this) then mret ()
         else throw (HierarchyViolation "Reference node is not a child of this node.")
     | None => mret ()
     end);;
    c ← get newChild;
    if decide (nodeType c = DOCUMENT_FRAGMENT_NODE) then
      (* for (const child of newChild.childNodes) this.insertBefore(child, refChild);
         the iterator reads index i of the live backing list at every step *)
      (fix loop (k i : nat) : M unit :=
         match k with
         | O => throw StackOverflow
         | S k' =>
             f ← get newChild;
             match childNodes f !! i with
             | Some child => insertBefore fuel' this child refChild;; loop k' (S i)
             | None => mret ()
             end
         end) fuel' 0;;
      mret newChild
    else
      (match parentNode c with
       | Some p => removeChild p newChild;; mret ()
       | None => mret ()
       end);;
      t1 ← get this;
      let children := childNodes t1 in
      index ← (match refChild with
               | Some r =>
                   match indexOf r children with
                   | Some i => mret i
                   | None => throw (HierarchyViolation "Reference node is not a child of this node.")
                   end
               | None => mret (length children)
               end);
      previous ← (match refChild with
                  | Some r => rn ← get r; mret (previousSibling rn)
                  | None => mret (last children)
                  end);
      let next := refChild in
      set_childNodes this (splice_insert index newChild children);;
      (match previous with Some p => set_nextSibling p (Some newChild) | None => mret () end);;
      (match next with Some q => set_previousSibling q (Some newChild) | None => mret () end);;
      set_previousSibling newChild previous;;
      set_nextSibling newChild next;;
      set_parentNode newChild (Some this);;
      t2 ← get this;
      set_ownerDocument newChild (ownerDocument t2);;
      t3 ← get this;
      set_firstChild this (head (childNodes t3));;
      t4 ← get this;
      set_lastChild this (last (childNodes t4));;
      mret newChild
  end.

Definition appendChild (fuel : nat) (this newChild : nat) : M nat :=
  t ← get this;
  if is_attr t then throw HierarchyRequestError else
  insertBefore fuel this newChild None.

Definition replaceChild (fuel : nat) (this newChild oldChild : nat) : M nat :=
  t ← get this;
  if is_attr t then throw HierarchyRequestError else
  o ← get oldChild;
  (match parentNode o with
   | Some p =>
       if decide (p = this) then mret ()
       else throw (HierarchyViolation "The node to be replaced is not a child of this node.")
   | None => mret ()
   end);;
  insertBefore fuel this newChild (Some oldChild);;
  removeChild this oldChild.

(* ------------------------------------------------------------------ *)
(** ** String helpers ([toUpperCase] and [toLowerCase] on ASCII letters) *)

Definition ascii_upper (c : ascii) : ascii :=
  let n := nat_of_ascii c in
  if (97 <=? n) && (n <=? 122) then ascii_of_nat (n - 32) else c.

Definition ascii_lower (c : ascii) : ascii :=
  let n := nat_of_ascii c in
  if (65 <=? n) && (n <=? 90) then ascii_of_nat (n + 32) else c.

Fixpoint string_map (f : ascii -> ascii) (s : string) : string :=
  match s with
  | EmptyString => EmptyString
  | String c s' => String (f c) (string_map f s')
  end.

Definition toUpperCase : string -> string := string_map ascii_upper.
Definition toLowerCase : string -> string := string_map ascii_lower.

(* ------------------------------------------------------------------ *)
(** ** Constructors and factory methods *)

Fixpoint set_ownerElements (e : nat) (attrs : list nat) : M unit :=
  match attrs with
  | [] => mret ()
  | a :: attrs' => modify a (with_ownerElement (Some e));; set_ownerElements e attrs'
  end.

(** [new Element(tagName, attrs)]: [super(tagName, null)], then [tagName]
    upper-cased, the [NamedNodeMap] over [attrs], and every attribute's
    [ownerElement] set to the new element. *)
Definition new_Element (tag : string) (attrs : list nat) : M nat :=
  e ← alloc (mkNode ELEMENT_NODE tag None (toUpperCase tag) None None None None
               None None [] attrs None None None None);
  set_ownerElements e attrs;;
  mret e.

Definition new_Attr (name value : string) : M nat :=
  alloc (blank_node ATTRIBUTE_NODE name (Some value)).
Definition new_Text (data : string) : M nat :=
  alloc (blank_node TEXT_NODE "#text" (Some data)).
Definition new_CDATASection (data : string) : M nat :=
  alloc (blank_node CDATA_SECTION_NODE "#cdata-section" (Some data)).
Definition new_Comment (data : string) : M nat :=
  alloc (blank_node COMMENT_NODE "#comment" (Some data)).
Definition new_ProcessingInstruction (target data : string) : M nat :=
  alloc (blank_node PROCESSING_INSTRUCTION_NODE target (Some data)).
Definition new_DocumentType (name : string) : M nat :=
  alloc (blank_node DOCUMENT_TYPE_NODE name None).
Definition new_DocumentFragment : M nat :=
  alloc (blank_node DOCUMENT_FRAGMENT_NODE "#document-fragment" None).
(** [GenericNode] stands for the node kinds the assembler has no class for. *)
Definition new_GenericNode (code : nat) (name : string) (value : option string)
  : M nat :=
  alloc (blank_node (OTHER_NODE code) name value).

(** [new Document(...)]: the field [ownerDocument = this] is then made
    read-only together with the links. *)
Definition new_Document : M nat :=
  d ← alloc (blank_node DOCUMENT_NODE "#document" None);
  modify d (with_ownerDocument (Some d));;
  mret d.

Definition createElement (doc : nat) (tag : string) : M nat :=
  e ← new_Element tag [];
  set_ownerDocument e (Some doc);;
  mret e.

Definition createTextNode (doc : nat) (data : string) : M nat :=
  t ← new_Text data;
  set_ownerDocument t (Some doc);;
  mret t.

(** Running a computation. *)
Definition exec {A} (m : M A) (s : St) : St := fst (m s).
Definition result {A} (m : M A) (s : St) : Res A := snd (m s).
Definition node_at (s : St) (r : nat) : option NodeRec := heap s !! r.

(* ------------------------------------------------------------------ *)
(** ** [Document]'s cached accessors *)

(** [let child = start; while (child) { if (ok(child)) return child;
    child = child.nextSibling; } return null;] -- a loop that runs past its
    fuel stands for one that does not terminate. *)
Fixpoint find_sibling (fuel : nat) (ok : NodeRec -> bool) (child : option nat)
    : M (option nat) :=
  match child with
  | None => mret None
  | Some c =>
      match fuel with
      | O => throw StackOverflow
      | S fuel' =>
          n ← get c;
          if ok n then mret (Some c) else find_sibling fuel' ok (nextSibling n)
      end
  end.

Definition is_element (n : NodeRec) : bool :=
  bool_decide (nodeType n = ELEMENT_NODE).

Definition is_element_named (tag : string) (n : NodeRec) : bool :=
  is_element n && bool_decide (toLowerCase (tagName n) = tag).

(** [get documentElement() { return this.#documentElement ??= (...)(); }] *)
Definition documentElement (fuel : nat) (this : nat) : M (option nat) :=
  t ← get this;
  match cachedDocumentElement t with
  | Some e => mret (Some e)
  | None =>
      r ← find_sibling fuel is_element (firstChild t);
      modify this (with_cachedDocumentElement r);;
      mret r
  end.

(** [head] and [body] look among the children of [this.documentElement]. *)
Definition docEl_child (fuel : nat) (this : nat) (tag : string) : M (option nat) :=
  docEl ← documentElement fuel this;
  match docEl with
  | None => mret None
  | Some e => en ← get e; find_sibling fuel (is_element_named tag) (firstChild en)
  end.

Definition head (fuel : nat) (this : nat) : M (option nat) :=
  t ← get this;
  match cachedHead t with
  | Some h => mret (Some h)
  | None =>
      r ← docEl_child fuel this "head";
      modify this (with_cachedHead r);;
      mret r
  end.

Definition body (fuel : nat) (this : nat) : M (option nat) :=
  t ← get this;
  match cachedBody t with
  | Some b => mret (Some b)
  | None =>
      r ← docEl_child fuel this "body";
      modify this (with_cachedBody r);;
      mret r
  end.

Inductive cached_accessor := AccDocumentElement | AccHead | AccBody.

Global Instance cached_accessor_eq_dec : EqDecision cached_accessor.
Proof. solve_decision. Defined.

Definition read_accessor (a : cached_accessor) (fuel this : nat) : M (option nat) :=
  match a with
  | AccDocumentElement => documentElement fuel this
  | AccHead => head fuel this
  | AccBody => body fuel this
  end.

(** A sequence of calls into the public mutation core (and reads of the
    cached accessors).  Whether a call returns or throws, the next one runs
    on the state it left. *)
Inductive dom_call :=
| CallInsertBefore (fuel this newChild : nat) (refChild : option nat)
| CallAppendChild (fuel this newChild : nat)
| CallReplaceChild (fuel this newChild oldChild : nat)
| CallRemoveChild (this oldChild : nat)
| CallAccessor (a : cached_accessor) (fuel this : nat).

Definition run_call (c : dom_call) (s : St) : St :=
  match c with
  | CallInsertBefore f t n r => exec (insertBefore f t n r) s
  | CallAppendChild f t n => exec (appendChild f t n) s
  | CallReplaceChild f t n o => exec (replaceChild f t n o) s
  | CallRemoveChild t o => exec (removeChild t o) s
  | CallAccessor a f t => exec (read_accessor a f t) s
  end.

Definition run_calls (cs : list dom_call) (s : St) : St :=
  foldl (fun s c => run_call c s) s cs.

(* ------------------------------------------------------------------ *)
(** ** [cloneNode(false)] *)

(** [Attr.prototype.cloneNode]: [new Attr(nodeName, value, namespaceURI)],
    then [clone.ownerElement = this.ownerElement]. *)
Definition attr_cloneNode (a : nat) : M nat :=
  n ← get a;
  c ← new_Attr (nodeName n) (default "" (nodeValue n));
  modify c (with_ownerElement (ownerElement n));;
  mret c.

Fixpoint clone_attrs (attrs : list nat) : M (list nat) :=
  match attrs with
  | [] => mret []
  | a :: attrs' => c ← attr_cloneNode a; cs ← clone_attrs attrs'; mret (c :: cs)
  end.

(** [cloneShallow] of each class, which is all that [cloneNode(false)]
    (and the parameterless overrides) run. *)
Definition cloneNode_shallow (this : nat) : M nat :=
  n ← get this;
  match nodeType n with
  | ELEMENT_NODE =>
      clonedAttrs ← clone_attrs (attributes n);
      new_Element (tagName n) clonedAttrs
  | ATTRIBUTE_NODE => attr_cloneNode this
  | TEXT_NODE => new_Text (default "" (nodeValue n))
  | CDATA_SECTION_NODE => new_CDATASection (default "" (nodeValue n))
  | COMMENT_NODE => new_Comment (default "" (nodeValue n))
  | PROCESSING_INSTRUCTION_NODE =>
      new_ProcessingInstruction (nodeName n) (default "" (nodeValue n))
  | DOCUMENT_TYPE_NODE => new_DocumentType (nodeName n)
  | DOCUMENT_FRAGMENT_NODE => new_DocumentFragment
  | DOCUMENT_NODE => new_Document
  | OTHER_NODE k => new_GenericNode k (nodeName n) (nodeValue n)
  end.

(** The shallow shape: [nodeName], [nodeValue] and the ordered
    [(name, value)] pairs of the attributes. *)
Definition attr_pair (s : St) (a : nat) : option (string * string) :=
  n ← heap s !! a; Some (nodeName n, default "" (nodeValue n)).

Definition shallow_shape (s : St) (r : nat)
    : option (string * option string * list (option (string * string))) :=
  n ← heap s !! r;
  Some (nodeName n, nodeValue n, map (attr_pair s) (attributes n)).

Definition unlinked (n : NodeRec) : Prop :=
  parentNode n = None /\ firstChild n = None /\ lastChild n = None /\
  previousSibling n = None /\ nextSibling n = None /\ childNodes n = [].

(** Ids are drawn from the counter: every allocated address is at most it. *)
Definition ids_below (s : St) : Prop :=
  forall i, is_Some (heap s !! i) -> i <= next_id s.

(* ------------------------------------------------------------------ *)
(** ** Attributes ([Element.getAttribute], [setAttribute] and the
    [NamedNodeMap] storage) *)

(** [for (const attr of this.attributes) if (attr.name === name) return attr;] *)
Fixpoint find_attr (ok : string -> bool) (attrs : list nat) : M (option nat) :=
  match attrs with
  | [] => mret None
  | a :: attrs' => n ← get a; if ok (nodeName n) then mret (Some a) else find_attr ok attrs'
  end.

Definition getAttributeNode (e : nat) (name : string) : M (option nat) :=
  en ← get e; find_attr (fun x => bool_decide (x = name)) (attributes en).

Definition attr_value (n : NodeRec) : string := default "" (nodeValue n).

Definition getAttribute (e : nat) (name : string) : M (option string) :=
  a ← getAttributeNode e name;
  match a with
  | None => mret None
  | Some a => an ← get a; mret (Some (attr_value an))
  end.

(** [NamedNodeMap.getNamedItem]: the first attribute whose name matches
    ignoring case. *)
Definition getNamedItem (e : nat) (name : string) : M (option nat) :=
  en ← get e;
  find_attr (fun x => bool_decide (toLowerCase x = toLowerCase name)) (attributes en).

(** [setNamedItem]: replace the case-insensitive match in place, or append. *)
Definition setNamedItem (e : nat) (attr : nat) : M unit :=
  an ← get attr;
  existing ← getNamedItem e (nodeName an);
  en ← get e;
  match existing with
  | Some x =>
      let index := default (length (attributes en)) (indexOf x (attributes en)) in
      modify e (with_attributes (take index (attributes en) ++ attr :: drop (S index) (attributes en)))
  | None => modify e (with_attributes (attributes en ++ [attr]))
  end.

(** [setAttribute(name, value)]: [new Attr(name, value, ns, this)] and
    [setAttributeNode], whose candidate is the new attribute itself. *)
Definition setAttribute (e : nat) (name value : string) : M unit :=
  en ← get e;
  a ← new_Attr name value;
  modify a (with_ownerElement (Some e));;
  modify a (with_ownerDocument (ownerDocument en));;
  _ ← getAttributeNode e name;
  modify a (with_ownerElement (Some e));;
  setNamedItem e a.

(* ------------------------------------------------------------------ *)
(** ** Live collections: [children] as an [HTMLCollection] *)

(** The recompute function of [ParentNode.prototype.children]:
    [for (let n = this.firstElementChild; n; n = n.nextElementSibling)
    elements.push(n);] *)
Fixpoint collect_elements (fuel walk : nat) (n : option nat) : M (list nat) :=
  match n with
  | None => mret []
  | Some c =>
      match walk with
      | O => throw StackOverflow
      | S walk' =>
          cn ← get c;
          nxt ← find_sibling fuel is_element (nextSibling cn);
          rest ← collect_elements fuel walk' nxt;
          mret (c :: rest)
      end
  end.

Definition children_items (fuel : nat) (this : nat) : M (list nat) :=
  t ← get this;
  first ← find_sibling fuel is_element (firstChild t);
  collect_elements fuel fuel first.

(** An [HTMLCollection] object: its recompute function (when it has one) and
    its backing [LinkedList]. *)
Record HTMLCollection := mkHTMLCollection {
  hc_getItems : option (M (list nat));
  hc_storage : list nat
}.

(** [createHTMLCollection(owner, getItems)] =
    [new HTMLCollectionOf(owner, getItems(), getItems)]. *)
Definition createHTMLCollection (getItems : M (list nat)) : M HTMLCollection :=
  items ← getItems; mret (mkHTMLCollection (Some getItems) items).

Definition children (fuel : nat) (this : nat) : M HTMLCollection :=
  createHTMLCollection (children_items fuel this).

(** [refreshList]: re-sync the storage from the getter when there is one. *)
Definition refreshList (c : HTMLCollection) : M HTMLCollection :=
  match hc_getItems c with
  | Some g => items ← g; mret (mkHTMLCollection (Some g) items)
  | None => mret c
  end.

(** Reads: [length], [item(i)] / [c[i]], and iteration (the generator
    refreshes once, then walks the storage). *)
Definition hc_length (c : HTMLCollection) : M (HTMLCollection * nat) :=
  c' ← refreshList c; mret (c', length (hc_storage c')).
Definition hc_item (c : HTMLCollection) (i : nat) : M (HTMLCollection * option nat) :=
  c' ← refreshList c; mret (c', hc_storage c' !! i).
Definition hc_iterate (c : HTMLCollection) : M (HTMLCollection * list nat) :=
  c' ← refreshList c; mret (c', hc_storage c').

(* ------------------------------------------------------------------ *)
(** ** Whitespace splitting ([/\s+/] on the ASCII white-space characters) *)

Definition is_ws (c : ascii) : bool :=
  let n := nat_of_ascii c in
  (n =? 32) || ((9 <=? n) && (n <=? 13)).

(** [s.split(/\s+/)]: the pieces between maximal runs of white space; the
    pieces before a leading run and after a trailing run are empty. *)
Fixpoint split_ws_aux (s : string) (cur : string) (in_run : bool)
    : list string :=
  match s with
  | EmptyString => [cur]
  | String c s' =>
      if is_ws c then
        if in_run then split_ws_aux s' cur true
        else cur :: split_ws_aux s' EmptyString true
      else split_ws_aux s' (cur +:+ String c EmptyString) false
  end.

Definition split_ws (s : string) : list string := split_ws_aux s EmptyString false.

Fixpoint trim_start (s : string) : string :=
  match s with
  | String c s' => if is_ws c then trim_start s' else s
  | EmptyString => EmptyString
  end.

Fixpoint string_rev_app (s acc : string) : string :=
  match s with
  | EmptyString => acc
  | String c s' => string_rev_app s' (String c acc)
  end.

Definition string_rev (s : string) : string := string_rev_app s EmptyString.

Definition trim (s : string) : string := string_rev (trim_start (string_rev (trim_start s))).

(** [Array.prototype.indexOf] with [===] on strings. *)
Fixpoint str_indexOf (x : string) (l : list string) : option nat :=
  match l with
  | [] => None
  | y :: l' => if bool_decide (y = x) then Some 0 else S <$> str_indexOf x l'
  end.

(** [a.filter((t, i, a) => indexOf(a, t) === i)] *)
Definition dedupe (l : list string) : list string :=
  map fst (filter (fun p => bool_decide (str_indexOf p.1 l = Some p.2))
             (zip l (seq 0 (length l)))).

Fixpoint join_space (l : list string) : string :=
  match l with
  | [] => ""
  | [x] => x
  | x :: l' => x +:+ " " +:+ join_space l'
  end.

(* ------------------------------------------------------------------ *)
(** ** [DOMTokenList] *)

Record DOMTokenList := mkDOMTokenList {
  ownerElement_ : nat;
  attributeName : string;
  tokens : option (list string);
  updating : bool
}.

Definition with_tokens (v : option (list string)) (t : DOMTokenList) : DOMTokenList :=
  mkDOMTokenList (ownerElement_ t) (attributeName t) v (updating t).
Definition with_updating (v : bool) (t : DOMTokenList) : DOMTokenList :=
  mkDOMTokenList (ownerElement_ t) (attributeName t) (tokens t) v.

(** Methods of a token list run on the program state and on the object's own
    private fields. *)
Definition TM (A : Type) : Type :=
  St * DOMTokenList -> (St * DOMTokenList) * Res A.

Global Instance TM_ret : MRet TM := fun A x st => (st, Ok x).
Global Instance TM_bind : MBind TM := fun A B f m st =>
  match m st with
  | (st', Ok a) => f a st'
  | (st', Throw e) => (st', Throw e)
  end.

Definition lift {A} (m : M A) : TM A := fun '(s, t) =>
  let '(s', r) := m s in ((s', t), r).
Definition self : TM DOMTokenList := fun '(s, t) => ((s, t), Ok t).
Definition set_self (t : DOMTokenList) : TM unit := fun '(s, _) => ((s, t), Ok tt).

(** [#updateTokens(value?)] *)
Definition updateTokens (value : option string) : TM (list string) :=
  t ← self;
  (if updating t then mret ()
   else
     set_self (with_updating true t);;
     v ← (match value with
          | Some v => mret v
          | None => a ← lift (getAttribute (ownerElement_ t) (attributeName t));
                    mret (default "" a)
          end);
     t1 ← self;
     set_self (with_tokens (Some (filter (fun x => bool_decide (x <> ""))
                                          (split_ws (trim v)))) t1);;
     t2 ← self;
     set_self (with_updating false t2));;
  t3 ← self;
  let toks := default [] (tokens t3) in
  set_self (with_tokens (Some toks) t3);;
  mret toks.

(** [get value() { return this.#tokens?.join(" ") ?? ""; }] *)
Definition dtl_value (t : DOMTokenList) : string := default "" (join_space <$> tokens t).

(** [#updateAttribute(value?)] *)
Definition updateAttribute (value : option string) : TM unit :=
  t ← self;
  if updating t then mret ()
  else
    set_self (with_updating true t);;
    lift (setAttribute (ownerElement_ t) (attributeName t) (default (dtl_value t) value));;
    t1 ← self;
    set_self (with_updating false t1).

(** [new DOMTokenList(ownerElement, attributeName)] *)
Definition new_DOMTokenList (e : nat) (name : string) : M DOMTokenList :=
  fun s =>
    let '((s', t), r) := updateTokens None (s, mkDOMTokenList e name None false) in
    (s', match r with Ok _ => Ok t | Throw x => Throw x end).

(** [get classList() { return new DOMTokenList(this, "class"); }] *)
Definition classList (e : nat) : M DOMTokenList := new_DOMTokenList e "class".

(** [get length() { return this.#tokens?.length ?? 0; }] *)
Definition dtl_length : TM nat := t ← self; mret (default 0 (length <$> tokens t)).

Definition dtl_item (index : nat) : TM (option string) :=
  toks ← updateTokens None; mret (toks !! index).

Definition dtl_contains (token : string) : TM bool :=
  toks ← updateTokens None; mret (bool_decide (token ∈ toks)).

Definition dtl_iterate : TM (list string) := updateTokens None.

Definition dtl_add (new_tokens : list string) : TM unit :=
  list ← updateTokens None;
  t ← self;
  set_self (with_tokens (Some (dedupe (list ++ new_tokens))) t);;
  updateAttribute None.

Definition dtl_remove (old_tokens : list string) : TM unit :=
  list ← updateTokens None;
  t ← self;
  set_self (with_tokens (Some (filter (fun x => bool_decide (str_indexOf x old_tokens = None)) list)) t);;
  updateAttribute None.

Definition dtl_toggle (token : string) (force : option bool) : TM bool :=
  toks ← updateTokens None;
  let contains := bool_decide (token ∈ toks) in
  (if default (negb contains) force then dtl_add [token] else dtl_remove [token]);;
  mret (negb contains).

Definition dtl_replace (oldToken newToken : string) : TM bool :=
  toks ← updateTokens None;
  match str_indexOf oldToken toks with
  | None => mret false
  | Some index =>
      let toks' := dedupe (<[index := newToken]> toks) in
      t ← self;
      set_self (with_tokens (Some toks') t);;
      updateAttribute (Some (join_space toks'));;
      mret true
  end.

(* ------------------------------------------------------------------ *)
(** ** JavaScript string and number helpers used by select.ts *)

Fixpoint startsWith (s prefix : string) : bool :=
  match prefix, s with
  | EmptyString, _ => true
  | String c p', String d s' => bool_decide (c = d) && startsWith s' p'
  | String _ _, EmptyString => false
  end.

Definition endsWith (s suffix : string) : bool :=
  startsWith (string_rev s) (string_rev suffix).

(** [a.indexOf(b) > -1] *)
Fixpoint includes_sub (s sub : string) : bool :=
  startsWith s sub ||
  match s with
  | EmptyString => false
  | String _ s' => includes_sub s' sub
  end.

Definition is_digit (c : ascii) : bool :=
  let n := nat_of_ascii c in (48 <=? n) && (n <=? 57).

Fixpoint digits_value (s : string) (acc : Z) : Z :=
  match s with
  | EmptyString => acc
  | String c s' => digits_value s' (10 * acc + Z.of_nat (nat_of_ascii c - 48))%Z
  end.

Fixpoint all_digits (s : string) : bool :=
  match s with
  | EmptyString => true
  | String c s' => is_digit c && all_digits s'
  end.

(** [Number(str)] on decimal integer literals, [None] standing for [NaN]:
    surrounding white space is ignored, the empty string is [0], and an
    optional sign may precede the digits.  (Fractions, exponents, [0x]
    prefixes and [Infinity] are not produced by the inputs we consider.) *)
Definition js_Number (s : string) : option Z :=
  match trim s with
  | EmptyString => Some 0%Z
  | String c rest =>
      if bool_decide (c = "-"%char) then
        if bool_decide (rest <> EmptyString) && all_digits rest
        then Some (- digits_value rest 0)%Z else None
      else if bool_decide (c = "+"%char) then
        if bool_decide (rest <> EmptyString) && all_digits rest
        then Some (digits_value rest 0) else None
      else if all_digits (String c rest) then Some (digits_value (String c rest) 0)
      else None
  end.

(** [Number.parseInt] of the strings the [nthChild] regular expression
    captures ([-?\d+] or digits). *)
Definition parseInt (s : string) : Z :=
  match s with
  | String "-"%char rest => (- digits_value rest 0)%Z
  | _ => digits_value s 0
  end.

Fixpoint span_digits (s : string) : string * string :=
  match s with
  | String c s' =>
      if is_digit c then let '(d, r) := span_digits s' in (String c d, r)
      else (EmptyString, s)
  | EmptyString => (EmptyString, EmptyString)
  end.

(** The capture groups of
    [/^\s*(?:(-?(?:\d+)?)n)?\s*\+?\s*(\d+)?\s*$/gm.exec(formula)] on a formula
    without line terminators: [None] when it does not match. *)
Definition nth_regex (formula : string) : option (option string * option string) :=
  let s := trim_start formula in
  let '(groupA, rest) :=
    let '(sign, s1) := match s with
                       | String "-"%char s' => ("-", s')
                       | _ => ("", s)
                       end in
    let '(d, s2) := span_digits s1 in
    match s2 with
    | String "n"%char s3 => (Some (sign +:+ d), s3)
    | _ => (None, s)
    end in
  let r1 := trim_start rest in
  let r2 := match r1 with String "+"%char r => trim_start r | _ => r1 end in
  let '(d, r3) := span_digits r2 in
  if bool_decide (trim_start r3 = EmptyString) then
    Some (groupA, if bool_decide (d = EmptyString) then None else Some d)
  else None.

(** [nthChild(formula)] returns [n => a * n + b]; we return [(a, b)]. *)
Definition nthChild (formula : string) : Z * Z :=
  let '(A, B) :=
    match nth_regex formula with
    | Some (ga, gb) => (default "1" ga, default "0" gb)
    | None => ("1", "0")
    end in
  let A := if bool_decide (A = EmptyString) then "1" else A in
  (parseInt (if bool_decide (A = "-") then "-1" else A), parseInt B).

(** [JSON.parse] of a quoted attribute operand: a double-quoted string
    without escapes or control characters; anything else is a
    [SyntaxError]. *)
Definition JSON_parse_string (v : string) : Res string :=
  match v with
  | String "034"%char rest =>
      match string_rev rest with
      | String "034"%char inner_rev =>
          let inner := string_rev inner_rev in
          if includes_sub inner (String "034"%char EmptyString)
             || includes_sub inner (String "092"%char EmptyString)
          then Throw (SyntaxError "Bad string in JSON") else Ok inner
      | _ => Throw (SyntaxError "Unterminated string in JSON")
      end
  | _ => Throw (SyntaxError "Unexpected token in JSON")
  end.

(* ------------------------------------------------------------------ *)
(** ** parsel-js selector ASTs *)

Local Set Warnings "-register-all".

(** The AST nodes produced by parsel-js's [parse] that select.ts inspects;
    [AOther] carries the [type] of any other token (pseudo-elements, ...). *)
Inductive AST :=
| AList (list_ : list AST)
| ACompound (list_ : list AST)
| AComplex (combinator : string) (lhs rhs : AST)
| AType (name content : string)
| AClass (name : string)
| AId (name : string)
| APseudoClass (name : string) (argument : option string) (subtree : option AST)
| AAttribute (name : string) (operator : option string) (value : option string)
    (caseSensitive : option string)
| AUniversal
| AOther (type_ : string).

(** A matcher: [(n, parent?, index?) => boolean]. *)
Definition Matcher : Type := nat -> option nat -> option Z -> M bool.

(** [getAttributeMatch(selector)], with its default operator ["="]. *)
Definition getAttributeMatch (operator : option string) (a b : string) : bool :=
  match default "=" operator with
  | "=" => bool_decide (a = b)
  | "~=" => bool_decide (b ∈ split_ws a)
  | "|=" => startsWith a (b +:+ "-")
  | "*=" => includes_sub a b
  | "$=" => endsWith a b
  | "^=" => startsWith a b
  | _ => false
  end.

(* ------------------------------------------------------------------ *)
(** ** WeakSets of complex selectors *)

Definition new_WeakSet : M nat := fun s =>
  (mkSt (heap s) (next_id s) (<[next_ws s := []]> (wsets s)) (S (next_ws s)),
   Ok (next_ws s)).

Definition ws_has (w n : nat) : M bool := fun s =>
  (s, Ok (bool_decide (n ∈ default [] (wsets s !! w)))).

Definition ws_add (w n : nat) : M unit := fun s =>
  let l := default [] (wsets s !! w) in
  (mkSt (heap s) (next_id s)
        (<[w := if bool_decide (n ∈ l) then l else l ++ [n]]> (wsets s)) (next_ws s),
   Ok tt).

(* ------------------------------------------------------------------ *)
(** ** select.ts *)

(** [[...parent?.childNodes ?? []].filter((n) => n.nodeType === ELEMENT_NODE)] *)
Fixpoint filter_elements (l : list nat) : M (list nat) :=
  match l with
  | [] => mret []
  | x :: l' =>
      xn ← get x; rest ← filter_elements l';
      mret (if is_element xn then x :: rest else rest)
  end.

Definition element_children_of (parent : option nat) : M (list nat) :=
  match parent with
  | None => mret []
  | Some p => pn ← get p; filter_elements (childNodes pn)
  end.

(** [nthChildIndex(node, parent)]: [findIndex], so [-1] when absent. *)
Definition nthChildIndex (node : nat) (parent : option nat) : M Z :=
  els ← element_children_of parent;
  mret (match indexOf node els with Some i => Z.of_nat i | None => (-1)%Z end).

(** [[...parent.childNodes].slice(0, i)] *)
Definition js_slice_to (l : list nat) (i : Z) : list nat :=
  if (i <? 0)%Z then take (Z.to_nat (Z.max 0 (Z.of_nat (length l) + i))) l
  else take (Z.to_nat i) l.

Fixpoint any_in_ws (w : nat) (l : list nat) : M bool :=
  match l with
  | [] => mret false
  | x :: l' => found ← ws_has w x; if (found : bool) then mret true else any_in_ws w l'
  end.

(** [Object.entries(node.attributes)] for an element: the proxy's [ownKeys]
    trap reads [t[i]] on the proxy target, where no index is an own property,
    so it reports only ["length"]; that key has a descriptor only when
    [getNamedItem("length")] finds an attribute, and its value is then the
    number of attributes. *)
Definition attribute_entries (e : nat) : M (list (string * nat)) :=
  a ← getNamedItem e "length";
  en ← get e;
  mret (match a with Some _ => [("length", length (attributes en))] | None => [] end).

Section Selectors.

(** parsel-js's [parse]: it may throw, and yields [undefined] or an AST. *)
Variable parse : string -> Res (option AST).

Definition parse_m (sel : string) : M (option AST) := fun s => (s, parse sel).

(** The attribute matcher's loop over the entries; the entry's value is a
    number, so [attrVal.value] reads [undefined] and writing it throws. *)
Fixpoint attr_entries_loop (name : string) (operator value caseSensitive : option string)
    (entries : list (string * nat)) : M bool :=
  match entries with
  | [] => mret false
  | (attr, _) :: rest =>
      if bool_decide (caseSensitive = Some "i") then
        throw (TypeError "Cannot create property 'value' on number")
      else if bool_decide (attr <> name) then
        attr_entries_loop name operator value caseSensitive rest
      else
        match value with
        | None | Some EmptyString => mret true
        | Some v =>
            v' ← (match v with
                  | String c _ =>
                      if (bool_decide (c = "034"%char) || bool_decide (c = "'"%char))
                         && (match string_rev v with
                             | String c' _ => bool_decide (c = c')
                             | EmptyString => false
                             end)
                      then (fun s => (s, JSON_parse_string v))
                      else mret v
                  | EmptyString => mret v
                  end);
            if bool_decide (v' = EmptyString) then
              attr_entries_loop name operator (Some v') caseSensitive rest
            else
              (* getAttributeMatch(selector)(undefined, value) *)
              match default "=" operator with
              | "=" => mret false
              | "~=" | "|=" | "*=" | "$=" | "^=" =>
                  throw (TypeError "Cannot read properties of undefined")
              | _ => mret false
              end
        end
  end.

(** [selectorToMatch] ([top = true]) and [createMatch] ([top = false]);
    [fuel] bounds the nesting of compilations, also those run lazily by
    [:not], [:is], [:where] and [:global] matchers. *)
Fixpoint compile (fuel : nat) (top : bool) (sel : option AST) {struct fuel} : M Matcher :=
  match fuel with
  | O => throw StackOverflow
  | S fuel' =>
    let createMatch (sel : option AST) : M Matcher :=
      match sel with
      | None => throw (TypeError "Cannot read properties of undefined (reading 'type')")
      | Some (AType name content) =>
          mret (fun node _ _ =>
            if bool_decide (content = "*") then mret true
            else n ← get node; mret (bool_decide (nodeName n = name)))
      | Some (AClass name) =>
          mret (fun node _ _ =>
            n ← get node;
            if is_element n then
              a ← getNamedItem node "class";
              match a with
              | None => mret false
              | Some a => an ← get a; mret (bool_decide (name ∈ split_ws (attr_value an)))
              end
            else mret false)
      | Some (AId name) =>
          mret (fun node _ _ =>
            n ← get node;
            if is_element n then
              a ← getNamedItem node "id";
              match a with
              | None => mret false
              | Some a => an ← get a; mret (bool_decide (attr_value an = name))
              end
            else mret false)
      | Some (APseudoClass pname argument subtree) =>
          match pname with
          | "global" =>
              mret (fun node parent index =>
                match argument with
                | None => throw (TypeError "Cannot read properties of undefined (reading 'trim')")
                | Some arg =>
                    ast ← parse_m arg;
                    m ← compile fuel' true ast;
                    m node parent index
                end)
          | "not" =>
              mret (fun node parent index =>
                m ← compile fuel' false subtree;
                b ← m node parent index;
                mret (negb b))
          | "is" | "where" =>
              mret (fun node parent index =>
                m ← compile fuel' true subtree;
                m node parent index)
          | "root" =>
              mret (fun node _ _ =>
                n ← get node;
                mret (is_element n && bool_decide (nodeName n = "html")))
          | "empty" =>
              mret (fun node _ _ =>
                n ← get node;
                if is_element n then
                  kids ← mapM get (childNodes n);
                  mret (bool_decide (childNodes n = []) ||
                        forallb (fun k => bool_decide (nodeType k = TEXT_NODE) &&
                                          bool_decide (trim (default "" (nodeValue k)) = ""))
                                kids)
                else mret false)
          | "first-child" =>
              mret (fun node parent _ =>
                els ← element_children_of parent; mret (bool_decide (els !! 0 = Some node)))
          | "last-child" =>
              mret (fun node parent _ =>
                els ← element_children_of parent; mret (bool_decide (last els = Some node)))
          | "only-child" =>
              mret (fun _ parent _ =>
                els ← element_children_of parent; mret (bool_decide (length els = 1)))
          | "nth-child" =>
              mret (fun node parent _ =>
                idx ← nthChildIndex node parent;
                let target := (idx + 1)%Z in
                match option_bind _ _ js_Number argument with
                | Some k => mret (bool_decide (target = k))
                | None =>
                    match argument with
                    | Some "odd" => mret (bool_decide (Z.abs (Z.rem target 2) = 1%Z))
                    | Some "even" => mret (bool_decide (Z.rem target 2 = 0%Z))
                    | None | Some EmptyString =>
                        throw (SelectorError "Unsupported empty nth-child selector!")
                    | Some arg =>
                        let '(a, b) := nthChild arg in
                        elements ← element_children_of parent;
                        let childIndex := target in
                        mret ((fix loop (i : nat) (k : nat) : bool :=
                                 match k with
                                 | O => false
                                 | S k' =>
                                     let n := (a * Z.of_nat i + b)%Z in
                                     if (Z.of_nat (length elements) <? n)%Z then false
                                     else if (n =? childIndex)%Z then true
                                     else loop (S i) k'
                                 end) 0 (length elements))
                    end
                end)
          | _ => throw (SelectorError ("Unhandled pseudo-class: " +:+ pname +:+ "!"))
          end
      | Some (AAttribute name operator value caseSensitive) =>
          mret (fun node _ _ =>
            n ← get node;
            if is_element n then
              entries ← attribute_entries node;
              attr_entries_loop name operator value caseSensitive entries
            else mret false)
      | Some AUniversal => mret (fun _ _ _ => mret true)
      | Some _ => throw (SelectorError "Unhandled selector")
      end in
    if top then
      match sel with
      | Some (AList items) =>
          matchers ← mapM (fun it => compile fuel' false (Some it)) items;
          mret (fun node parent index =>
            (fix any (ms : list Matcher) : M bool :=
               match ms with
               | [] => mret false
               | m :: ms' => b ← m node parent index; if (b : bool) then mret true else any ms'
               end) matchers)
      | Some (ACompound items) =>
          matchers ← mapM (fun it => compile fuel' false (Some it)) items;
          mret (fun node parent index =>
            (fix all (ms : list Matcher) : M bool :=
               match ms with
               | [] => mret true
               | m :: ms' => b ← m node parent index; if (b : bool) then all ms' else mret false
               end) matchers)
      | Some (AComplex combinator lhs rhs) =>
          matchLeft ← compile fuel' true (Some lhs);
          matchRight ← compile fuel' true (Some rhs);
          leftMatches ← new_WeakSet;
          mret (fun node parent index =>
            let i := default 0%Z index in
            bl ← matchLeft node None None;
            (if (bl : bool) then ws_add leftMatches node
             else match parent with
                  | Some p =>
                      hp ← ws_has leftMatches p;
                      if (hp : bool) && bool_decide (combinator = " ") then ws_add leftMatches node
                      else mret ()
                  | None => mret ()
                  end);;
            br ← matchRight node None None;
            if negb (br : bool) then mret false else
            match combinator with
            | " " | ">" =>
                match parent with Some p => ws_has leftMatches p | None => mret false end
            | "~" =>
                match parent with
                | None => mret false
                | Some p => pn ← get p; any_in_ws leftMatches (js_slice_to (childNodes pn) i)
                end
            | "+" =>
                match parent with
                | None => mret false
                | Some p =>
                    pn ← get p;
                    prevSiblings ← filter_elements (js_slice_to (childNodes pn) i);
                    match last prevSiblings with
                    | None => mret false
                    | Some prev => ws_has leftMatches prev
                    end
                end
            | _ => mret false
            end)
      | _ => createMatch sel
      end
    else createMatch sel
  end.

(** [selectorToMatch(sel)] on a string parses it first. *)
Definition selectorToMatch (fuel : nat) (sel : string) : M Matcher :=
  ast ← parse_m sel; compile fuel true ast.

(** [walkSync(node, callback)]: every descendant is visited in document order
    with [parent ?? node] as its parent argument, so the walk's root is passed
    for all of them; [childNodes.length] is re-read at each iteration. *)
Fixpoint walkSync (fuel : nat) (cb : nat -> option nat -> option Z -> M (list nat))
    (node : nat) (parent : option nat) : M (list nat) :=
  match fuel with
  | O => throw StackOverflow
  | S fuel' =>
      let p := match parent with Some p => p | None => node end in
      (fix loop (k i : nat) : M (list nat) :=
         match k with
         | O => throw StackOverflow
         | S k' =>
             nn ← get node;
             match childNodes nn !! i with
             | None => mret []
             | Some child =>
                 here ← cb child (Some p) (Some (Z.of_nat i));
                 below ← walkSync fuel' cb child (Some p);
                 rest ← loop k' (S i);
                 mret (here ++ below ++ rest)
             end
         end) fuel' 0
  end.

(** [select(node, match, { single })]: non-elements are skipped; a match is
    collected, or thrown when [single]. *)
Definition select (fuel : nat) (node : nat) (match_ : Matcher) (single : bool)
    : M (list nat) :=
  walkSync fuel (fun n parent index =>
    nn ← get n;
    if negb (is_element nn) then mret []
    else
      b ← match_ n parent index;
      if (b : bool) then (if single then throw (ThrownNode n) else mret [n])
      else mret []) node None.

(** What [querySelector] can return: a node, [null] or [undefined]. *)
Inductive js_node_result := JNode (n : nat) | JNull | JUndefined.

Definition querySelector (fuel : nat) (node : nat) (selector : string)
    : M js_node_result :=
  m ← selectorToMatch fuel selector;
  try_catch
    (nodes ← select fuel node m true;
     mret (match nodes with n :: _ => JNode n | [] => JUndefined end))
    (fun _ => mret JNull).

Definition querySelectorAll (fuel : nat) (node : nat) (selector : string)
    : M (list nat) :=
  m ← selectorToMatch fuel selector;
  select fuel node m false.

Definition matches (fuel : nat) (node : nat) (selector : string) : M bool :=
  m ← selectorToMatch fuel selector;
  n ← get node;
  idx ← nthChildIndex node (parentNode n);
  m node (parentNode n) (Some idx).

End Selectors.

(* ------------------------------------------------------------------ *)
(** ** The tree assembler (buildSubtree / buildDocumentTree) *)

Definition node_type_code (t : node_type) : nat :=
  match t with
  | ELEMENT_NODE => 1
  | ATTRIBUTE_NODE => 2
  | TEXT_NODE => 3
  | CDATA_SECTION_NODE => 4
  | PROCESSING_INSTRUCTION_NODE => 7
  | COMMENT_NODE => 8
  | DOCUMENT_NODE => 9
  | DOCUMENT_TYPE_NODE => 10
  | DOCUMENT_FRAGMENT_NODE => 11
  | OTHER_NODE k => k
  end.

(** A resolved wire node (interned strings already substituted). *)
Record WireNode := mkWireNode {
  wire_id : nat;
  wire_nodeType : node_type;
  wire_nodeName : string;
  wire_nodeValue : option string;
  wire_attributes : list (string * string);
  wire_firstChild : option nat;
  wire_nextSibling : option nat
}.

Fixpoint new_Attrs (owner : nat) (attrs : list (string * string)) : M (list nat) :=
  match attrs with
  | [] => mret []
  | (n, v) :: rest =>
      a ← new_Attr n v;
      modify a (with_ownerElement (Some owner));;
      as_ ← new_Attrs owner rest;
      mret (a :: as_)
  end.

(** [instantiateDomNode(node, context)]: returns the node and the
    context's [document] afterwards.  Kinds without a case of their own
    (comments and processing instructions included) become a
    [GenericNode]. *)
Definition instantiateDomNode (doc : option nat) (w : WireNode) : M (nat * option nat) :=
  if bool_decide (doc = None) && negb (bool_decide (wire_nodeType w = DOCUMENT_NODE)) then
    throw (TypeError "Cannot instantiate non-document node without a document context.")
  else
  match wire_nodeType w with
  | DOCUMENT_NODE => d ← new_Document; mret (d, Some d)
  | t =>
      instance ← (match t with
        | ELEMENT_NODE =>
            e ← new_Element (wire_nodeName w) [];
            attrs ← new_Attrs e (wire_attributes w);
            modify e (with_attributes attrs);;
            mret e
        | TEXT_NODE => new_Text (default "" (wire_nodeValue w))
        | DOCUMENT_FRAGMENT_NODE => new_DocumentFragment
        | DOCUMENT_TYPE_NODE => new_DocumentType (wire_nodeName w)
        | ATTRIBUTE_NODE => new_Attr (wire_nodeName w) (default "" (wire_nodeValue w))
        | CDATA_SECTION_NODE => new_CDATASection (default "" (wire_nodeValue w))
        | _ => new_GenericNode (node_type_code t) (wire_nodeName w) (wire_nodeValue w)
        end);
      set_ownerDocument instance doc;;
      mret (instance, doc)
  end.

Fixpoint buildSubtree (fuel : nat) (lookup : gmap nat WireNode) (w : WireNode)
    (parent prev next : option nat) (doc : option nat) : M (nat * option nat) :=
  match fuel with
  | O => throw StackOverflow
  | S fuel' =>
      '(domNode, doc1) ← instantiateDomNode doc w;
      (match parent with
       | None => mret ()
       | Some p =>
           reference ← (
             nextOk ← (match next with
                       | Some n => nn ← get n; mret (bool_decide (parentNode nn = Some p))
                       | None => mret false
                       end);
             if (nextOk : bool) then mret next
             else match prev with
                  | Some pv => pvn ← get pv; mret (nextSibling pvn)
                  | None => mret None
                  end);
           match reference with
           | Some r => insertBefore fuel p domNode (Some r);; mret ()
           | None => appendChild fuel p domNode;; mret ()
           end
       end);;
      (fix children (k : nat) (childId : option nat) (previousChild : option nat)
           (d : option nat) : M (option nat) :=
         match childId with
         | None => mret d
         | Some cid =>
             match lookup !! cid with
             | None => mret d
             | Some childWire =>
                 match k with
                 | O => throw StackOverflow
                 | S k' =>
                     '(c, d') ← buildSubtree fuel' lookup childWire (Some domNode)
                                  previousChild None d;
                     children k' (wire_nextSibling childWire) (Some c) d'
                 end
             end
         end) fuel' (wire_firstChild w) None doc1 ≫= fun d => mret (domNode, d)
  end.

Definition buildDocumentTree (fuel : nat) (nodes : list WireNode) : M nat :=
  let lookup : gmap nat WireNode :=
    foldl (fun (m : gmap nat WireNode) w => <[wire_id w := w]> m) ∅ nodes in
  match list_find (fun w => wire_nodeType w = DOCUMENT_NODE) nodes with
  | None => throw (TypeError "Document root node not found.")
  | Some (_, root) =>
      '(d, _) ← buildSubtree fuel lookup root None None None None;
      dn ← get d;
      if bool_decide (nodeType dn = DOCUMENT_NODE) then mret d
      else throw (TypeError "Parsed tree did not produce a document node.")
  end.

(* ------------------------------------------------------------------ *)
(** ** Concrete inputs *)

(** The wire document of [<ul><li>A</li><li class="sel">B</li></ul>] as an
    HTML parser hands it over: [#document > html > (head, body > ul > (li >
    "A", li class=sel > "B"))], with the lower-case element names of HTML
    parsing. *)
Definition wire_ul : list WireNode := [
  mkWireNode 1 DOCUMENT_NODE "#document" None [] (Some 2) None;
  mkWireNode 2 ELEMENT_NODE "html" None [] (Some 3) None;
  mkWireNode 3 ELEMENT_NODE "head" None [] None (Some 4);
  mkWireNode 4 ELEMENT_NODE "body" None [] (Some 5) None;
  mkWireNode 5 ELEMENT_NODE "ul" None [] (Some 6) None;
  mkWireNode 6 ELEMENT_NODE "li" None [] (Some 7) (Some 8);
  mkWireNode 7 TEXT_NODE "#text" (Some "A") [] None None;
  mkWireNode 8 ELEMENT_NODE "li" None [("class", "sel")] (Some 9) None;
  mkWireNode 9 TEXT_NODE "#text" (Some "B") [] None None
].

Definition build_fuel : nat := 50.

(** The assembled document: [#document] is node 1, [ul] node 5, the two
    [li] elements nodes 6 and 8 (node 9 is the [class] attribute of 8). *)
Definition ul_state : St := exec (buildDocumentTree build_fuel wire_ul) St_empty.

(** parsel-js's results on the selectors used below; every other input is
    refused, as parsel-js refuses a malformed selector by throwing. *)
Definition parsel_sample (sel : string) : Res (option AST) :=
  match sel with
  | "li" => Ok (Some (AType "li" "li"))
  | ".sel" => Ok (Some (AClass "sel"))
  | "li:nth-child(2)" =>
      Ok (Some (ACompound [AType "li" "li"; APseudoClass "nth-child" (Some "2") None]))
  | "[lang=en]" => Ok (Some (AAttribute "lang" (Some "=") (Some "en") None))
  | "[lang|=en]" => Ok (Some (AAttribute "lang" (Some "|=") (Some "en") None))
  | _ => Throw (ParseError "Unexpected token")
  end.

(** [<p lang="en">] built through [Document.createElement] and
    [setAttribute]. *)
Definition lang_scenario : M (nat * nat) :=
  d ← new_Document;
  p ← createElement d "p";
  setAttribute p "lang" "en";;
  appendChild build_fuel d p;;
  mret (d, p).

(** An element [p] and a [DocumentFragment] holding two elements [x] and
    [y]; then [p.insertBefore(fragment, null)]. *)
Definition fragment_scenario : M (nat * nat * nat * nat) :=
  p ← new_Element "div" [];
  f ← new_DocumentFragment;
  x ← new_Element "a" [];
  y ← new_Element "b" [];
  appendChild build_fuel f x;;
  appendChild build_fuel f y;;
  mret (p, f, x, y).

(** Two parents [p] and [q], the latter holding [x]. *)
Definition two_parents_scenario : M (nat * nat * nat) :=
  p ← new_Element "div" [];
  q ← new_Element "section" [];
  x ← new_Element "span" [];
  appendChild build_fuel q x;;
  mret (p, q, x).

Definition fragment_state : St := exec fragment_scenario St_empty.
Definition two_parents_state : St := exec two_parents_scenario St_empty.
Definition lang_state : St := exec lang_scenario St_empty.

(** An element whose [class] is [initial] when [classList] is read, and is
    then set to [later] through [setAttribute]; the state and the token list
    object. *)
Definition classlist_scenario (initial later : string) : M DOMTokenList :=
  e ← new_Element "p" [];
  setAttribute e "class" initial;;
  tl ← classList e;
  setAttribute e "class" later;;
  mret tl.

Definition run_classlist (initial later : string) : St * DOMTokenList :=
  match classlist_scenario initial later St_empty with
  | (s, Ok tl) => (s, tl)
  | (s, Throw _) => (s, mkDOMTokenList 0 "class" None false)
  end.

(** The record at an address (a blank record when there is none). *)
Definition node_or_blank (s : St) (i : nat) : NodeRec :=
  default (blank_node (OTHER_NODE 0) "" None) (heap s !! i).

(** [const d = new Document(); const ul = d.createElement("ul");] (ids 1
    and 2), then [ul.appendChild(d.createElement("li"))] (id 3). *)
Definition children_before : St :=
  exec (d ← new_Document; createElement d "ul") St_empty.
Definition children_after : St :=
  exec (y ← createElement 1 "li"; appendChild build_fuel 2 y) children_before.

(** ** The parent/sibling invariant, checked on a whole heap *)

(** The nodes reached from [c] by following [nextSibling], at most [k]. *)
Fixpoint sibling_chain (s : St) (k : nat) (c : option nat) : list nat :=
  match k, c with
  | S k', Some q => q :: sibling_chain s k' (nextSibling (node_or_blank s q))
  | _, _ => []
  end.

(** For every node [p]: every node whose [parentNode] is [p] lies on the
    chain from [p.firstChild], and every node on that chain has [p] as its
    [parentNode]. *)
Definition tree_invariant_b (s : St) : bool :=
  let nodes := map_to_list (heap s) in
  forallb (fun '(p, pn) =>
    let chain := sibling_chain s (S (length nodes)) (firstChild pn) in
    forallb (fun '(q, qn) =>
      if decide (parentNode qn = Some p) then bool_decide (q ∈ chain) else true) nodes &&
    forallb (fun q => bool_decide (parentNode (node_or_blank s q) = Some p)) chain) nodes.

(** On the assembled [<ul>] document: [ul.insertBefore(new Document(), li)]
    (the new document gets id 11), then [ul.appendChild(d.createElement("li"))]
    (id 12). *)
Definition insert_document_call : M nat :=
  d2 ← new_Document; insertBefore build_fuel 5 d2 (Some 6).
Definition append_li_call : M nat :=
  y ← createElement 1 "li"; appendChild build_fuel 5 y.
Definition after_failed_insert : St := exec insert_document_call ul_state.
Definition after_append : St := exec append_li_call after_failed_insert.

(** ** What a shallow clone is built from *)

(** The [nodeName] and [nodeValue] that [cloneShallow] gives its result:
    the constructor arguments passed by each class. *)
Definition clone_nv (n : NodeRec) : string * option string :=
  match nodeType n with
  | ELEMENT_NODE => (tagName n, None)
  | ATTRIBUTE_NODE => (nodeName n, Some (default "" (nodeValue n)))
  | TEXT_NODE => ("#text", Some (default "" (nodeValue n)))
  | CDATA_SECTION_NODE => ("#cdata-section", Some (default "" (nodeValue n)))
  | COMMENT_NODE => ("#comment", Some (default "" (nodeValue n)))
  | PROCESSING_INSTRUCTION_NODE => (nodeName n, Some (default "" (nodeValue n)))
  | DOCUMENT_TYPE_NODE => (nodeName n, None)
  | DOCUMENT_FRAGMENT_NODE => ("#document-fragment", None)
  | DOCUMENT_NODE => ("#document", None)
  | OTHER_NODE _ => (nodeName n, nodeValue n)
  end.

(** The record of the attribute built by [Attr.prototype.cloneNode]. *)
Definition attr_clone_rec (an : NodeRec) : NodeRec :=
  with_ownerElement (ownerElement an)
    (blank_node ATTRIBUTE_NODE (nodeName an) (Some (default "" (nodeValue an)))).

(** [s'] only allocated above the counter of [s] (and wrote there). *)
Definition frame (s s' : St) : Prop :=
  next_id s <= next_id s' /\
  (forall i, i <= next_id s -> heap s' !! i = heap s !! i) /\
  ids_below s'.

(** ** The cached fields of a [Document] and how states compare on them *)

Definition cache_of (a : cached_accessor) (n : NodeRec) : option nat :=
  match a with
  | AccDocumentElement => cachedDocumentElement n
  | AccHead => cachedHead n
  | AccBody => cachedBody n
  end.

(** Every cache that is filled in [n1] is filled with the same node in [n2]. *)
Definition caches_le (n1 n2 : NodeRec) : Prop :=
  forall a x, cache_of a n1 = Some x -> cache_of a n2 = Some x.

(** No node disappears from the heap, and no filled cache changes. *)
Definition cache_le (s1 s2 : St) : Prop :=
  forall r n1, heap s1 !! r = Some n1 ->
    exists n2, heap s2 !! r = Some n2 /\ caches_le n1 n2.

Definition preserves {A} (m : M A) : Prop := forall s, cache_le s (fst (m s)).

(** The [head] and [body] caches are the same in both states. *)
Definition hb_same (s1 s2 : St) : Prop :=
  forall r n2, heap s2 !! r = Some n2 ->
    exists n1, heap s1 !! r = Some n1 /\
      cachedHead n1 = cachedHead n2 /\ cachedBody n1 = cachedBody n2.


(* ------------------------------------------------------------------ *)
(** ** Tokens as a [DOMTokenList] stores them *)

(** A string without white space: what a piece of [split(/\s+/)] is. *)
Fixpoint no_ws (s : string) : bool :=
  match s with
  | EmptyString => true
  | String c s' => negb (is_ws c) && no_ws s'
  end.

(** A token [#updateTokens] can produce: non-empty, without white space. *)
Definition token_ok (x : string) : bool := bool_decide (x <> "") && no_ws x.

(** The first character of [s] (if any) is not white space. *)
Definition lead_ok (s : string) : bool :=
  match s with
  | EmptyString => true
  | String c _ => negb (is_ws c)
  end.

(* ------------------------------------------------------------------ *)
(** ** Views of an element's attributes, used to state the properties *)

(** The [name] of the attribute at address [a]. *)
Definition attr_name (s : St) (a : nat) : string := nodeName (node_or_blank s a).

(** Every attribute in the list is an object of the heap. *)
Definition attrs_present (s : St) (attrs : list nat) : Prop :=
  Forall (fun b => is_Some (heap s !! b)) attrs.

(** The first attribute whose name equals [name] ignoring case: what
    [getNamedItem(name)] finds. *)
Definition ci_match (s : St) (attrs : list nat) (name : string) : option nat :=
  List.find (fun b => bool_decide (toLowerCase (attr_name s b) = toLowerCase name)) attrs.

(** The backing list [setNamedItem(attr)] leaves when [existing] is what
    [getNamedItem] found. *)
Definition set_named_list (attrs : list nat) (existing : option nat) (attr : nat) : list nat :=
  match existing with
  | Some x =>
      let index := default (length attrs) (indexOf x attrs) in
      take index attrs ++ attr :: drop (S index) attrs
  | None => attrs ++ [attr]
  end.

(** No two attributes of the list have names that are equal ignoring case. *)
Definition ci_distinct (s : St) (attrs : list nat) : Prop :=
  NoDup (map (fun b => toLowerCase (attr_name s b)) attrs).

(** The record [setAttribute(name, value)] builds for the new attribute of
    [e] ([ownerElement] is written by the constructor and again by
    [setAttributeNode]). *)
Definition new_attr_rec (e : nat) (doc : option nat) (name value : string) : NodeRec :=
  with_ownerElement (Some e)
    (with_ownerDocument doc
       (with_ownerElement (Some e) (blank_node ATTRIBUTE_NODE name (Some value)))).

(** The state [setAttribute(name, v)] leaves on [e] (whose record is [en]). *)
Definition set_attr_state (e : nat) (name v : string) (s : St) (en : NodeRec) : St :=
  mkSt (<[e := with_attributes
                 (set_named_list (attributes en) (ci_match s (attributes en) name)
                    (S (next_id s))) en]>
          (<[S (next_id s) := new_attr_rec e (ownerDocument en) name v]> (heap s)))
       (S (next_id s)) (wsets s) (next_ws s).

(* ------------------------------------------------------------------ *)
(** ** [CharacterData] and [Text.splitText]

    Offsets and counts are integral JavaScript numbers, taken as [Z]; a
    string's code units are its characters. *)

(** [String.prototype.slice(start, end?)]: a negative bound counts from the
    end; both bounds are clamped to [0, length]. *)
Definition js_slice (s : string) (start : Z) (end_ : option Z) : string :=
  let len := Z.of_nat (String.length s) in
  let clamp (k : Z) := if (k <? 0)%Z then Z.max (len + k) 0 else Z.min k len in
  let from := clamp start in
  let to := match end_ with Some e => clamp e | None => len end in
  String.substring (Z.to_nat from) (Z.to_nat (to - from)) s.

(** [String.prototype.substring(start, end)]: both bounds are clamped to
    [0, length] and then put in order. *)
Definition js_substring (s : string) (start end_ : Z) : string :=
  let len := Z.of_nat (String.length s) in
  let clamp (k : Z) := Z.min (Z.max k 0) len in
  let a := clamp start in
  let b := clamp end_ in
  String.substring (Z.to_nat (Z.min a b)) (Z.to_nat (Z.max a b - Z.min a b)) s.

(** [get data() { return this.nodeValue ?? ""; }] *)
Definition characterData_data (r : nat) : M string :=
  n ← get r; mret (default "" (nodeValue n)).

(** [set data(value) { this.nodeValue = value; }] *)
Definition set_data (r : nat) (value : string) : M unit :=
  modify r (with_nodeValue (Some value)).

Definition characterData_length (r : nat) : M nat :=
  d ← characterData_data r; mret (String.length d).

Definition substringData (r : nat) (offset count : Z) : M string :=
  d ← characterData_data r; mret (js_substring d offset (offset + count)).


Definition insertData (r : nat) (offset : Z) (data : string) : M unit :=
  current ← characterData_data r;
  set_data r (js_slice current 0 (Some offset) +:+ data +:+ js_slice current offset None).

Definition deleteData (r : nat) (offset count : Z) : M unit :=
  current ← characterData_data r;
  set_data r (js_slice current 0 (Some offset) +:+ js_slice current (offset + count) None).

Definition replaceData (r : nat) (offset count : Z) (data : string) : M unit :=
  current ← characterData_data r;
  set_data r (js_slice current 0 (Some offset) +:+ data
              +:+ js_slice current (offset + count) None).

(** [Text.splitText(offset)]: the new node is inserted before
    [this.nextSibling] when [this] has a parent. *)
Definition splitText (fuel : nat) (r : nat) (offset : Z) : M nat :=
  current ← characterData_data r;
  let head := js_slice current 0 (Some offset) in
  let tail := js_slice current offset None in
  set_data r head;;
  newText ← new_Text tail;
  n ← get r;
  match parentNode n with
  | Some p => insertBefore fuel p newText (nextSibling n);; mret newText
  | None => mret newText
  end.

(** A computation that, when it succeeds, leaves the field [g] of every
    node as it was. *)
Definition keeps_field {A B} (g : NodeRec -> A) (m : M B) : Prop :=
  forall s s' x, m s = (s', Ok x) -> forall k, g <$> heap s' !! k = g <$> heap s !! k.

(** A paragraph [p] holding one text node [t] with data ["hello world"]. *)
Definition text_scenario : M (nat * nat) :=
  p ← new_Element "p" [];
  t ← new_Text "hello world";
  appendChild build_fuel p t;;
  mret (p, t).

Definition text_state : St := exec text_scenario St_empty.

(* ================================================================== *)
(** * Properties *)






(** C3: inserting a two-child [DocumentFragment] into [p] moves only the
    first child: the [for..of] over the live [childNodes] advances its index
    while [removeChild] shifts the list, so [p] ends with [[x]] and the
    fragment still holds [[y]]. *)
Lemma C3_fragment_insert_skips_children :
  childNodes (node_or_blank fragment_state 2) = [3; 4] /\
  result (insertBefore build_fuel 1 2 None) fragment_state = Ok 2 /\
  childNodes (node_or_blank (exec (insertBefore build_fuel 1 2 None) fragment_state) 1) = [3] /\
  childNodes (node_or_blank (exec (insertBefore build_fuel 1 2 None) fragment_state) 2) = [4] /\
  parentNode (node_or_blank (exec (insertBefore build_fuel 1 2 None) fragment_state) 4) = Some 2.
Proof. repeat split; vm_compute; reflexivity. Qed.

(** C4: on the document assembled from
    [<ul><li>A</li><li class="sel">B</li></ul>] (nodes 6 and 8 are the two
    [li]), [querySelectorAll("li")] is [[A, B]], but [querySelector(".sel")]
    is [null] -- [select] throws the first match in single mode and the
    [catch] turns it into [null] -- and [querySelectorAll("li:nth-child(2)")]
    is empty, since [walkSync] passes the walk's root as every node's parent;
    [matches(B, "li:nth-child(2)")], which uses the real parent, holds. *)
Theorem C4_ul_document_queries (parse : string -> Res (option AST))
    (Hli : parse "li" = Ok (Some (AType "li" "li")))
    (Hsel : parse ".sel" = Ok (Some (AClass "sel")))
    (Hnth : parse "li:nth-child(2)" =
            Ok (Some (ACompound [AType "li" "li"; APseudoClass "nth-child" (Some "2") None]))) :
  result (buildDocumentTree build_fuel wire_ul) St_empty = Ok 1 /\
  result (querySelectorAll parse build_fuel 1 "li") ul_state = Ok [6; 8] /\
  result (querySelector parse build_fuel 1 ".sel") ul_state = Ok JNull /\
  result (querySelectorAll parse build_fuel 1 "li:nth-child(2)") ul_state = Ok [] /\
  result (matches parse build_fuel 8 "li:nth-child(2)") ul_state = Ok true.
Proof.
  unfold querySelectorAll, querySelector, matches, selectorToMatch, parse_m, result.
  cbv [mbind M_bind]. rewrite Hli, Hsel, Hnth.
  repeat split; vm_compute; reflexivity.
Qed.

Lemma C4_witness :
  result (querySelector parsel_sample build_fuel 1 ".sel") ul_state = Ok JNull.
Proof.
  exact (proj1 (proj2 (proj2 (C4_ul_document_queries parsel_sample
           eq_refl eq_refl eq_refl)))).
Defined.

(** Two walk callbacks that agree whenever the first one reports nothing
    give the same empty walk. *)
Lemma walkSync_empty_agree (fuel : nat) (cb1 cb2 : nat -> option nat -> option Z -> M (list nat)) :
  (forall c p i s s', cb1 c p i s = (s', Ok []) -> cb2 c p i s = (s', Ok [])) ->
  forall node parent s s',
    walkSync fuel cb1 node parent s = (s', Ok []) -> walkSync fuel cb2 node parent s = (s', Ok []).
Proof.
  intros Hcb. induction fuel as [|fuel IH]; intros node parent s s' H; [discriminate|].
  cbn [walkSync] in H |- *. cbv [mbind M_bind get mret M_ret] in H |- *.
  set (p := match parent with Some p => p | None => node end) in *.
  revert s H. generalize 0 as i. 
  match goal with |- forall i s, ?L1 fuel i s = _ -> ?L2 fuel i s = _ =>
    set (F1 := L1); set (F2 := L2) end.
  generalize fuel at 1 2. subst F1 F2. cbv beta.
  intros k. induction k as [|k IHk]; intros i s H; [discriminate|].
  destruct (heap s !! node) as [nn|]; [|discriminate].
  destruct (childNodes nn !! i) as [child|]; [|exact H].
  destruct (cb1 child (Some p) (Some (Z.of_nat i)) s) as [s1 [l1|e1]] eqn:E1; [|discriminate].
  destruct (walkSync fuel cb1 child (Some p) s1) as [s2 [l2|e2]] eqn:E2; [|discriminate].
  match type of H with context [?L k (S i) s2] =>
    destruct (L k (S i) s2) as [s3 [l3|e3]] eqn:E3 end; [|discriminate].
  injection H as <- Hl. apply app_eq_nil in Hl as [-> Hl]. apply app_eq_nil in Hl as [-> ->].
  rewrite (Hcb _ _ _ _ _ E1), (IH _ _ _ _ E2).
  specialize (IHk (S i) s2 E3). rewrite IHk. reflexivity.
Qed.

(** A walk of [select] that collects no node runs the same in single mode. *)
Lemma select_empty_single (fuel node : nat) (m : Matcher) (s s' : St) :
  select fuel node m false s = (s', Ok []) -> select fuel node m true s = (s', Ok []).
Proof.
  unfold select. apply walkSync_empty_agree. intros c p i s0 s1 H.
  cbv [mbind M_bind get mret M_ret throw] in H |- *.
  destruct (heap s0 !! c) as [nn|]; [|discriminate].
  destruct (is_element nn); cbn [negb] in H |- *; [|exact H].
  destruct (m c p i s0) as [s2 [[|]|e]]; [discriminate|exact H|discriminate].
Qed.

(** C8 (as the code has it): when parsing the selector fails -- the parser
    throws, or yields no AST -- [querySelector], [querySelectorAll] and
    [matches] all throw, the same error for the three, with the state
    unchanged: [selectorToMatch] runs before (outside) [querySelector]'s
    [try], and the error is the parser's own when it threw.  For a valid
    selector (one that parses and compiles to a matcher) whose walk finds
    no node, the lookups answer normally: [querySelectorAll] returns [[]]
    and [querySelector] returns [undefined], not an error. *)
Theorem C8_parse_failures_propagate (parse : string -> Res (option AST))
    (fuel node : nat) :
  (forall (sel : string) (s : St),
     (parse sel = Ok None \/ exists e, parse sel = Throw e) ->
     exists e,
       querySelector parse fuel node sel s = (s, Throw e) /\
       querySelectorAll parse fuel node sel s = (s, Throw e) /\
       matches parse fuel node sel s = (s, Throw e) /\
       (forall e', parse sel = Throw e' -> e = e')) /\
  (forall (sel : string) (s s1 s2 : St) (m : Matcher),
     selectorToMatch parse fuel sel s = (s1, Ok m) ->
     select fuel node m false s1 = (s2, Ok []) ->
     querySelectorAll parse fuel node sel s = (s2, Ok []) /\
     querySelector parse fuel node sel s = (s2, Ok JUndefined)).
Proof.
  split.
  - intros sel s Hbad.
    unfold querySelector, querySelectorAll, matches, selectorToMatch, parse_m.
    cbv [mbind M_bind].
    destruct Hbad as [Hnone | [e He]].
    + rewrite Hnone. destruct fuel as [|fuel]; cbn.
      * eexists; repeat split; congruence.
      * eexists; repeat split; congruence.
    + rewrite He. exists e; repeat split; congruence.
  - intros sel s s1 s2 m Hm Hsel.
    unfold querySelector, querySelectorAll. cbv [mbind M_bind try_catch mret M_ret].
    rewrite Hm, Hsel, (select_empty_single _ _ _ _ _ Hsel). split; reflexivity.
Qed.

(** The matcher that [selectorToMatch] gives, or one that matches nothing
    when it fails. *)
Definition C8_compiled (sel : string) (s : St) : Matcher :=
  match snd (selectorToMatch parsel_sample build_fuel sel s) with
  | Ok m => m
  | Throw _ => fun _ _ _ => mret false
  end.

(** An invalid selector (["li["]) on the document, and a valid one
    (["li"]) looked up under the first [li] (node 6), whose only
    descendant is a text node. *)
Lemma C8_witness :
  (exists e, querySelector parsel_sample build_fuel 1 "li[" ul_state = (ul_state, Throw e) /\
             querySelectorAll parsel_sample build_fuel 1 "li[" ul_state = (ul_state, Throw e) /\
             matches parsel_sample build_fuel 1 "li[" ul_state = (ul_state, Throw e) /\
             (forall e', parsel_sample "li[" = Throw e' -> e = e')) /\
  (querySelectorAll parsel_sample build_fuel 6 "li" ul_state =
     (exec (select build_fuel 6 (C8_compiled "li" ul_state) false)
        (exec (selectorToMatch parsel_sample build_fuel "li") ul_state), Ok []) /\
   querySelector parsel_sample build_fuel 6 "li" ul_state =
     (exec (select build_fuel 6 (C8_compiled "li" ul_state) false)
        (exec (selectorToMatch parsel_sample build_fuel "li") ul_state), Ok JUndefined)).
Proof.
  split.
  - apply (proj1 (C8_parse_failures_propagate parsel_sample build_fuel 1)).
    right; eexists; reflexivity.
  - apply (proj2 (C8_parse_failures_propagate parsel_sample build_fuel 6) "li" ul_state
             (exec (selectorToMatch parsel_sample build_fuel "li") ul_state)
             _ (C8_compiled "li" ul_state)); vm_compute; reflexivity.
Defined.

(** C8 as stated fails: for a selector the parser refuses, the lookups do
    not answer [null] or [[]] -- they throw the parser's error. *)
Lemma C8_counterexample :
  result (querySelector parsel_sample build_fuel 1 "li[") ul_state
    = Throw (ParseError "Unexpected token") /\
  result (querySelectorAll parsel_sample build_fuel 1 "li[") ul_state
    = Throw (ParseError "Unexpected token").
Proof. split; vm_compute; reflexivity. Qed.

(** C7: on [<p lang="en">] (node 2, whose [lang] attribute is ["en"]),
    neither [[lang=en]] nor [[lang|=en]] matches: [Object.entries] over the
    [NamedNodeMap] proxy lists no attribute, so the attribute matcher's loop
    never runs.  The [|=] comparison itself also lacks the exact-match
    case. *)
Lemma C7_attribute_selectors_do_not_match :
  result (getAttribute 2 "lang") lang_state = Ok (Some "en") /\
  result (attribute_entries 2) lang_state = Ok [] /\
  result (matches parsel_sample build_fuel 2 "[lang=en]") lang_state = Ok false /\
  result (matches parsel_sample build_fuel 2 "[lang|=en]") lang_state = Ok false /\
  result (querySelectorAll parsel_sample build_fuel 1 "[lang=en]") lang_state = Ok [] /\
  getAttributeMatch (Some "|=") "en" "en" = false.
Proof. repeat split; vm_compute; reflexivity. Qed.

(** C6: reads of a [DOMTokenList] do not de-duplicate ([class="a a"] reads
    as [["a"; "a"]]), and [length] does not re-materialize: after
    [setAttribute("class", "a b")] a list read when the value was ["a"]
    reports [length] 1 while [item(1)] is ["b"]. *)
Lemma C6_token_list_reads :
  snd (dtl_iterate (run_classlist "a a" "a a")) = Ok ["a"; "a"] /\
  snd (dtl_item 1 (run_classlist "a a" "a a")) = Ok (Some "a") /\
  snd (dtl_length (run_classlist "a" "a b")) = Ok 1 /\
  snd (dtl_item 1 (run_classlist "a" "a b")) = Ok (Some "b").
Proof. repeat split; vm_compute; reflexivity. Qed.

(** ** Cache monotonicity of the mutation core and of the accessors *)

Lemma caches_le_refl (n : NodeRec) : caches_le n n.
Proof. intros a x H. exact H. Qed.

Lemma cache_le_refl (s : St) : cache_le s s.
Proof. intros r n H. exists n. split; [exact H | apply caches_le_refl]. Qed.

Lemma cache_le_trans (s1 s2 s3 : St) :
  cache_le s1 s2 -> cache_le s2 s3 -> cache_le s1 s3.
Proof.
  intros H12 H23 r n1 H1.
  destruct (H12 r n1 H1) as (n2 & H2 & Hc12).
  destruct (H23 r n2 H2) as (n3 & H3 & Hc23).
  exists n3. split; [exact H3|]. intros a x Hx. apply Hc23, Hc12, Hx.
Qed.

Lemma pres_ret {A} (x : A) : preserves (mret x).
Proof. intros s. apply cache_le_refl. Qed.

Lemma pres_throw {A} (e : exn) : preserves (A := A) (throw e).
Proof. intros s. apply cache_le_refl. Qed.

Lemma pres_get (r : nat) : preserves (get r).
Proof.
  intros s. unfold get. destruct (heap s !! r); apply cache_le_refl.
Qed.

Lemma pres_bind {A B} (f : A -> M B) (m : M A) :
  preserves m -> (forall a, preserves (f a)) -> preserves (mbind f m).
Proof.
  intros Hm Hf s. unfold mbind, M_bind. specialize (Hm s).
  destruct (m s) as [s' [a|e]]; simpl in *; [|exact Hm].
  eapply cache_le_trans; [exact Hm | apply Hf].
Qed.

(** Overwriting a cell with a record whose caches extend the old ones. *)
Lemma cache_le_insert (s : St) (r : nat) (n n' : NodeRec) (w : gmap nat (list nat))
    (k : nat) :
  heap s !! r = Some n -> caches_le n n' ->
  cache_le s (mkSt (<[r := n']> (heap s)) (next_id s) w k).
Proof.
  intros Hn Hc q m Hq. simpl.
  destruct (decide (q = r)) as [->|Hne].
  - rewrite Hn in Hq. injection Hq as <-. exists n'.
    rewrite lookup_insert_eq. split; [reflexivity | exact Hc].
  - exists m. rewrite lookup_insert_ne by congruence.
    split; [exact Hq | apply caches_le_refl].
Qed.

Lemma pres_modify (r : nat) (f : NodeRec -> NodeRec) :
  (forall n, caches_le n (f n)) -> preserves (modify r f).
Proof.
  intros Hf s. unfold modify, mbind, M_bind, get, put.
  destruct (heap s !! r) as [n|] eqn:E; simpl; [|apply cache_le_refl].
  apply cache_le_insert with (n := n); [exact E | apply Hf].
Qed.

Lemma pres_set_readonly_checked (prop : string) (f : NodeRec -> NodeRec) (r : nat) :
  (forall n, caches_le n (f n)) -> preserves (set_readonly_checked prop f r).
Proof.
  intros Hf s. unfold set_readonly_checked, mbind, M_bind, get, put, throw.
  destruct (heap s !! r) as [n|] eqn:E; simpl; [|apply cache_le_refl].
  destruct (decide _); simpl; [apply cache_le_refl|].
  apply cache_le_insert with (n := n); [exact E | apply Hf].
Qed.

Ltac caches_trivial := intros ? ? ? ?; match goal with a : cached_accessor |- _ => destruct a end; assumption.

Lemma pres_set_parentNode r v : preserves (set_parentNode r v).
Proof. apply pres_set_readonly_checked. caches_trivial. Qed.
Lemma pres_set_previousSibling r v : preserves (set_previousSibling r v).
Proof. apply pres_set_readonly_checked. caches_trivial. Qed.
Lemma pres_set_nextSibling r v : preserves (set_nextSibling r v).
Proof. apply pres_set_readonly_checked. caches_trivial. Qed.
Lemma pres_set_ownerDocument r v : preserves (set_ownerDocument r v).
Proof. apply pres_set_readonly_checked. caches_trivial. Qed.
Lemma pres_set_firstChild r v : preserves (set_firstChild r v).
Proof. apply pres_modify. caches_trivial. Qed.
Lemma pres_set_lastChild r v : preserves (set_lastChild r v).
Proof. apply pres_modify. caches_trivial. Qed.
Lemma pres_set_childNodes r v : preserves (set_childNodes r v).
Proof. apply pres_modify. caches_trivial. Qed.

Create HintDb pres.
#[export] Hint Resolve pres_ret pres_throw pres_get pres_set_parentNode
  pres_set_previousSibling pres_set_nextSibling pres_set_ownerDocument
  pres_set_firstChild pres_set_lastChild pres_set_childNodes : pres.

Ltac pres :=
  repeat match goal with
  | |- preserves (mbind _ _) => apply pres_bind; [|intros ?]
  | |- preserves (if ?b then _ else _) => destruct b
  | |- preserves (match ?x with _ => _ end) => destruct x
  | |- preserves _ => solve [eauto with pres]
  | |- preserves _ => progress cbv beta zeta
  end.

Lemma pres_removeChild (this oldChild : nat) : preserves (removeChild this oldChild).
Proof. unfold removeChild. pres. Qed.

#[export] Hint Resolve pres_removeChild : pres.

Lemma pres_insertBefore (fuel this newChild : nat) (refChild : option nat) :
  preserves (insertBefore fuel this newChild refChild).
Proof.
  revert this newChild refChild.
  induction fuel as [|fuel IH]; intros this newChild refChild; cbn [insertBefore].
  - apply pres_throw.
  - pres.
    match goal with
    | |- preserves (?L fuel 0) =>
        assert (HL : forall k i, preserves (L k i)); [|apply HL]
    end.
    induction k as [|k IHk]; intros i; simpl; pres.
Qed.

Lemma pres_appendChild (fuel this newChild : nat) :
  preserves (appendChild fuel this newChild).
Proof. unfold appendChild. pres. apply pres_insertBefore. Qed.

Lemma pres_replaceChild (fuel this newChild oldChild : nat) :
  preserves (replaceChild fuel this newChild oldChild).
Proof. unfold replaceChild. pres; apply pres_insertBefore. Qed.

Lemma find_sibling_pure (fuel : nat) (ok : NodeRec -> bool) (c : option nat) (s : St) :
  fst (find_sibling fuel ok c s) = s.
Proof.
  revert c. induction fuel as [|fuel IH]; intros [c|]; simpl; try reflexivity.
  unfold mbind, M_bind, get. destruct (heap s !! c) as [n|]; simpl; [|reflexivity].
  destruct (ok n); [reflexivity | apply IH].
Qed.

(** Storing into the cache that [get] just read as empty. *)
Lemma cache_le_fill (s : St) (this : nat) (t : NodeRec) (a : cached_accessor)
    (f : NodeRec -> NodeRec) :
  heap s !! this = Some t -> cache_of a t = None ->
  (forall b, b <> a -> cache_of b (f t) = cache_of b t) ->
  cache_le s (fst (modify this f s)).
Proof.
  intros E Hnone Hother. unfold modify, mbind, M_bind, get, put. rewrite E. simpl.
  apply cache_le_insert with (n := t); [exact E|].
  intros b x Hx. destruct (decide (b = a)) as [->|Hne]; [congruence|].
  rewrite Hother by exact Hne. exact Hx.
Qed.

Lemma documentElement_footprint (fuel this : nat) (s : St) :
  cache_le s (fst (documentElement fuel this s)) /\
  hb_same s (fst (documentElement fuel this s)).
Proof.
  assert (Hid : forall s', cache_le s' s' /\ hb_same s' s')
    by (intros s'; split; [apply cache_le_refl | intros r n H; exists n; auto]).
  unfold documentElement. cbv [mbind M_bind mret M_ret get].
  destruct (heap s !! this) as [t|] eqn:E; [|apply Hid].
  destruct (cachedDocumentElement t) as [e|] eqn:Ec; [apply Hid|].
  pose proof (find_sibling_pure fuel is_element (firstChild t) s) as Hp.
  destruct (find_sibling fuel is_element (firstChild t) s) as [s1 [r|err]];
    simpl in Hp; subst s1; [|apply Hid].
  assert (Hle : cache_le s (fst (modify this (with_cachedDocumentElement r) s))).
  { apply cache_le_fill with (t := t) (a := AccDocumentElement);
      [exact E | exact Ec | intros b Hb; destruct b; [congruence | reflexivity | reflexivity]]. }
  assert (Hhb : hb_same s (fst (modify this (with_cachedDocumentElement r) s))).
  { unfold modify, mbind, M_bind, get, put. rewrite E. simpl.
    intros q n2 Hq. cbn [heap] in Hq. destruct (decide (q = this)) as [->|Hne].
    - rewrite lookup_insert_eq in Hq. injection Hq as <-.
      exists t. auto.
    - rewrite lookup_insert_ne in Hq by congruence. exists n2. auto. }
  destruct (modify this (with_cachedDocumentElement r) s) as [s2 [u|err]];
    simpl in *; split; assumption.
Qed.

Lemma docEl_child_footprint (fuel this : nat) (tag : string) (s : St) :
  cache_le s (fst (docEl_child fuel this tag s)) /\
  hb_same s (fst (docEl_child fuel this tag s)).
Proof.
  unfold docEl_child. cbv [mbind M_bind mret M_ret get].
  pose proof (documentElement_footprint fuel this s) as [H1 H2].
  destruct (documentElement fuel this s) as [s1 [[e|]|err]]; simpl in *; auto.
  destruct (heap s1 !! e) as [en|]; simpl; [|auto].
  rewrite find_sibling_pure. auto.
Qed.

Lemma modify_some (r : nat) (f : NodeRec -> NodeRec) (s : St) (t : NodeRec) :
  heap s !! r = Some t ->
  modify r f s = (mkSt (<[r := f t]> (heap s)) (next_id s) (wsets s) (next_ws s), Ok tt).
Proof. intros E. unfold modify, mbind, M_bind, get, put. rewrite E. reflexivity. Qed.

Lemma pres_head (fuel this : nat) : preserves (head fuel this).
Proof.
  intros s. unfold head. cbv [mbind M_bind mret M_ret get].
  destruct (heap s !! this) as [t|] eqn:E; [|apply cache_le_refl].
  destruct (cachedHead t) as [h|] eqn:Ec; [apply cache_le_refl|].
  pose proof (docEl_child_footprint fuel this "head" s) as [H1 H2].
  destruct (docEl_child fuel this "head" s) as [s1 [r|err]];
    simpl in H1, H2 |- *; [|exact H1].
  destruct (H1 this t E) as (t1 & E1 & _).
  destruct (H2 this t1 E1) as (t0 & E0 & Hh & _). rewrite E in E0. injection E0 as <-.
  rewrite (modify_some this _ s1 t1 E1). simpl.
  eapply cache_le_trans; [exact H1|].
  apply cache_le_insert with (n := t1); [exact E1|].
  intros b x Hx. destruct b; simpl in *; congruence.
Qed.

Lemma pres_body (fuel this : nat) : preserves (body fuel this).
Proof.
  intros s. unfold body. cbv [mbind M_bind mret M_ret get].
  destruct (heap s !! this) as [t|] eqn:E; [|apply cache_le_refl].
  destruct (cachedBody t) as [b0|] eqn:Ec; [apply cache_le_refl|].
  pose proof (docEl_child_footprint fuel this "body" s) as [H1 H2].
  destruct (docEl_child fuel this "body" s) as [s1 [r|err]];
    simpl in H1, H2 |- *; [|exact H1].
  destruct (H1 this t E) as (t1 & E1 & _).
  destruct (H2 this t1 E1) as (t0 & E0 & _ & Hb). rewrite E in E0. injection E0 as <-.
  rewrite (modify_some this _ s1 t1 E1). simpl.
  eapply cache_le_trans; [exact H1|].
  apply cache_le_insert with (n := t1); [exact E1|].
  intros b x Hx. destruct b; simpl in *; congruence.
Qed.

Lemma pres_read_accessor (a : cached_accessor) (fuel this : nat) :
  preserves (read_accessor a fuel this).
Proof.
  destruct a; simpl; [|apply pres_head|apply pres_body].
  intros s. apply documentElement_footprint.
Qed.

Lemma run_calls_cache_le (calls : list dom_call) (s : St) :
  cache_le s (run_calls calls s).
Proof.
  unfold run_calls. revert s. induction calls as [|c calls IH]; intros s; simpl.
  - apply cache_le_refl.
  - eapply cache_le_trans; [|apply IH].
    destruct c; simpl; unfold exec;
      [apply pres_insertBefore | apply pres_appendChild | apply pres_replaceChild
      | apply pres_removeChild | apply pres_read_accessor].
Qed.

(** A read that returns a node leaves that node in the accessor's cache. *)
Lemma read_accessor_fills (a : cached_accessor) (fuel this x : nat) (s s1 : St) :
  read_accessor a fuel this s = (s1, Ok (Some x)) ->
  exists t, heap s1 !! this = Some t /\ cache_of a t = Some x.
Proof.
  destruct a; simpl; cbv [documentElement head body mbind M_bind mret M_ret get];
    destruct (heap s !! this) as [t|] eqn:E; try discriminate.
  - destruct (cachedDocumentElement t) as [e|] eqn:Ec.
    + intros [= <- ->]. exists t. auto.
    + pose proof (find_sibling_pure fuel is_element (firstChild t) s) as Hp.
      destruct (find_sibling fuel is_element (firstChild t) s) as [s' [r|err]];
        simpl in Hp; subst s'; [|discriminate].
      rewrite (modify_some this _ s t E). intros [= <- ->].
      eexists; split; [apply lookup_insert_eq | reflexivity].
  - destruct (cachedHead t) as [h|] eqn:Ec.
    + intros [= <- ->]. exists t. auto.
    + pose proof (docEl_child_footprint fuel this "head" s) as [H1 _].
      destruct (docEl_child fuel this "head" s) as [s' [r|err]]; [|discriminate].
      simpl in H1. destruct (H1 this t E) as (t1 & E1 & _).
      rewrite (modify_some this _ s' t1 E1). intros [= <- ->].
      eexists; split; [apply lookup_insert_eq | reflexivity].
  - destruct (cachedBody t) as [h|] eqn:Ec.
    + intros [= <- ->]. exists t. auto.
    + pose proof (docEl_child_footprint fuel this "body" s) as [H1 _].
      destruct (docEl_child fuel this "body" s) as [s' [r|err]]; [|discriminate].
      simpl in H1. destruct (H1 this t E) as (t1 & E1 & _).
      rewrite (modify_some this _ s' t1 E1). intros [= <- ->].
      eexists; split; [apply lookup_insert_eq | reflexivity].
Qed.

(** With the cache filled, the accessor returns it and changes nothing. *)
Lemma read_accessor_cached (a : cached_accessor) (fuel this x : nat) (s : St) (t : NodeRec) :
  heap s !! this = Some t -> cache_of a t = Some x ->
  read_accessor a fuel this s = (s, Ok (Some x)).
Proof.
  intros E Hc. destruct a; simpl in Hc;
    cbv [read_accessor documentElement head body mbind M_bind mret M_ret get];
    rewrite E, Hc; reflexivity.
Qed.

(** C10: once [documentElement], [head] or [body] has returned a node [x],
    every later read of the same accessor on the same document returns [x]
    and changes nothing, whatever sequence of calls to the mutation core
    (insertBefore, appendChild, replaceChild, removeChild, whether they
    succeed or throw) and accessor reads happened in between: the cache is
    filled by the first read and no mutation clears it. *)
Theorem C10_cached_accessor_stable (a : cached_accessor) (fuel fuel' this x : nat)
    (calls : list dom_call) (s s1 : St)
    (Hread : read_accessor a fuel this s = (s1, Ok (Some x))) :
  read_accessor a fuel' this (run_calls calls s1) = (run_calls calls s1, Ok (Some x)).
Proof.
  destruct (read_accessor_fills a fuel this x s s1 Hread) as (t & E & Hc).
  destruct (run_calls_cache_le calls s1 this t E) as (t2 & E2 & Hc2).
  apply read_accessor_cached with (t := t2); [exact E2 | apply Hc2, Hc].
Qed.

Lemma C10_witness :
  read_accessor AccBody build_fuel 1 ul_state
    = (exec (body build_fuel 1) ul_state, Ok (Some 4)) /\
  parentNode (node_or_blank
    (run_calls [CallRemoveChild 2 4] (exec (body build_fuel 1) ul_state)) 4) = None /\
  read_accessor AccBody build_fuel 1
    (run_calls [CallRemoveChild 2 4] (exec (body build_fuel 1) ul_state))
    = (run_calls [CallRemoveChild 2 4] (exec (body build_fuel 1) ul_state), Ok (Some 4)).
Proof.
  split; [vm_compute; reflexivity|].
  split; [vm_compute; reflexivity|].
  apply (C10_cached_accessor_stable AccBody build_fuel build_fuel 1 4
           [CallRemoveChild 2 4] ul_state (exec (body build_fuel 1) ul_state)).
  vm_compute. reflexivity.
Defined.

(** ** The recompute function of [children] only reads the heap *)

Lemma get_pure (r : nat) (s : St) : fst (get r s) = s.
Proof. unfold get. destruct (heap s !! r); reflexivity. Qed.

Lemma collect_elements_pure (fuel walk : nat) (n : option nat) (s : St) :
  fst (collect_elements fuel walk n s) = s.
Proof.
  revert n. induction walk as [|walk IH]; intros [c|]; simpl; try reflexivity.
  cbv [mbind M_bind mret M_ret get].
  destruct (heap s !! c) as [cn|]; [|reflexivity].
  pose proof (find_sibling_pure fuel is_element (nextSibling cn) s) as Hp.
  destruct (find_sibling fuel is_element (nextSibling cn) s) as [s1 [nxt|err]];
    simpl in Hp; subst s1; [|reflexivity].
  specialize (IH nxt).
  destruct (collect_elements fuel walk nxt s) as [s2 [rest|err]];
    simpl in IH |- *; exact IH.
Qed.

Lemma children_items_pure (fuel this : nat) (s : St) :
  fst (children_items fuel this s) = s.
Proof.
  unfold children_items. cbv [mbind M_bind mret M_ret get].
  destruct (heap s !! this) as [t|]; [|reflexivity].
  pose proof (find_sibling_pure fuel is_element (firstChild t) s) as Hp.
  destruct (find_sibling fuel is_element (firstChild t) s) as [s1 [first|err]];
    simpl in Hp; subst s1; [|reflexivity].
  apply collect_elements_pure.
Qed.

(** C5: a collection returned by [children] keeps its recompute function,
    so every later read of that same object (length, indexed access,
    iteration), in whatever state the heap has reached by then (for
    instance after an appendChild on the owner), returns the owner's
    element children as they are in that state, and leaves the state
    unchanged; the object obtained earlier is never stale. *)
Theorem C5_children_reads_are_live (fuel e : nat) (s0 s1 : St) (c : HTMLCollection)
    (Hc : children fuel e s0 = (s1, Ok c))
    (s : St) (l : list nat) (i : nat)
    (Hl : result (children_items fuel e) s = Ok l) :
  let c' := mkHTMLCollection (Some (children_items fuel e)) l in
  hc_length c s = (s, Ok (c', length l)) /\
  hc_item c i s = (s, Ok (c', l !! i)) /\
  hc_iterate c s = (s, Ok (c', l)).
Proof.
  assert (Hg : hc_getItems c = Some (children_items fuel e)).
  { revert Hc. unfold children, createHTMLCollection. cbv [mbind M_bind mret M_ret].
    destruct (children_items fuel e s0) as [s' [items|err]]; [|discriminate].
    intros [= _ <-]. reflexivity. }
  assert (Hs : children_items fuel e s = (s, Ok l)).
  { pose proof (children_items_pure fuel e s) as Hp. unfold result in Hl.
    destruct (children_items fuel e s) as [s' r]. simpl in Hp, Hl. subst. reflexivity. }
  unfold hc_length, hc_item, hc_iterate, refreshList. rewrite Hg.
  cbv [mbind M_bind mret M_ret]. rewrite Hs. repeat split.
Qed.

Lemma C5_witness :
  children build_fuel 2 children_before
    = (children_before, Ok (mkHTMLCollection (Some (children_items build_fuel 2)) [])) /\
  hc_length (mkHTMLCollection (Some (children_items build_fuel 2)) []) children_before
    = (children_before,
       Ok (mkHTMLCollection (Some (children_items build_fuel 2)) [], 0)) /\
  hc_length (mkHTMLCollection (Some (children_items build_fuel 2)) []) children_after
    = (children_after,
       Ok (mkHTMLCollection (Some (children_items build_fuel 2)) [3], 1)) /\
  hc_item (mkHTMLCollection (Some (children_items build_fuel 2)) []) 0 children_after
    = (children_after,
       Ok (mkHTMLCollection (Some (children_items build_fuel 2)) [3], Some 3)).
Proof.
  assert (Hc : children build_fuel 2 children_before
    = (children_before, Ok (mkHTMLCollection (Some (children_items build_fuel 2)) [])))
    by reflexivity.
  split; [exact Hc|]. split.
  - exact (proj1 (C5_children_reads_are_live build_fuel 2 children_before children_before
      _ Hc children_before [] 0 eq_refl)).
  - exact (conj
      (proj1 (C5_children_reads_are_live build_fuel 2 children_before children_before
        _ Hc children_after [3] 0 eq_refl))
      (proj1 (proj2 (C5_children_reads_are_live build_fuel 2 children_before children_before
        _ Hc children_after [3] 0 eq_refl)))).
Defined.

(** ** Allocation only touches fresh cells *)

Lemma frame_refl (s : St) : ids_below s -> frame s s.
Proof. intros H. split; [lia|]. split; [reflexivity | exact H]. Qed.

Lemma frame_trans (s1 s2 s3 : St) : frame s1 s2 -> frame s2 s3 -> frame s1 s3.
Proof.
  intros (H1 & H2 & _) (H3 & H4 & H5). split; [lia|]. split; [|exact H5].
  intros i Hi. rewrite H4 by lia. apply H2, Hi.
Qed.

Lemma frame_ids (s s' : St) : frame s s' -> ids_below s'.
Proof. intros (_ & _ & H). exact H. Qed.

Lemma alloc_spec (x : NodeRec) (s : St) :
  ids_below s ->
  alloc x s = (mkSt (<[S (next_id s) := x]> (heap s)) (S (next_id s)) (wsets s) (next_ws s),
               Ok (S (next_id s))) /\
  frame s (mkSt (<[S (next_id s) := x]> (heap s)) (S (next_id s)) (wsets s) (next_ws s)).
Proof.
  intros Hb. split; [reflexivity|]. split; [simpl; lia|]. split.
  - intros i Hi. simpl. rewrite lookup_insert_ne by lia. reflexivity.
  - intros i Hi. simpl in *. destruct (decide (i = S (next_id s))) as [->|Hne]; [lia|].
    rewrite lookup_insert_ne in Hi by congruence. specialize (Hb i Hi). lia.
Qed.

(** Overwriting a cell that was allocated after [s0]. *)
Lemma frame_insert_fresh (s0 s : St) (a : nat) (x : NodeRec) :
  frame s0 s -> next_id s0 < a -> is_Some (heap s !! a) ->
  frame s0 (mkSt (<[a := x]> (heap s)) (next_id s) (wsets s) (next_ws s)).
Proof.
  intros (H1 & H2 & H3) Ha Hs. split; [simpl; lia|]. split.
  - intros i Hi. simpl. rewrite lookup_insert_ne by lia. apply H2, Hi.
  - intros i Hi. simpl in *. destruct (decide (i = a)) as [->|Hne].
    + apply H3, Hs.
    + rewrite lookup_insert_ne in Hi by congruence. apply H3, Hi.
Qed.

Lemma blank_unlinked (ty : node_type) (name : string) (value : option string) :
  unlinked (blank_node ty name value).
Proof. repeat split. Qed.

Lemma attr_pair_frame (s s' : St) (a : nat) :
  frame s s' -> a <= next_id s -> attr_pair s' a = attr_pair s a.
Proof. intros (_ & H & _) Ha. unfold attr_pair. rewrite H by exact Ha. reflexivity. Qed.

Lemma attr_pairs_frame (s s' : St) (l : list nat) :
  frame s s' -> Forall (fun a => a <= next_id s) l ->
  map (attr_pair s') l = map (attr_pair s) l.
Proof.
  intros Hf Hl. induction Hl as [|a l Ha Hl IH]; simpl; [reflexivity|].
  rewrite (attr_pair_frame s s' a Hf Ha), IH. reflexivity.
Qed.

Lemma modify_fresh (s0 s : St) (a : nat) (f : NodeRec -> NodeRec) (m : NodeRec) :
  frame s0 s -> next_id s0 < a -> heap s !! a = Some m ->
  exists s', modify a f s = (s', Ok tt) /\ frame s0 s' /\ next_id s' = next_id s /\
    heap s' !! a = Some (f m) /\ (forall i, i <> a -> heap s' !! i = heap s !! i).
Proof.
  intros Hf Ha E. rewrite (modify_some a f s m E). eexists. split; [reflexivity|].
  split; [apply frame_insert_fresh; [exact Hf | exact Ha | rewrite E; eauto]|].
  split; [reflexivity|]. simpl. split; [apply lookup_insert_eq|].
  intros i Hi. apply lookup_insert_ne. congruence.
Qed.

Lemma attr_cloneNode_spec (a : nat) (an : NodeRec) (s : St) :
  ids_below s -> heap s !! a = Some an ->
  exists s', attr_cloneNode a s = (s', Ok (S (next_id s))) /\ frame s s' /\
    next_id s' = S (next_id s) /\ heap s' !! S (next_id s) = Some (attr_clone_rec an).
Proof.
  intros Hb E. unfold attr_cloneNode, new_Attr. cbv [mbind M_bind mret M_ret get].
  rewrite E.
  destruct (alloc_spec (blank_node ATTRIBUTE_NODE (nodeName an) (Some (default "" (nodeValue an)))) s Hb)
    as [Ha Hf].
  rewrite Ha. cbv beta iota.
  edestruct (modify_fresh s _ (S (next_id s)) (with_ownerElement (ownerElement an))
             (blank_node ATTRIBUTE_NODE (nodeName an) (Some (default "" (nodeValue an)))) Hf)
    as (s' & Hm & Hf' & Hn & Hc & _); [lia | apply lookup_insert_eq |].
  rewrite Hm. exists s'. split; [reflexivity|]. split; [exact Hf'|].
  split; [rewrite Hn; reflexivity | exact Hc].
Qed.

Lemma clone_attrs_spec (attrs : list nat) (s : St) :
  ids_below s -> Forall (fun a => is_Some (heap s !! a)) attrs ->
  exists cs s', clone_attrs attrs s = (s', Ok cs) /\ frame s s' /\
    Forall (fun c => next_id s < c /\ c <= next_id s' /\ is_Some (heap s' !! c)) cs /\
    map (attr_pair s') cs = map (attr_pair s) attrs.
Proof.
  revert s. induction attrs as [|a attrs IH]; intros s Hb Hp.
  - exists [], s. split; [reflexivity|]. split; [apply frame_refl, Hb|]. auto.
  - inversion Hp as [|? ? [an E] Hp']; subst.
    destruct (attr_cloneNode_spec a an s Hb E) as (s1 & Hc & Hf1 & Hn1 & Ec).
    assert (Hp1 : Forall (fun a => is_Some (heap s1 !! a)) attrs).
    { eapply Forall_impl; [exact Hp'|]. intros x [m Hx]. destruct Hf1 as (_ & Hh & Hb1).
      rewrite Hh; [eauto|]. apply Hb; eauto. }
    destruct (IH s1 (frame_ids _ _ Hf1) Hp1) as (cs & s2 & Hcs & Hf2 & Hall & Hmap).
    exists (S (next_id s) :: cs), s2. simpl. cbv [mbind M_bind mret M_ret].
    rewrite Hc, Hcs. split; [reflexivity|].
    split; [eapply frame_trans; eassumption|].
    destruct Hf2 as (Hle2 & Hh2 & Hb2).
    split.
    + constructor.
      * split; [lia|]. split; [lia|]. rewrite Hh2 by lia. rewrite Ec. eauto.
      * eapply Forall_impl; [exact Hall|]. intros c (Hc1 & Hc2 & Hc3). split; [lia|]. auto.
    + f_equal.
      * unfold attr_pair. rewrite Hh2 by lia. rewrite Ec, E. reflexivity.
      * rewrite Hmap. apply attr_pairs_frame; [exact Hf1|].
        eapply Forall_impl; [exact Hp'|]. intros x Hx. apply Hb, Hx.
Qed.

Lemma set_ownerElements_spec (s0 s : St) (e : nat) (cs : list nat) :
  frame s0 s -> Forall (fun c => next_id s0 < c /\ is_Some (heap s !! c)) cs ->
  exists s', set_ownerElements e cs s = (s', Ok tt) /\ frame s0 s' /\
    next_id s' = next_id s /\ (forall i, attr_pair s' i = attr_pair s i) /\
    (forall i, i ∉ cs -> heap s' !! i = heap s !! i).
Proof.
  revert s. induction cs as [|c cs IH]; intros s Hf Hall.
  - exists s. split; [reflexivity|]. split; [exact Hf|]. auto.
  - inversion Hall as [|? ? [Hc [m E]] Hall']; subst. simpl.
    destruct (modify_fresh s0 s c (with_ownerElement (Some e)) m Hf Hc E)
      as (s1 & Hm & Hf1 & Hn1 & Ec1 & Ho1).
    assert (Hall1 : Forall (fun c => next_id s0 < c /\ is_Some (heap s1 !! c)) cs).
    { eapply Forall_impl; [exact Hall'|]. intros x (Hx1 & Hx2). split; [exact Hx1|].
      destruct (decide (x = c)) as [->|Hne]; [rewrite Ec1; eauto | rewrite Ho1; auto]. }
    destruct (IH s1 Hf1 Hall1) as (s2 & Hs2 & Hf2 & Hn2 & Hp2 & Ho2).
    exists s2. cbv [mbind M_bind]. rewrite Hm, Hs2. split; [reflexivity|].
    split; [exact Hf2|]. split; [congruence|]. split.
    + intros i. rewrite Hp2. unfold attr_pair.
      destruct (decide (i = c)) as [->|Hne]; [rewrite Ec1, E; reflexivity|].
      rewrite Ho1 by exact Hne. reflexivity.
    + intros i Hi. rewrite Ho2 by set_solver. apply Ho1. set_solver.
Qed.

Lemma cloneNode_shallow_spec (r : nat) (n : NodeRec) (s : St) :
  ids_below s -> heap s !! r = Some n ->
  Forall (fun a => is_Some (heap s !! a)) (attributes n) ->
  exists c s' m, cloneNode_shallow r s = (s', Ok c) /\ frame s s' /\
    next_id s < c /\ c <= next_id s' /\ heap s' !! c = Some m /\ unlinked m /\
    (nodeName m, nodeValue m) = clone_nv n /\
    map (attr_pair s') (attributes m)
      = (if is_element n then map (attr_pair s) (attributes n) else []) /\
    Forall (fun a => next_id s < a /\ a <= next_id s') (attributes m).
Proof.
  intros Hb E Hp. unfold cloneNode_shallow, clone_nv, is_element.
  cbv [mbind M_bind mret M_ret get]. rewrite E. cbv beta iota.
  destruct (nodeType n) eqn:Ht;
    rewrite ?bool_decide_true by reflexivity; rewrite ?bool_decide_false by congruence;
    unfold new_Text, new_CDATASection, new_Comment, new_ProcessingInstruction,
      new_DocumentType, new_DocumentFragment, new_GenericNode;
    try (match goal with
         | |- exists c s' m, alloc ?x ?s0 = _ /\ _ =>
             destruct (alloc_spec x s0 Hb) as [Ha Hf]; rewrite Ha;
             do 3 eexists; split; [reflexivity|]; split; [exact Hf|];
             simpl; split; [lia|]; split; [lia|];
             split; [apply lookup_insert_eq|]; split; [apply blank_unlinked|];
             split; [reflexivity|]; split; [reflexivity | constructor]
         end).
  - (* an element: clone the attributes, then [new Element(tagName, clones)] *)
    destruct (clone_attrs_spec (attributes n) s Hb Hp) as (cs & s1 & Hcs & Hf1 & Hall & Hmap).
    rewrite Hcs. unfold new_Element. cbv [mbind M_bind mret M_ret].
    set (x := mkNode ELEMENT_NODE (tagName n) None (toUpperCase (tagName n)) None None None
                None None None [] cs None None None None).
    destruct (alloc_spec x s1 (frame_ids _ _ Hf1)) as [Ha Hf2]. rewrite Ha.
    set (s2 := mkSt (<[S (next_id s1) := x]> (heap s1)) (S (next_id s1)) (wsets s1) (next_ws s1)).
    destruct (set_ownerElements_spec s s2 (S (next_id s1)) cs (frame_trans _ _ _ Hf1 Hf2))
      as (s3 & Hs3 & Hf3 & Hn3 & Hp3 & Ho3).
    { eapply Forall_impl; [exact Hall|]. intros c (Hc1 & Hc2 & Hc3). split; [exact Hc1|].
      destruct Hf2 as (_ & Hh & _). rewrite Hh by exact Hc2. exact Hc3. }
    rewrite Hs3. exists (S (next_id s1)), s3, x. split; [reflexivity|].
    split; [exact Hf3|]. destruct Hf1 as (Hle1 & _).
    split; [lia|]. split; [rewrite Hn3; unfold s2; simpl; lia|].
    split.
    { rewrite Ho3; [unfold s2; simpl; apply lookup_insert_eq|].
      intros Hin. rewrite Forall_forall in Hall. destruct (Hall _ Hin) as (_ & Hc & _). lia. }
    split; [repeat split|]. split; [reflexivity|]. split.
    + simpl. rewrite <- Hmap. transitivity (map (attr_pair s2) cs).
      { apply map_ext. exact Hp3. }
      apply attr_pairs_frame; [exact Hf2|].
      eapply Forall_impl; [exact Hall|]. intros c (_ & Hc & _). exact Hc.
    + simpl. eapply Forall_impl; [exact Hall|]. intros c (Hc & Hc' & _).
      rewrite Hn3. unfold s2. simpl. lia.
  - (* an attribute *)
    destruct (attr_cloneNode_spec r n s Hb E) as (s1 & Hc & Hf1 & Hn1 & Ec).
    rewrite Hc. do 3 eexists. split; [reflexivity|]. split; [exact Hf1|].
    split; [lia|]. split; [lia|]. split; [exact Ec|]. split; [repeat split|].
    split; [reflexivity|]. split; [reflexivity | constructor].
  - (* a document: [ownerDocument = this] is set on the new node *)
    unfold new_Document. cbv [mbind M_bind mret M_ret].
    destruct (alloc_spec (blank_node DOCUMENT_NODE "#document" None) s Hb) as [Ha Hf].
    rewrite Ha. cbv beta iota.
    edestruct (modify_fresh s _ (S (next_id s)) (with_ownerDocument (Some (S (next_id s))))
                 (blank_node DOCUMENT_NODE "#document" None) Hf)
      as (s1 & Hm & Hf1 & Hn1 & Ec1 & _); [lia | apply lookup_insert_eq |].
    rewrite Hm. do 3 eexists. split; [reflexivity|]. split; [exact Hf1|].
    split; [lia|]. split; [rewrite Hn1; simpl; lia|]. split; [exact Ec1|].
    split; [repeat split|]. split; [reflexivity|]. split; [reflexivity | constructor].
Qed.

Lemma frame_lookup (s s' : St) (r : nat) (n : NodeRec) :
  ids_below s -> frame s s' -> heap s !! r = Some n -> heap s' !! r = Some n.
Proof. intros Hb (_ & Hh & _) E. rewrite Hh; [exact E|]. apply Hb. rewrite E. eauto. Qed.

(** C9: on a node [r] of a heap whose ids come from the counter (and whose
    attribute nodes exist), two successive [cloneNode(false)] calls both
    succeed and give two nodes that differ from each other and from [r],
    with the same [nodeName], [nodeValue] and ordered attribute
    [(name, value)] pairs; each clone has no parent, siblings or children,
    its attribute nodes are fresh (none of them is an attribute of [r]), and
    [r] itself is left as it was. *)
Theorem C9_shallow_clones_equal_and_fresh (r : nat) (n : NodeRec) (s : St)
    (Hb : ids_below s) (E : heap s !! r = Some n)
    (Hattrs : Forall (fun a => is_Some (heap s !! a)) (attributes n)) :
  exists c1 s1 c2 s2 m1 m2,
    cloneNode_shallow r s = (s1, Ok c1) /\ cloneNode_shallow r s1 = (s2, Ok c2) /\
    c1 <> c2 /\ c1 <> r /\ c2 <> r /\
    shallow_shape s2 c1 = shallow_shape s2 c2 /\ is_Some (shallow_shape s2 c1) /\
    heap s2 !! c1 = Some m1 /\ heap s2 !! c2 = Some m2 /\
    unlinked m1 /\ unlinked m2 /\
    Forall (fun a => a ∉ attributes n) (attributes m1) /\
    Forall (fun a => a ∉ attributes n) (attributes m2) /\
    heap s2 !! r = Some n.
Proof.
  assert (Hsrc : Forall (fun a => a <= next_id s) (attributes n)).
  { eapply Forall_impl; [exact Hattrs|]. intros a Ha. apply Hb, Ha. }
  destruct (cloneNode_shallow_spec r n s Hb E Hattrs)
    as (c1 & s1 & m1 & Hc1 & Hf1 & Hlo1 & Hhi1 & E1 & Hu1 & Hnv1 & Hmap1 & Hall1).
  assert (E' : heap s1 !! r = Some n) by (eapply frame_lookup; eassumption).
  assert (Hattrs1 : Forall (fun a => is_Some (heap s1 !! a)) (attributes n)).
  { eapply Forall_impl; [exact Hattrs|]. intros a [x Ha]. exists x.
    eapply frame_lookup; eassumption. }
  destruct (cloneNode_shallow_spec r n s1 (frame_ids _ _ Hf1) E' Hattrs1)
    as (c2 & s2 & m2 & Hc2 & Hf2 & Hlo2 & Hhi2 & E2 & Hu2 & Hnv2 & Hmap2 & Hall2).
  assert (Hr : r <= next_id s) by (apply Hb; rewrite E; eauto).
  assert (Hle1 : next_id s <= next_id s1) by (destruct Hf1; lia).
  assert (E1' : heap s2 !! c1 = Some m1) by (eapply frame_lookup; [exact (frame_ids _ _ Hf1) | exact Hf2 | exact E1]).
  exists c1, s1, c2, s2, m1, m2.
  split; [exact Hc1|]. split; [exact Hc2|].
  split; [lia|]. split; [lia|]. split; [lia|].
  split.
  { unfold shallow_shape. rewrite E1', E2. simpl.
    rewrite <- Hnv2 in Hnv1. injection Hnv1 as -> ->.
    rewrite Hmap2, (attr_pairs_frame s1 s2 (attributes m1) Hf2), Hmap1.
    - destruct (is_element n); [|reflexivity].
      rewrite (attr_pairs_frame s s1 (attributes n) Hf1 Hsrc). reflexivity.
    - eapply Forall_impl; [exact Hall1|]. intros a (_ & Ha). exact Ha. }
  split; [unfold shallow_shape; rewrite E1'; simpl; eauto|].
  split; [exact E1'|]. split; [exact E2|]. split; [exact Hu1|]. split; [exact Hu2|].
  split; [|split].
  - eapply Forall_impl; [exact Hall1|]. intros a (Ha & _) Hin.
    rewrite Forall_forall in Hsrc. specialize (Hsrc a Hin). lia.
  - eapply Forall_impl; [exact Hall2|]. intros a (Ha & _) Hin.
    rewrite Forall_forall in Hsrc. specialize (Hsrc a Hin). lia.
  - eapply frame_lookup; [exact (frame_ids _ _ Hf1) | exact Hf2 | exact E'].
Qed.

Lemma ids_below_keys (s : St) :
  Forall (fun i => i <= next_id s) (map fst (map_to_list (heap s))) -> ids_below s.
Proof.
  intros H i [x Hx]. rewrite Forall_forall in H. apply H.
  apply list_elem_of_In, in_map_iff. exists (i, x). split; [reflexivity|].
  apply list_elem_of_In, elem_of_map_to_list, Hx.
Qed.

Lemma C9_witness :
  ids_below lang_state /\
  exists c1 s1 c2 s2,
    cloneNode_shallow 2 lang_state = (s1, Ok c1) /\ cloneNode_shallow 2 s1 = (s2, Ok c2) /\
    c1 <> c2 /\ c1 <> 2 /\ c2 <> 2 /\
    shallow_shape s2 c1 = shallow_shape s2 c2 /\
    shallow_shape s2 c1 = Some ("P", None, [Some ("lang", "en")]).
Proof.
  assert (Hb : ids_below lang_state).
  { apply ids_below_keys. apply (bool_decide_unpack _). vm_compute. reflexivity. }
  split; [exact Hb|].
  destruct (C9_shallow_clones_equal_and_fresh 2 (node_or_blank lang_state 2) lang_state Hb)
    as (c1 & s1 & c2 & s2 & m1 & m2 & Hc1 & Hc2 & H12 & H1 & H2 & Hsh & _).
  - vm_compute. reflexivity.
  - apply (bool_decide_unpack _). vm_compute. reflexivity.
  - exists c1, s1, c2, s2. repeat (split; [assumption|]).
    assert (Hs1 : s1 = exec (cloneNode_shallow 2) lang_state)
      by (unfold exec; rewrite Hc1; reflexivity).
    assert (Hr1 : c1 = 5).
    { assert (H : result (cloneNode_shallow 2) lang_state = Ok c1)
        by (unfold result; rewrite Hc1; reflexivity).
      vm_compute in H. congruence. }
    assert (Hs2 : s2 = exec (cloneNode_shallow 2) (exec (cloneNode_shallow 2) lang_state))
      by (rewrite <- Hs1; unfold exec; rewrite Hc2; reflexivity).
    subst. vm_compute. reflexivity.
Defined.

(** C1: the invariant (every node whose [parentNode] is [p] lies on the
    [nextSibling] chain from [p.firstChild], and every node of that chain has
    [parentNode] [p]) holds on the document assembled from
    [<ul><li>A</li><li class="sel">B</li></ul>], and still holds after
    [ul.insertBefore(new Document(), firstLi)], which throws only after
    splicing the document into [ul]'s child list and pointing the first
    [li]'s [previousSibling] at it.  The next, successful, call
    [ul.appendChild(li)] then sets [ul.firstChild] to that document, whose
    [nextSibling] and [parentNode] are null: the three [li] nodes whose
    [parentNode] is [ul] are off the chain, and the invariant fails. *)
Lemma C1_append_after_failed_insert_breaks_chain :
  tree_invariant_b ul_state = true /\
  result insert_document_call ul_state
    = Throw (TypeError "Cannot assign to read only property 'previousSibling'") /\
  childNodes (node_or_blank after_failed_insert 5) = [11; 6; 8] /\
  tree_invariant_b after_failed_insert = true /\
  result append_li_call after_failed_insert = Ok 12 /\
  firstChild (node_or_blank after_append 5) = Some 11 /\
  nextSibling (node_or_blank after_append 11) = None /\
  parentNode (node_or_blank after_append 11) = None /\
  parentNode (node_or_blank after_append 6) = Some 5 /\
  tree_invariant_b after_append = false.
Proof. repeat split; vm_compute; reflexivity. Qed.

(* ------------------------------------------------------------------ *)
(** ** Token lists: what [#updateAttribute] writes, [#updateTokens] reads back *)

Lemma str_app_empty (s : string) : "" +:+ s = s.
Proof. reflexivity. Qed.

Lemma str_app_cons (c : ascii) (a b : string) : String c a +:+ b = String c (a +:+ b).
Proof. reflexivity. Qed.

Lemma str_app_nil (s : string) : s +:+ "" = s.
Proof.
  induction s as [|c s IH]; [reflexivity|]. rewrite str_app_cons. congruence.
Qed.

Lemma str_app_assoc (a b c : string) : (a +:+ b) +:+ c = a +:+ b +:+ c.
Proof.
  induction a as [|x a IH]; [reflexivity|]. rewrite !str_app_cons. congruence.
Qed.

Lemma split_ws_aux_word (x rest cur : string) :
  no_ws x = true ->
  split_ws_aux (x +:+ rest) cur false = split_ws_aux rest (cur +:+ x) false.
Proof.
  revert cur. induction x as [|c x IH]; intros cur Hx.
  - by rewrite str_app_empty, str_app_nil.
  - rewrite str_app_cons. simpl in Hx |- *. apply andb_prop in Hx as [Hc Hx].
    destruct (is_ws c); [discriminate|]. rewrite IH by exact Hx.
    by rewrite str_app_assoc, str_app_cons, str_app_empty.
Qed.

Lemma split_ws_aux_lead (s cur : string) (b : bool) :
  lead_ok s = true -> split_ws_aux s cur b = split_ws_aux s cur false.
Proof.
  destruct s as [|c s]; simpl; [reflexivity|].
  intros Hc. destruct (is_ws c); [discriminate|reflexivity].
Qed.

Lemma join_space_cons (x : string) (l : list string) :
  join_space (x :: l) = x +:+ match l with [] => "" | _ => " " +:+ join_space l end.
Proof. destruct l; simpl; [by rewrite str_app_nil|reflexivity]. Qed.

Lemma token_ok_lead (x : string) : token_ok x = true -> lead_ok x = true.
Proof.
  unfold token_ok. destruct x as [|c x]; simpl; [done|].
  intros H. destruct (is_ws c) eqn:E; [|reflexivity]. simpl in H.
  try rewrite andb_false_r in H. discriminate.
Qed.

Lemma token_ok_no_ws (x : string) : token_ok x = true -> no_ws x = true.
Proof. unfold token_ok. intros H. apply andb_prop in H as [_ H]. exact H. Qed.

Lemma token_ok_nonempty (x : string) : token_ok x = true -> x <> "".
Proof. unfold token_ok. intros H. apply andb_prop in H as [H _]. by apply bool_decide_eq_true in H. Qed.

Lemma lead_ok_app (a b : string) : a <> "" -> lead_ok (a +:+ b) = lead_ok a.
Proof. destruct a; simpl; [done|reflexivity]. Qed.

Lemma join_space_lead (l : list string) :
  Forall (fun x => token_ok x = true) l -> lead_ok (join_space l) = true.
Proof.
  intros Hl. destruct Hl as [|x l Hx _]; [reflexivity|].
  rewrite join_space_cons, lead_ok_app by (by apply token_ok_nonempty).
  by apply token_ok_lead.
Qed.

Lemma split_join (x : string) (l : list string) (cur : string) :
  Forall (fun x => token_ok x = true) (x :: l) ->
  split_ws_aux (join_space (x :: l)) cur false = (cur +:+ x) :: l.
Proof.
  revert x cur. induction l as [|y l IH]; intros x cur Hl;
    inversion Hl as [|? ? Hx Hl']; subst.
  - simpl. rewrite <- (str_app_nil x) at 1.
    rewrite split_ws_aux_word by (by apply token_ok_no_ws). reflexivity.
  - rewrite join_space_cons, split_ws_aux_word by (by apply token_ok_no_ws).
    rewrite str_app_cons, str_app_empty.
    change (split_ws_aux (String " " (join_space (y :: l))) (cur +:+ x) false)
      with ((cur +:+ x) :: split_ws_aux (join_space (y :: l)) "" true).
    rewrite split_ws_aux_lead by (by apply join_space_lead).
    rewrite IH by exact Hl'. reflexivity.
Qed.

Lemma string_rev_app_eq (s acc : string) : string_rev_app s acc = string_rev s +:+ acc.
Proof.
  unfold string_rev. revert acc. induction s as [|c s IH]; intros acc; [reflexivity|].
  cbn [string_rev_app]. rewrite (IH (String c acc)), (IH (String c "")).
  by rewrite str_app_assoc, str_app_cons, str_app_empty.
Qed.

Lemma string_rev_cons (c : ascii) (s : string) :
  string_rev (String c s) = string_rev s +:+ String c "".
Proof. unfold string_rev at 1. cbn [string_rev_app]. apply string_rev_app_eq. Qed.

Lemma string_rev_app_distr (a b : string) :
  string_rev (a +:+ b) = string_rev b +:+ string_rev a.
Proof.
  induction a as [|c a IH].
  - rewrite str_app_empty. symmetry. apply str_app_nil.
  - rewrite str_app_cons, !string_rev_cons, IH. apply str_app_assoc.
Qed.

Lemma string_rev_involutive (s : string) : string_rev (string_rev s) = s.
Proof.
  induction s as [|c s IH]; [reflexivity|].
  rewrite string_rev_cons, string_rev_app_distr, IH. reflexivity.
Qed.

Lemma no_ws_app (a b : string) : no_ws (a +:+ b) = no_ws a && no_ws b.
Proof.
  induction a as [|c a IH]; [reflexivity|].
  rewrite str_app_cons. simpl. rewrite IH. apply andb_assoc.
Qed.

Lemma no_ws_rev (s : string) : no_ws (string_rev s) = no_ws s.
Proof.
  induction s as [|c s IH]; [reflexivity|].
  rewrite string_rev_cons, no_ws_app, IH. simpl.
  rewrite andb_true_r. apply andb_comm.
Qed.

Lemma lead_ok_no_ws (s : string) : no_ws s = true -> lead_ok s = true.
Proof.
  destruct s as [|c s]; simpl; [done|]. intros H. apply andb_prop in H as [H _]. exact H.
Qed.

Lemma string_rev_nonempty (s : string) : s <> "" -> string_rev s <> "".
Proof.
  intros Hs Hr. apply Hs. rewrite <- (string_rev_involutive s), Hr. reflexivity.
Qed.

Lemma join_space_nonempty (x : string) (l : list string) :
  token_ok x = true -> join_space (x :: l) <> "".
Proof.
  intros Hx. rewrite join_space_cons. apply token_ok_nonempty in Hx.
  destruct x; [done|]. rewrite str_app_cons. discriminate.
Qed.

Lemma join_space_rev_lead (l : list string) :
  Forall (fun x => token_ok x = true) l -> lead_ok (string_rev (join_space l)) = true.
Proof.
  induction 1 as [|x l Hx Hl IH]; [reflexivity|].
  rewrite join_space_cons, string_rev_app_distr.
  destruct l as [|y l].
  - rewrite str_app_empty. apply lead_ok_no_ws. rewrite no_ws_rev.
    by apply token_ok_no_ws.
  - rewrite string_rev_app_distr, str_app_assoc, lead_ok_app; [exact IH|].
    apply string_rev_nonempty, join_space_nonempty.
    by inversion Hl.
Qed.

Lemma trim_start_lead (s : string) : lead_ok s = true -> trim_start s = s.
Proof.
  destruct s as [|c s]; simpl; [done|]. intros H. by destruct (is_ws c).
Qed.

Lemma trim_join_space (l : list string) :
  Forall (fun x => token_ok x = true) l -> trim (join_space l) = join_space l.
Proof.
  intros Hl. unfold trim.
  rewrite (trim_start_lead (join_space l)) by (by apply join_space_lead).
  rewrite trim_start_lead by (by apply join_space_rev_lead).
  apply string_rev_involutive.
Qed.

Lemma join_space_split (l : list string) :
  Forall (fun x => token_ok x = true) l ->
  filter (fun x => bool_decide (x <> "")) (split_ws (trim (join_space l))) = l.
Proof.
  intros Hl. rewrite trim_join_space by exact Hl. unfold split_ws.
  destruct l as [|x l]; [reflexivity|].
  rewrite split_join by exact Hl. rewrite str_app_empty.
  clear -Hl. induction Hl as [|y k Hy _ IH]; [reflexivity|].
  rewrite filter_cons_True; [by rewrite IH|].
  apply bool_decide_pack. by apply token_ok_nonempty.
Qed.

(* ------------------------------------------------------------------ *)
(** ** Running the attribute methods *)

Lemma get_some (r : nat) (s : St) (n : NodeRec) :
  heap s !! r = Some n -> get r s = (s, Ok n).
Proof. intros E. unfold get. rewrite E. reflexivity. Qed.

Lemma bind_step {A B} (m : M A) (k : A -> M B) (s s' : St) (x : A) :
  m s = (s', Ok x) -> mbind k m s = k x s'.
Proof. intros H. unfold mbind, M_bind. rewrite H. reflexivity. Qed.

Lemma find_attr_spec (ok : string -> bool) (attrs : list nat) (s : St) :
  attrs_present s attrs ->
  find_attr ok attrs s = (s, Ok (List.find (fun b => ok (attr_name s b)) attrs)).
Proof.
  induction 1 as [|b attrs [nb Hb] _ IH]; [reflexivity|].
  cbn [find_attr List.find]. rewrite (bind_step _ _ s s nb) by (by apply get_some).
  unfold attr_name, node_or_blank at 1. rewrite Hb. simpl.
  destruct (ok (nodeName nb)); [reflexivity|exact IH].
Qed.

Lemma find_ext {A} (f g : A -> bool) (l : list A) :
  Forall (fun b => f b = g b) l -> List.find f l = List.find g l.
Proof.
  induction 1 as [|b l Hb _ IH]; [reflexivity|]. simpl. by rewrite Hb, IH.
Qed.

Lemma attrs_present_insert (h : gmap nat NodeRec) (attrs : list nat) (r : nat) (n : NodeRec) :
  Forall (fun b => is_Some (h !! b)) attrs ->
  Forall (fun b => is_Some (<[r := n]> h !! b)) attrs.
Proof.
  intros H. eapply Forall_impl; [exact H|]. intros b [x Hx].
  destruct (decide (r = b)) as [->|Hne]; [rewrite lookup_insert_eq; eauto|].
  rewrite lookup_insert_ne by exact Hne. eauto.
Qed.

Lemma setAttribute_spec (e : nat) (name v : string) (s : St) (en : NodeRec) :
  heap s !! e = Some en ->
  attrs_present s (attributes en) ->
  ids_below s ->
  setAttribute e name v s = (set_attr_state e name v s en, Ok tt).
Proof.
  intros He Hp Hb. unfold set_attr_state.
  assert (Hlt : forall b, is_Some (heap s !! b) -> b <> S (next_id s))
    by (intros b Hbb; specialize (Hb b Hbb); lia).
  assert (Hea : e <> S (next_id s)) by (apply Hlt; rewrite He; eauto).
  unfold setAttribute, setNamedItem, getNamedItem, getAttributeNode, new_Attr, alloc, modify.
  cbv [mbind M_bind mret M_ret get put]. cbn [heap next_id wsets next_ws].
  rewrite He. cbv beta iota zeta. cbn [heap next_id wsets next_ws].
  repeat (rewrite lookup_insert_eq; cbv beta iota zeta; cbn [heap next_id wsets next_ws]).
  rewrite !lookup_insert_ne, He by done. cbv beta iota zeta; cbn [heap next_id wsets next_ws].
  rewrite find_attr_spec
    by (unfold attrs_present; cbn [heap]; repeat apply attrs_present_insert; exact Hp).
  cbv beta iota zeta; cbn [heap next_id wsets next_ws].
  repeat (rewrite lookup_insert_eq; cbv beta iota zeta; cbn [heap next_id wsets next_ws]).
  rewrite !lookup_insert_ne, He by done. cbv beta iota zeta; cbn [heap next_id wsets next_ws].
  rewrite find_attr_spec
    by (unfold attrs_present; cbn [heap]; repeat apply attrs_present_insert; exact Hp).
  cbv beta iota zeta; cbn [heap next_id wsets next_ws].
  rewrite !lookup_insert_ne, He by done. cbv beta iota zeta; cbn [heap next_id wsets next_ws].
  rewrite (find_ext _ (fun b => bool_decide (toLowerCase (attr_name s b) = toLowerCase name))).
  2:{ eapply Forall_impl; [exact Hp|]. intros b Hbp.
      unfold attr_name, node_or_blank. cbn [heap].
      rewrite !lookup_insert_ne by (specialize (Hlt b Hbp); congruence).
      cbn [nodeName with_ownerElement with_ownerDocument blank_node]. reflexivity. }
  unfold set_named_list, ci_match, new_attr_rec.
  destruct (find _ _) as [x|]; cbv beta iota zeta; cbn [heap next_id wsets next_ws];
    rewrite !lookup_insert_ne, He by congruence; cbv beta iota zeta; cbn [heap next_id wsets next_ws];
    rewrite !insert_insert_eq; reflexivity.
Qed.

Lemma indexOf_elem (x : nat) (l : list nat) : x ∈ l -> exists i, indexOf x l = Some i.
Proof.
  induction l as [|y l IH]; intros Hx; [by apply elem_of_nil in Hx|]. simpl.
  destruct (decide (y = x)) as [->|Hne]; [eauto|].
  apply elem_of_cons in Hx as [->|Hx]; [congruence|].
  destruct (IH Hx) as [i ->]. eauto.
Qed.

Lemma find_elem {A} (f : A -> bool) (l : list A) (x : A) :
  List.find f l = Some x -> x ∈ l /\ f x = true.
Proof.
  intros H. apply find_some in H as [H1 H2]. split; [by apply list_elem_of_In|exact H2].
Qed.

Lemma set_named_list_cons (b x a : nat) (rest : list nat) :
  x <> b -> x ∈ rest ->
  set_named_list (b :: rest) (Some x) a = b :: set_named_list rest (Some x) a.
Proof.
  intros Hne Hx. destruct (indexOf_elem x rest Hx) as [i Hi].
  unfold set_named_list. simpl. destruct (decide (b = x)); [congruence|].
  rewrite Hi. reflexivity.
Qed.

(** [getAttributeNode(name)] on the list [setNamedItem] leaves finds the new
    attribute. *)
Lemma find_set_named (names : nat -> string) (attrs : list nat) (a : nat) (name : string) :
  names a = name ->
  List.find (fun b => bool_decide (names b = name))
    (set_named_list attrs
       (List.find (fun b => bool_decide (toLowerCase (names b) = toLowerCase name)) attrs) a)
  = Some a.
Proof.
  intros Ha. induction attrs as [|b rest IH].
  - simpl. rewrite bool_decide_eq_true_2 by exact Ha. reflexivity.
  - cbn [List.find].
    destruct (bool_decide (toLowerCase (names b) = toLowerCase name)) eqn:Eb.
    + unfold set_named_list. simpl. rewrite decide_True by reflexivity. simpl.
      rewrite bool_decide_eq_true_2 by exact Ha. reflexivity.
    + assert (Hbn : bool_decide (names b = name) = false).
      { apply bool_decide_eq_false_2. intros Hb. rewrite Hb, bool_decide_eq_true_2 in Eb by reflexivity.
        discriminate. }
      destruct (List.find _ rest) as [x|] eqn:Ex.
      * destruct (find_elem _ _ _ Ex) as [Hx Hxt].
        rewrite set_named_list_cons; [| intros ->; congruence | exact Hx].
        simpl. rewrite Hbn. exact IH.
      * simpl. rewrite Hbn. exact IH.
Qed.

Lemma set_named_list_elem (attrs : list nat) (ex : option nat) (a b : nat) :
  b ∈ set_named_list attrs ex a -> b = a \/ b ∈ attrs.
Proof.
  unfold set_named_list. destruct ex as [x|]; intros H; apply elem_of_app in H as [H|H].
  - right. exact (subseteq_take _ attrs b H).
  - apply elem_of_cons in H as [->|H]; [by left|]. right. exact (subseteq_drop _ attrs b H).
  - by right.
  - apply list_elem_of_singleton in H. by left.
Qed.

Lemma set_attr_state_lookup (e : nat) (name v : string) (s : St) (en : NodeRec) (b : nat) :
  heap s !! e = Some en -> ids_below s -> is_Some (heap s !! b) ->
  attr_name (set_attr_state e name v s en) b = attr_name s b.
Proof.
  intros He Hb [nb Hnb]. unfold attr_name, node_or_blank, set_attr_state. cbn [heap].
  destruct (decide (e = b)) as [<-|Hne].
  - rewrite lookup_insert_eq, He. reflexivity.
  - rewrite lookup_insert_ne by exact Hne.
    assert (b <= next_id s) by (apply Hb; eauto).
    rewrite lookup_insert_ne by lia. reflexivity.
Qed.

Lemma set_attr_state_present (e : nat) (name v : string) (s : St) (en : NodeRec) :
  heap s !! e = Some en -> attrs_present s (attributes en) ->
  attrs_present (set_attr_state e name v s en)
    (set_named_list (attributes en) (ci_match s (attributes en) name) (S (next_id s))).
Proof.
  intros He Hp. apply Forall_forall. intros b Hin. unfold set_attr_state. cbn [heap].
  destruct (decide (e = b)) as [<-|Hne']; [rewrite lookup_insert_eq; eauto|].
  rewrite lookup_insert_ne by exact Hne'.
  destruct (set_named_list_elem _ _ _ _ Hin) as [->|Hin'].
  - rewrite lookup_insert_eq. eauto.
  - unfold attrs_present in Hp. rewrite Forall_forall in Hp.
    destruct (decide (S (next_id s) = b)) as [<-|Hne].
    + rewrite lookup_insert_eq. eauto.
    + rewrite lookup_insert_ne by exact Hne. apply Hp, Hin'.
Qed.

Lemma set_attr_state_e (e : nat) (name v : string) (s : St) (en : NodeRec) :
  heap (set_attr_state e name v s en) !! e =
    Some (with_attributes (set_named_list (attributes en) (ci_match s (attributes en) name)
                             (S (next_id s))) en).
Proof. unfold set_attr_state. cbn [heap]. apply lookup_insert_eq. Qed.

Lemma set_attr_state_new (e : nat) (name v : string) (s : St) (en : NodeRec) :
  heap s !! e = Some en -> ids_below s ->
  heap (set_attr_state e name v s en) !! S (next_id s) =
    Some (new_attr_rec e (ownerDocument en) name v).
Proof.
  intros He Hb. assert (e <= next_id s) by (apply Hb; rewrite He; eauto).
  unfold set_attr_state. cbn [heap]. rewrite lookup_insert_ne by lia. apply lookup_insert_eq.
Qed.

Lemma ci_match_after (e : nat) (name v : string) (s : St) (en : NodeRec) (name' : string) :
  heap s !! e = Some en -> attrs_present s (attributes en) -> ids_below s ->
  ci_match (set_attr_state e name v s en) (attributes en) name' = ci_match s (attributes en) name'.
Proof.
  intros He Hp Hb. unfold ci_match. apply find_ext. eapply Forall_impl; [exact Hp|].
  intros b Hbp. by rewrite set_attr_state_lookup.
Qed.

Lemma set_get_attribute (e : nat) (name v : string) (s : St) (en : NodeRec) :
  heap s !! e = Some en -> attrs_present s (attributes en) -> ids_below s ->
  exists s', setAttribute e name v s = (s', Ok tt) /\
    getAttribute e name s' = (s', Ok (Some v)).
Proof.
  intros He Hp Hb. exists (set_attr_state e name v s en).
  split; [by apply setAttribute_spec|].
  assert (Hname : attr_name (set_attr_state e name v s en) (S (next_id s)) = name).
  { unfold attr_name, node_or_blank. by rewrite set_attr_state_new. }
  assert (Hfind : List.find (fun b => bool_decide (attr_name (set_attr_state e name v s en) b = name))
                    (set_named_list (attributes en) (ci_match s (attributes en) name)
                       (S (next_id s))) = Some (S (next_id s))).
  { rewrite <- (ci_match_after e name v s en name) by assumption.
    apply find_set_named, Hname. }
  unfold getAttribute, getAttributeNode.
  rewrite (bind_step _ _ _ (set_attr_state e name v s en) (Some (S (next_id s)))).
  - rewrite (bind_step _ _ _ (set_attr_state e name v s en) _)
      by (apply get_some, set_attr_state_new; assumption).
    reflexivity.
  - rewrite (bind_step _ _ _ (set_attr_state e name v s en) _)
      by (apply get_some, set_attr_state_e).
    cbn [attributes with_attributes].
    rewrite find_attr_spec by (apply set_attr_state_present; assumption).
    by rewrite Hfind.
Qed.

Lemma indexOf_lookup (x : nat) (l : list nat) (i : nat) :
  indexOf x l = Some i -> l !! i = Some x.
Proof.
  revert i. induction l as [|y l IH]; intros i H; [discriminate|]. simpl in H.
  destruct (decide (y = x)) as [->|Hne]; [by injection H as <-|].
  destruct (indexOf x l) as [j|] eqn:Ej; [|discriminate]. simpl in H.
  injection H as <-. apply IH. reflexivity.
Qed.

Lemma set_named_list_some (attrs : list nat) (x a : nat) :
  x ∈ attrs ->
  exists l1 l2, attrs = l1 ++ x :: l2 /\ set_named_list attrs (Some x) a = l1 ++ a :: l2.
Proof.
  intros Hx. destruct (indexOf_elem x attrs Hx) as [i Hi].
  exists (take i attrs), (drop (S i) attrs). split.
  - symmetry. apply take_drop_middle, indexOf_lookup, Hi.
  - unfold set_named_list. rewrite Hi. reflexivity.
Qed.

Lemma find_app_skip {A} (g : A -> bool) (l1 l2 : list A) (y z : A) :
  g y = false -> g z = false ->
  List.find g (l1 ++ y :: l2) = List.find g (l1 ++ z :: l2).
Proof.
  intros Hy Hz. induction l1 as [|w l1 IH]; simpl; [by rewrite Hy, Hz|].
  by rewrite IH.
Qed.

Lemma find_app_end {A} (g : A -> bool) (l : list A) (y : A) :
  g y = false -> List.find g (l ++ [y]) = List.find g l.
Proof.
  intros Hy. induction l as [|w l IH]; simpl; [by rewrite Hy|]. by rewrite IH.
Qed.

Lemma find_none_forall {A} (g : A -> bool) (l : list A) :
  List.find g l = None -> Forall (fun b => g b = false) l.
Proof.
  induction l as [|w l IH]; simpl; [constructor|].
  destruct (g w) eqn:E; [discriminate|]. intros H. constructor; [exact E|]. by apply IH.
Qed.

Lemma lower_name_ne (n1 n2 : string) : toLowerCase n1 <> toLowerCase n2 -> n1 <> n2.
Proof. congruence. Qed.

Lemma set_attr_state_names (e : nat) (name v : string) (s : St) (en : NodeRec) :
  heap s !! e = Some en -> attrs_present s (attributes en) -> ids_below s ->
  forall b, In b (attributes en) ->
    toLowerCase (attr_name (set_attr_state e name v s en) b) = toLowerCase (attr_name s b).
Proof.
  intros He Hp Hb b Hin. unfold attrs_present in Hp. rewrite Forall_forall in Hp.
  rewrite set_attr_state_lookup; [reflexivity|assumption|assumption|].
  apply Hp, list_elem_of_In, Hin.
Qed.

(** [setAttribute] keeps the names of an element's attributes distinct when
    case is ignored. *)
Theorem setAttribute_keeps_ci_distinct (e : nat) (name v : string) (s : St) (en : NodeRec) :
  heap s !! e = Some en -> attrs_present s (attributes en) -> ids_below s ->
  ci_distinct s (attributes en) ->
  exists s' en', setAttribute e name v s = (s', Ok tt) /\ heap s' !! e = Some en' /\
    ci_distinct s' (attributes en').
Proof.
  intros He Hp Hb Hd.
  exists (set_attr_state e name v s en).
  eexists. split; [by apply setAttribute_spec|]. split; [apply set_attr_state_e|].
  cbn [attributes with_attributes]. unfold ci_distinct in *.
  pose proof (set_attr_state_names e name v s en He Hp Hb) as Hn.
  assert (Hna : attr_name (set_attr_state e name v s en) (S (next_id s)) = name).
  { unfold attr_name, node_or_blank. by rewrite set_attr_state_new. }
  destruct (ci_match s (attributes en) name) as [x|] eqn:Ex.
  - apply find_elem in Ex as [Hx Hxl]. apply bool_decide_eq_true in Hxl.
    destruct (set_named_list_some (attributes en) x (S (next_id s)) Hx) as (l1 & l2 & Hat & ->).
    rewrite Hat in Hn, Hd. rewrite map_app in Hd |- *. cbn [map] in Hd |- *.
    rewrite Hna, <- Hxl.
    rewrite (map_ext_in _ (fun b => toLowerCase (attr_name s b)) l1),
      (map_ext_in _ (fun b => toLowerCase (attr_name s b)) l2); [exact Hd| |];
      intros b Hin; apply Hn, in_or_app; [right; right | left]; exact Hin.
  - unfold set_named_list. rewrite map_app. cbn [map]. rewrite Hna.
    rewrite (map_ext_in _ (fun b => toLowerCase (attr_name s b)) (attributes en)) by exact Hn.
    apply NoDup_app. split; [exact Hd|]. split; [|apply NoDup_singleton].
    intros y Hy Hy'. apply list_elem_of_singleton in Hy' as ->.
    apply list_elem_of_In, in_map_iff in Hy as (b & Hb' & Hin).
    apply find_none_forall in Ex. rewrite Forall_forall in Ex.
    specialize (Ex b (proj2 (list_elem_of_In _ _) Hin)). cbv beta in Ex.
    rewrite bool_decide_eq_true_2 in Ex by exact Hb'. discriminate.
Qed.

Lemma getAttribute_spec (e : nat) (n : string) (s : St) (en : NodeRec) :
  heap s !! e = Some en -> attrs_present s (attributes en) ->
  getAttribute e n s =
    (s, Ok (option_map (fun b => attr_value (node_or_blank s b))
              (List.find (fun b => bool_decide (attr_name s b = n)) (attributes en)))).
Proof.
  intros He Hp. unfold getAttribute, getAttributeNode.
  rewrite (bind_step _ _ _ s (List.find (fun b => bool_decide (attr_name s b = n)) (attributes en))).
  - destruct (List.find _ _) as [b|] eqn:Eb; [|reflexivity].
    apply find_elem in Eb as [Hin _]. unfold attrs_present in Hp. rewrite Forall_forall in Hp.
    destruct (Hp b Hin) as [nb Hnb].
    rewrite (bind_step _ _ _ s nb) by (by apply get_some).
    cbn [option_map]. unfold node_or_blank. rewrite Hnb. reflexivity.
  - rewrite (bind_step _ _ _ s en) by (by apply get_some). by apply find_attr_spec.
Qed.

Lemma forall_find_none {A} (g : A -> bool) (l : list A) :
  Forall (fun b => g b = false) l -> List.find g l = None.
Proof. induction 1 as [|w l Hw _ IH]; simpl; [reflexivity|]. by rewrite Hw. Qed.

Lemma set_attr_state_value (e : nat) (name v : string) (s : St) (en : NodeRec) (b : nat) :
  heap s !! e = Some en -> ids_below s -> is_Some (heap s !! b) ->
  attr_value (node_or_blank (set_attr_state e name v s en) b) = attr_value (node_or_blank s b).
Proof.
  intros He Hb [nb Hnb]. unfold node_or_blank, set_attr_state. cbn [heap].
  destruct (decide (e = b)) as [<-|Hne].
  - rewrite lookup_insert_eq, He. reflexivity.
  - rewrite lookup_insert_ne by exact Hne.
    assert (b <= next_id s) by (apply Hb; eauto).
    rewrite lookup_insert_ne by lia. reflexivity.
Qed.

(** [setAttribute(name, v)] leaves [getAttribute(name')] as it was for every
    [name'] that differs from [name] ignoring case. *)
Theorem setAttribute_other_names (e : nat) (name v name' : string) (s : St) (en : NodeRec) :
  heap s !! e = Some en -> attrs_present s (attributes en) -> ids_below s ->
  toLowerCase name' <> toLowerCase name ->
  exists s' r, setAttribute e name v s = (s', Ok tt) /\
    getAttribute e name' s = (s, Ok r) /\ getAttribute e name' s' = (s', Ok r).
Proof.
  intros He Hp Hb Hne.
  set (s' := set_attr_state e name v s en).
  assert (Hna : attr_name s' (S (next_id s)) = name).
  { unfold attr_name, node_or_blank, s'. by rewrite set_attr_state_new. }
  assert (Hsame : forall b, b ∈ attributes en -> attr_name s' b = attr_name s b).
  { intros b Hin. unfold attrs_present in Hp. rewrite Forall_forall in Hp.
    apply set_attr_state_lookup; auto. }
  assert (Hfind : List.find (fun b => bool_decide (attr_name s' b = name'))
                    (set_named_list (attributes en) (ci_match s (attributes en) name) (S (next_id s)))
                  = List.find (fun b => bool_decide (attr_name s b = name')) (attributes en)).
  { assert (Hga : bool_decide (attr_name s' (S (next_id s)) = name') = false).
    { apply bool_decide_eq_false_2. rewrite Hna. intros <-. congruence. }
    assert (Hext : List.find (fun b => bool_decide (attr_name s' b = name')) (attributes en)
                   = List.find (fun b => bool_decide (attr_name s b = name')) (attributes en)).
    { apply find_ext, Forall_forall. intros b Hin. by rewrite Hsame. }
    destruct (ci_match s (attributes en) name) as [x|] eqn:Ex.
    - apply find_elem in Ex as [Hx Hxl]. apply bool_decide_eq_true in Hxl.
      destruct (set_named_list_some (attributes en) x (S (next_id s)) Hx) as (l1 & l2 & Hat & ->).
      rewrite <- Hext, Hat. apply find_app_skip; [exact Hga|].
      apply bool_decide_eq_false_2. rewrite Hsame by exact Hx. intros Hxn.
      apply Hne. rewrite <- Hxn. exact Hxl.
    - unfold set_named_list. rewrite find_app_end by exact Hga. exact Hext. }
  exists s'. eexists. split; [by apply setAttribute_spec|].
  split; [by apply getAttribute_spec|].
  rewrite (getAttribute_spec e name' s' _ (set_attr_state_e e name v s en))
    by (apply set_attr_state_present; assumption).
  cbn [attributes with_attributes]. rewrite Hfind.
  destruct (List.find _ (attributes en)) as [b|] eqn:Eb; [|reflexivity].
  apply find_elem in Eb as [Hin _]. unfold attrs_present in Hp. rewrite Forall_forall in Hp.
  cbn [option_map]. unfold s'. rewrite set_attr_state_value by auto. reflexivity.
Qed.

(** [setAttribute(name, v)] replaces an attribute whose name is a case
    variant of [name]: afterwards [getAttribute] of any other case variant is
    [null]. *)
Theorem setAttribute_drops_case_variants (e : nat) (name v name' : string) (s : St) (en : NodeRec) :
  heap s !! e = Some en -> attrs_present s (attributes en) -> ids_below s ->
  ci_distinct s (attributes en) ->
  toLowerCase name' = toLowerCase name -> name' <> name ->
  exists s', setAttribute e name v s = (s', Ok tt) /\ getAttribute e name' s' = (s', Ok None).
Proof.
  intros He Hp Hb Hd Hlow Hne.
  set (s' := set_attr_state e name v s en).
  exists s'. split; [by apply setAttribute_spec|].
  rewrite (getAttribute_spec e name' s' _ (set_attr_state_e e name v s en))
    by (apply set_attr_state_present; assumption).
  cbn [attributes with_attributes].
  assert (Hna : attr_name s' (S (next_id s)) = name).
  { unfold attr_name, node_or_blank, s'. by rewrite set_attr_state_new. }
  assert (Hsame : forall b, b ∈ attributes en -> attr_name s' b = attr_name s b).
  { intros b Hin. unfold attrs_present in Hp. rewrite Forall_forall in Hp.
    apply set_attr_state_lookup; auto. }
  assert (Hother : forall b, b ∈ attributes en ->
            toLowerCase (attr_name s b) <> toLowerCase name ->
            bool_decide (attr_name s' b = name') = false).
  { intros b Hin Hl. apply bool_decide_eq_false_2. rewrite Hsame by exact Hin.
    intros Hbn. apply Hl. rewrite Hbn. exact Hlow. }
  assert (Hga : bool_decide (attr_name s' (S (next_id s)) = name') = false).
  { apply bool_decide_eq_false_2. rewrite Hna. intros ->. congruence. }
  rewrite forall_find_none; [reflexivity|]. apply Forall_forall. intros b Hin.
  unfold ci_distinct in Hd.
  destruct (ci_match s (attributes en) name) as [x|] eqn:Ex.
  - apply find_elem in Ex as [Hx Hxl]. apply bool_decide_eq_true in Hxl.
    destruct (set_named_list_some (attributes en) x (S (next_id s)) Hx) as (l1 & l2 & Hat & HL).
    rewrite HL in Hin. rewrite Hat in Hd. rewrite map_app in Hd. cbn [map] in Hd.
    apply NoDup_app in Hd as (_ & Hd1 & Hd2). apply NoDup_cons in Hd2 as [Hd2 _].
    apply elem_of_app in Hin as [Hin|Hin]; [|apply elem_of_cons in Hin as [->|Hin]].
    + apply Hother; [rewrite Hat; apply elem_of_app; by left|].
      intros Hl. apply (Hd1 (toLowerCase (attr_name s b))).
      * apply list_elem_of_In, in_map_iff. exists b. split; [reflexivity|]. by apply list_elem_of_In.
      * rewrite Hl, <- Hxl. apply elem_of_cons. by left.
    + exact Hga.
    + apply Hother; [rewrite Hat; apply elem_of_app; right; apply elem_of_cons; by right|].
      intros Hl. apply Hd2. rewrite Hxl, <- Hl.
      apply list_elem_of_In, in_map_iff. exists b. split; [reflexivity|]. by apply list_elem_of_In.
  - unfold set_named_list in Hin. apply elem_of_app in Hin as [Hin|Hin].
    + apply Hother; [exact Hin|]. intros Hl.
      apply find_none_forall in Ex. rewrite Forall_forall in Ex.
      specialize (Ex b Hin). cbv beta in Ex. rewrite bool_decide_eq_true_2 in Ex by exact Hl.
      discriminate.
    + apply list_elem_of_singleton in Hin as ->. exact Hga.
Qed.

(* ------------------------------------------------------------------ *)
(** ** Running the [DOMTokenList] methods *)

Lemma tbind_step {A B} (m : TM A) (k : A -> TM B) (st st' : St * DOMTokenList) (x : A) :
  m st = (st', Ok x) -> mbind k m st = k x st'.
Proof. intros H. unfold mbind, TM_bind. rewrite H. reflexivity. Qed.

Lemma updateTokens_read (e : nat) (name : string) (toks : option (list string)) (s : St) (r : option string) :
  getAttribute e name s = (s, Ok r) ->
  updateTokens None (s, mkDOMTokenList e name toks false) =
    ((s, mkDOMTokenList e name
           (Some (filter (fun x => bool_decide (x <> "")) (split_ws (trim (default "" r))))) false),
     Ok (filter (fun x => bool_decide (x <> "")) (split_ws (trim (default "" r))))).
Proof.
  intros H. unfold updateTokens. cbv [mbind TM_bind mret TM_ret self set_self lift].
  cbn [updating ownerElement_ attributeName tokens with_updating with_tokens].
  cbv beta iota zeta. rewrite H. reflexivity.
Qed.

Lemma split_ws_aux_no_ws (s cur : string) (b : bool) :
  no_ws cur = true -> Forall (fun x => no_ws x = true) (split_ws_aux s cur b).
Proof.
  revert cur b. induction s as [|c s IH]; intros cur b Hc; simpl.
  - by constructor.
  - destruct (is_ws c) eqn:Ec.
    + destruct b; [by apply IH|]. constructor; [exact Hc|]. by apply IH.
    + apply IH. rewrite no_ws_app, Hc. simpl. by rewrite Ec.
Qed.

(** Every token [#updateTokens] stores is non-empty and has no white space. *)
Lemma split_tokens_ok (v : string) :
  Forall (fun x => token_ok x = true) (filter (fun x => bool_decide (x <> "")) (split_ws v)).
Proof.
  pose proof (split_ws_aux_no_ws v "" false eq_refl) as H.
  apply Forall_forall. intros x Hx. apply list_elem_of_filter in Hx as [Hne Hx].
  rewrite Forall_forall in H. unfold token_ok. rewrite (H x Hx), andb_true_r.
  by apply Is_true_true.
Qed.

Lemma str_indexOf_lookup (x : string) (l : list string) (i : nat) :
  str_indexOf x l = Some i -> l !! i = Some x.
Proof.
  revert i. induction l as [|y l IH]; intros i H; [discriminate|]. simpl in H.
  destruct (bool_decide (y = x)) eqn:E.
  - apply bool_decide_eq_true in E as ->. by injection H as <-.
  - destruct (str_indexOf x l) as [j|] eqn:Ej; [|discriminate]. simpl in H.
    injection H as <-. apply IH. reflexivity.
Qed.

Lemma str_indexOf_elem (x : string) (l : list string) :
  x ∈ l -> exists i, str_indexOf x l = Some i.
Proof.
  induction l as [|y l IH]; intros Hx; [by apply elem_of_nil in Hx|]. simpl.
  destruct (bool_decide (y = x)) eqn:E; [eauto|].
  apply bool_decide_eq_false in E.
  apply elem_of_cons in Hx as [->|Hx]; [congruence|].
  destruct (IH Hx) as [i ->]. eauto.
Qed.

Lemma dedupe_elem (l : list string) (x : string) : x ∈ l -> x ∈ dedupe l.
Proof.
  intros Hx. destruct (str_indexOf_elem x l Hx) as [i Hi].
  pose proof (str_indexOf_lookup x l i Hi) as Hl.
  unfold dedupe. apply list_elem_of_In, in_map_iff. exists (x, i). split; [reflexivity|].
  apply list_elem_of_In, list_elem_of_filter. split.
  - apply bool_decide_pack. exact Hi.
  - apply (list_elem_of_lookup_2 _ i). apply lookup_zip_Some. split; [exact Hl|].
    apply lookup_seq. split; [lia|]. by eapply lookup_lt_Some.
Qed.

Lemma dedupe_subset (l : list string) (x : string) : x ∈ dedupe l -> x ∈ l.
Proof.
  unfold dedupe. intros H. apply list_elem_of_In, in_map_iff in H as ([y i] & <- & Hin).
  apply list_elem_of_In, list_elem_of_filter in Hin as [_ Hin].
  apply list_elem_of_lookup_1 in Hin as [k Hk]. apply lookup_zip_Some in Hk as [Hk _].
  simpl. by eapply list_elem_of_lookup_2.
Qed.

Lemma updateAttribute_write (e : nat) (name : string) (L : list string) (s s' : St) :
  setAttribute e name (join_space L) s = (s', Ok tt) ->
  updateAttribute None (s, mkDOMTokenList e name (Some L) false) =
    ((s', mkDOMTokenList e name (Some L) false), Ok tt).
Proof.
  intros H. unfold updateAttribute. cbv [mbind TM_bind mret TM_ret self set_self lift].
  cbn [updating ownerElement_ attributeName tokens with_updating with_tokens dtl_value default fmap option_fmap option_map].
  cbv beta iota zeta. unfold id. rewrite H. reflexivity.
Qed.

Lemma getAttribute_after_set (e : nat) (name v : string) (s s' : St) (en : NodeRec) :
  heap s !! e = Some en -> attrs_present s (attributes en) -> ids_below s ->
  setAttribute e name v s = (s', Ok tt) -> getAttribute e name s' = (s', Ok (Some v)).
Proof.
  intros He Hp Hb Hs. destruct (set_get_attribute e name v s en He Hp Hb) as (s'' & H1 & H2).
  rewrite Hs in H1. injection H1 as <-. exact H2.
Qed.

Lemma add_then_contains (e : nat) (name tok : string) (toks : option (list string))
    (s : St) (en : NodeRec) :
  heap s !! e = Some en -> attrs_present s (attributes en) -> ids_below s ->
  token_ok tok = true ->
  exists st st', dtl_add [tok] (s, mkDOMTokenList e name toks false) = (st, Ok tt) /\
    dtl_contains tok st = (st', Ok true).
Proof.
  intros He Hp Hb Htok.
  pose proof (getAttribute_spec e name s en He Hp) as Hr.
  set (r := option_map _ _) in Hr.
  set (L0 := filter (fun x => bool_decide (x <> "")) (split_ws (trim (default "" r)))).
  set (D := dedupe (L0 ++ [tok])).
  set (s' := set_attr_state e name (join_space D) s en).
  assert (Hset : setAttribute e name (join_space D) s = (s', Ok tt)) by (by apply setAttribute_spec).
  assert (HD : Forall (fun x => token_ok x = true) D).
  { apply Forall_forall. intros x Hx. apply dedupe_subset, elem_of_app in Hx as [Hx|Hx].
    - pose proof (split_tokens_ok (trim (default "" r))) as Hok. rewrite Forall_forall in Hok.
      by apply Hok.
    - apply list_elem_of_singleton in Hx as ->. exact Htok. }
  exists (s', mkDOMTokenList e name (Some D) false). eexists. split.
  - unfold dtl_add. rewrite (tbind_step _ _ _ (s, mkDOMTokenList e name (Some L0) false) L0)
      by (by apply updateTokens_read).
    cbv [mbind TM_bind self set_self]. cbn [with_tokens ownerElement_ attributeName updating].
    by apply updateAttribute_write.
  - unfold dtl_contains.
    rewrite (tbind_step _ _ _ (s', mkDOMTokenList e name (Some D) false) D).
    + cbv [mret TM_ret]. rewrite bool_decide_eq_true_2; [reflexivity|].
      apply dedupe_elem, elem_of_app. right. by apply list_elem_of_singleton.
    + rewrite updateTokens_read with (r := Some (join_space D))
        by (by eapply getAttribute_after_set).
      cbn [default]. unfold id. by rewrite join_space_split.
Qed.

Lemma remove_then_not_contains (e : nat) (name tok : string)
    (toks : option (list string)) (s : St) (en : NodeRec) :
  heap s !! e = Some en -> attrs_present s (attributes en) -> ids_below s ->
  exists st st', dtl_remove [tok] (s, mkDOMTokenList e name toks false) = (st, Ok tt) /\
    dtl_contains tok st = (st', Ok false).
Proof.
  intros He Hp Hb.
  pose proof (getAttribute_spec e name s en He Hp) as Hr.
  set (r := option_map _ _) in Hr.
  set (L0 := filter (fun x => bool_decide (x <> "")) (split_ws (trim (default "" r)))).
  set (F := filter (fun x => bool_decide (str_indexOf x [tok] = None)) L0).
  set (s' := set_attr_state e name (join_space F) s en).
  assert (Hset : setAttribute e name (join_space F) s = (s', Ok tt)) by (by apply setAttribute_spec).
  assert (HF : Forall (fun x => token_ok x = true) F).
  { apply Forall_forall. intros x Hx. apply list_elem_of_filter in Hx as [_ Hx].
    pose proof (split_tokens_ok (trim (default "" r))) as Hok. rewrite Forall_forall in Hok.
    by apply Hok. }
  exists (s', mkDOMTokenList e name (Some F) false). eexists. split.
  - unfold dtl_remove. rewrite (tbind_step _ _ _ (s, mkDOMTokenList e name (Some L0) false) L0)
      by (by apply updateTokens_read).
    cbv [mbind TM_bind self set_self]. cbn [with_tokens ownerElement_ attributeName updating].
    by apply updateAttribute_write.
  - unfold dtl_contains.
    rewrite (tbind_step _ _ _ (s', mkDOMTokenList e name (Some F) false) F).
    + cbv [mret TM_ret]. rewrite bool_decide_eq_false_2; [reflexivity|].
      intros Hx. apply list_elem_of_filter in Hx as [Hx _].
      apply Is_true_true, bool_decide_eq_true in Hx. simpl in Hx.
      rewrite bool_decide_eq_true_2 in Hx by reflexivity. discriminate.
    + rewrite updateTokens_read with (r := Some (join_space F))
        by (by eapply getAttribute_after_set).
      cbn [default]. unfold id. by rewrite join_space_split.
Qed.

(* ------------------------------------------------------------------ *)
(** ** [querySelector] in single mode *)

Lemma walkSync_nil (fuel : nat) (cb : nat -> option nat -> option Z -> M (list nat)) :
  (forall c p i s, match snd (cb c p i s) with Ok l => l = [] | Throw _ => True end) ->
  forall node parent s,
    match snd (walkSync fuel cb node parent s) with Ok l => l = [] | Throw _ => True end.
Proof.
  intros Hcb. induction fuel as [|fuel IH]; intros node parent s; [exact I|].
  cbn [walkSync]. cbv [mbind M_bind get mret M_ret].
  set (p := match parent with Some p => p | None => node end). generalize 0 as i. revert s. generalize fuel at 2.
  intros k. induction k as [|k IHk]; intros s i; [exact I|].
  destruct (heap s !! node) as [nn|]; [|exact I].
  destruct (childNodes nn !! i) as [child|]; [|reflexivity].
  pose proof (Hcb child (Some p) (Some (Z.of_nat i)) s) as H1.
  destruct (cb child (Some p) (Some (Z.of_nat i)) s) as [s1 [l1|e1]]; [|exact I].
  simpl in H1; subst l1.
  pose proof (IH child (Some p) s1) as H2.
  destruct (walkSync fuel cb child (Some p) s1) as [s2 [l2|e2]]; [|exact I].
  simpl in H2; subst l2.
  specialize (IHk s2 (S i)).
  match goal with |- context [?L k (S i) s2] =>
    destruct (L k (S i) s2) as [s3 [l3|e3]] end; [|exact I].
  simpl in IHk |- *. subst l3. reflexivity.
Qed.

Lemma select_single_nil (fuel node : nat) (m : Matcher) :
  forall s, match snd (select fuel node m true s) with Ok l => l = [] | Throw _ => True end.
Proof.
  intros s. unfold select. apply walkSync_nil. intros c p i s0.
  cbv [mbind M_bind get mret M_ret throw].
  destruct (heap s0 !! c) as [nn|]; [|exact I].
  destruct (is_element nn); [|reflexivity]. cbn [negb].
  destruct (m c p i s0) as [s1 [[|]|e]]; simpl; auto.
Qed.

(** [querySelector(selector)] never returns a node: a match is thrown by
    [select] in single mode and turned into [null] by the [catch], and
    a walk without a match ends in [undefined]. *)
Theorem querySelector_never_node (parse : string -> Res (option AST))
    (fuel node : nat) (sel : string) (s : St) (n : nat) :
  snd (querySelector parse fuel node sel s) <> Ok (JNode n).
Proof.
  unfold querySelector. cbv [mbind M_bind mret M_ret try_catch].
  destruct (selectorToMatch parse fuel sel s) as [s1 [m|e]]; [|discriminate].
  pose proof (select_single_nil fuel node m s1) as H.
  destruct (select fuel node m true s1) as [s2 [l|e]]; [|discriminate].
  simpl in H. subst l. discriminate.
Qed.

(* ------------------------------------------------------------------ *)
(** ** Successful runs of [removeChild] and [appendChild] *)

Lemma bind_ok_inv {A B} (m : M A) (k : A -> M B) (s s'' : St) (y : B) :
  mbind k m s = (s'', Ok y) -> exists s' x, m s = (s', Ok x) /\ k x s' = (s'', Ok y).
Proof.
  unfold mbind, M_bind. destruct (m s) as [s' [x|e]]; [eauto|discriminate].
Qed.

Lemma get_ok (r : nat) (s s' : St) (n : NodeRec) :
  get r s = (s', Ok n) -> s' = s /\ heap s !! r = Some n.
Proof. unfold get. destruct (heap s !! r); intros H; inversion H; subst; auto. Qed.

Lemma ret_ok {A} (x y : A) (s s' : St) : (mret x : M A) s = (s', Ok y) -> s' = s /\ y = x.
Proof. intros H. inversion H. auto. Qed.

Lemma throw_ok {A} (e : exn) (s s' : St) (y : A) : throw e s = (s', Ok y) -> False.
Proof. discriminate. Qed.

Lemma modify_ok (r : nat) (f : NodeRec -> NodeRec) (s s' : St) (u : unit) :
  modify r f s = (s', Ok u) -> exists n, heap s !! r = Some n /\ heap s' = <[r := f n]> (heap s).
Proof.
  unfold modify, mbind, M_bind, get, put. destruct (heap s !! r) as [n|]; intros H;
    inversion H; subst; eauto.
Qed.

Lemma set_ro_ok (prop : string) (f : NodeRec -> NodeRec) (r : nat) (s s' : St) (u : unit) :
  set_readonly_checked prop f r s = (s', Ok u) ->
  exists n, heap s !! r = Some n /\ heap s' = <[r := f n]> (heap s).
Proof.
  unfold set_readonly_checked, mbind, M_bind, get, put, throw.
  destruct (heap s !! r) as [n|]; [|discriminate]. destruct (decide _); [discriminate|].
  intros H; inversion H; subst; eauto.
Qed.

Lemma fmap_insert_same {A} (g : NodeRec -> A) (h : gmap nat NodeRec) (r x : nat) (n n' : NodeRec) :
  h !! r = Some n -> g n' = g n -> g <$> <[r := n']> h !! x = g <$> h !! x.
Proof.
  intros Hn Hg. destruct (decide (r = x)) as [->|Hne].
  - rewrite lookup_insert_eq, Hn. simpl. by rewrite Hg.
  - by rewrite lookup_insert_ne.
Qed.

Lemma fmap_insert_here {A} (g : NodeRec -> A) (h : gmap nat NodeRec) (r : nat) (n' : NodeRec) :
  g <$> <[r := n']> h !! r = Some (g n').
Proof. by rewrite lookup_insert_eq. Qed.

Ltac run_step :=
  match goal with
  | H : mbind _ _ _ = (_, Ok _) |- _ =>
      let s := fresh "s" in let x := fresh "x" in let Hm := fresh "Hm" in
      apply bind_ok_inv in H as (s & x & Hm & H); cbv beta in H
  | H : get _ _ = (_, Ok _) |- _ =>
      let E := fresh "E" in apply get_ok in H as [? E]; subst
  | H : mret _ _ = (_, Ok _) |- _ => apply ret_ok in H as [? ?]; subst
  | H : throw _ _ = (_, Ok _) |- _ => apply throw_ok in H; contradiction
  | H : set_childNodes _ _ _ = (_, Ok _) |- _ =>
      let E := fresh "E" in let Hh := fresh "Hh" in
      unfold set_childNodes in H; apply modify_ok in H as (? & E & Hh)
  | H : set_firstChild _ _ _ = (_, Ok _) |- _ =>
      let E := fresh "E" in let Hh := fresh "Hh" in
      unfold set_firstChild in H; apply modify_ok in H as (? & E & Hh)
  | H : set_lastChild _ _ _ = (_, Ok _) |- _ =>
      let E := fresh "E" in let Hh := fresh "Hh" in
      unfold set_lastChild in H; apply modify_ok in H as (? & E & Hh)
  | H : set_parentNode _ _ _ = (_, Ok _) |- _ =>
      let E := fresh "E" in let Hh := fresh "Hh" in
      unfold set_parentNode in H; apply set_ro_ok in H as (? & E & Hh)
  | H : set_previousSibling _ _ _ = (_, Ok _) |- _ =>
      let E := fresh "E" in let Hh := fresh "Hh" in
      unfold set_previousSibling in H; apply set_ro_ok in H as (? & E & Hh)
  | H : set_nextSibling _ _ _ = (_, Ok _) |- _ =>
      let E := fresh "E" in let Hh := fresh "Hh" in
      unfold set_nextSibling in H; apply set_ro_ok in H as (? & E & Hh)
  | H : set_ownerDocument _ _ _ = (_, Ok _) |- _ =>
      let E := fresh "E" in let Hh := fresh "Hh" in
      unfold set_ownerDocument in H; apply set_ro_ok in H as (? & E & Hh)
  | H : (if ?b then _ else _) _ = (_, Ok _) |- _ => destruct b eqn:?
  | H : (match ?x with _ => _ end) _ = (_, Ok _) |- _ => destruct x eqn:?
  end.

Ltac unify_lookups :=
  repeat match goal with
  | H1 : ?h !! ?k = Some ?a, H2 : ?h !! ?k = Some ?b |- _ =>
      first [constr_eq a b; clear H2 | rewrite H1 in H2; injection H2 as H2; subst b]
  end.

Ltac field_walk :=
  repeat match goal with
  | E : ?h !! ?r = Some ?n |- context [?g <$> <[?r := ?n']> ?h !! ?x] =>
      rewrite (fmap_insert_same g h r x n n' E) by reflexivity
  | |- context [?g <$> <[?r := ?n']> ?h !! ?r] => rewrite (fmap_insert_here g h r n')
  | Hh : heap ?s2 = _ |- context [heap ?s2] => rewrite Hh
  end.

Lemma filter_ne_notin (x : nat) (l : list nat) :
  x ∉ l -> filter (fun c => c <> x) l = l.
Proof.
  induction l as [|y l IH]; intros Hx; [reflexivity|].
  rewrite filter_cons_True by (intros ->; apply Hx; left).
  f_equal. apply IH. intros H. apply Hx. by right.
Qed.

Lemma splice_delete_filter (x i : nat) (l : list nat) :
  NoDup l -> indexOf x l = Some i ->
  splice_delete i l = filter (fun c => c <> x) l.
Proof.
  revert i. induction l as [|y l IH]; intros i Hnd Hi; [discriminate|].
  apply NoDup_cons in Hnd as [Hy Hnd]. simpl in Hi. unfold splice_delete.
  destruct (decide (y = x)) as [->|Hne].
  - injection Hi as <-. simpl. rewrite filter_cons_False by (intros H; by apply H).
    symmetry. by apply filter_ne_notin.
  - destruct (indexOf x l) as [j|] eqn:Hj; [|discriminate]. injection Hi as <-.
    rewrite filter_cons_True by exact Hne. simpl. f_equal. by apply IH.
Qed.

(** After a successful [removeChild(oldChild)], [oldChild] is gone from the
    caller's child list, the other children keep their order, and
    [oldChild]'s [parentNode], [previousSibling] and [nextSibling] are
    [null]. *)
Theorem removeChild_detaches (this old r : nat) (s s' : St) (t : NodeRec) :
  heap s !! this = Some t -> NoDup (childNodes t) ->
  removeChild this old s = (s', Ok r) ->
  r = old /\
  childNodes <$> heap s' !! this = Some (filter (fun c => c <> old) (childNodes t)) /\
  parentNode <$> heap s' !! old = Some None /\
  previousSibling <$> heap s' !! old = Some None /\
  nextSibling <$> heap s' !! old = Some None.
Proof.
  intros Ht Hnd H. unfold removeChild in H. repeat run_step; unify_lookups;
    (split; [reflexivity|]); repeat split; field_walk; try reflexivity;
    cbn [childNodes with_childNodes]; f_equal; by apply splice_delete_filter.
Qed.

Lemma last_app_single (l : list nat) (c : nat) : last (l ++ [c]) = Some c.
Proof. induction l as [|y [|z l] IH]; [reflexivity|reflexivity|]. exact IH. Qed.

Lemma splice_insert_end (l : list nat) (c : nat) : splice_insert (length l) c l = l ++ [c].
Proof. unfold splice_insert. by rewrite take_ge, drop_ge by lia. Qed.

(** A successful [appendChild(newChild)] of a node that is not a
    [DocumentFragment] and has no parent puts it at the end of the caller's
    child list, makes it the caller's [lastChild], sets its [parentNode] to
    the caller and its [nextSibling] to [null]. *)
Theorem appendChild_appends (fuel this c r : nat) (s s' : St) (t cn : NodeRec) :
  heap s !! this = Some t -> heap s !! c = Some cn ->
  nodeType cn <> DOCUMENT_FRAGMENT_NODE -> parentNode cn = None ->
  appendChild fuel this c s = (s', Ok r) ->
  r = c /\
  childNodes <$> heap s' !! this = Some (childNodes t ++ [c]) /\
  lastChild <$> heap s' !! this = Some (Some c) /\
  parentNode <$> heap s' !! c = Some (Some this) /\
  nextSibling <$> heap s' !! c = Some None.
Proof.
  intros Ht Hc Hty Hp H. unfold appendChild in H. destruct fuel as [|fuel];
    [repeat run_step; discriminate|].
  cbn [insertBefore] in H. repeat run_step; unify_lookups; try congruence.
  all: split; [reflexivity|].
  all: match goal with
       | Hl : heap _ = <[?th := with_lastChild (last (childNodes ?x)) ?x]> (heap ?sp),
         El : heap ?sp !! ?th = Some ?x |- context [childNodes <$> _ !! _ = Some ?L] =>
           assert (Hx : childNodes <$> heap sp !! th = Some L)
             by (field_walk; cbn [childNodes with_childNodes]; by rewrite splice_insert_end);
           rewrite El in Hx; injection Hx as Hx
       end.
  all: repeat split; field_walk; cbn [childNodes with_childNodes lastChild with_lastChild
    parentNode with_parentNode nextSibling with_nextSibling]; try reflexivity.
  all: try rewrite splice_insert_end; try rewrite Hx, last_app_single; reflexivity.
Qed.

Lemma updateAttribute_write_some (e : nat) (name v : string) (tk : option (list string))
    (s s' : St) :
  setAttribute e name v s = (s', Ok tt) ->
  updateAttribute (Some v) (s, mkDOMTokenList e name tk false) =
    ((s', mkDOMTokenList e name tk false), Ok tt).
Proof.
  intros H. unfold updateAttribute. cbv [mbind TM_bind mret TM_ret self set_self lift].
  cbn [updating ownerElement_ attributeName tokens with_updating with_tokens default].
  cbv beta iota zeta. unfold id. rewrite H. reflexivity.
Qed.

Lemma elem_of_insert_inv (l : list string) (i : nat) (x y : string) :
  x ∈ <[i := y]> l -> x = y \/ x ∈ l.
Proof.
  intros Hx. apply list_elem_of_lookup_1 in Hx as [j Hj].
  apply list_lookup_insert_Some in Hj as [(-> & -> & _)|[_ Hj]]; [by left|].
  right. by eapply list_elem_of_lookup_2.
Qed.

(* ------------------------------------------------------------------ *)
(** ** [classList]: add, remove and toggle of one token *)

(** [classList.add(token)] followed by [classList.contains(token)] is [true]
    for a non-empty token without white space. *)
Theorem classList_add_contains (e : nat) (name tok : string) (toks : option (list string))
    (s : St) (en : NodeRec) :
  heap s !! e = Some en -> attrs_present s (attributes en) -> ids_below s ->
  token_ok tok = true ->
  exists st st', dtl_add [tok] (s, mkDOMTokenList e name toks false) = (st, Ok tt) /\
    dtl_contains tok st = (st', Ok true).
Proof. apply add_then_contains. Qed.

(** [classList.remove(token)] followed by [classList.contains(token)] is
    [false], for any token. *)
Theorem classList_remove_not_contains (e : nat) (name tok : string)
    (toks : option (list string)) (s : St) (en : NodeRec) :
  heap s !! e = Some en -> attrs_present s (attributes en) -> ids_below s ->
  exists st st', dtl_remove [tok] (s, mkDOMTokenList e name toks false) = (st, Ok tt) /\
    dtl_contains tok st = (st', Ok false).
Proof. apply remove_then_not_contains. Qed.

(** [classList.toggle(token, force)] returns [!contains], where [contains]
    is whether the token was present before the call, whatever [force] is;
    afterwards the token is present exactly when [force ?? !contains] is
    true.  So [toggle(token, true)] on a present token returns [false]. *)
Theorem classList_toggle (e : nat) (name tok : string) (force : option bool)
    (toks : option (list string)) (s : St) (en : NodeRec) :
  heap s !! e = Some en -> attrs_present s (attributes en) -> ids_below s ->
  token_ok tok = true ->
  exists c st0 st st',
    dtl_contains tok (s, mkDOMTokenList e name toks false) = (st0, Ok c) /\
    dtl_toggle tok force (s, mkDOMTokenList e name toks false) = (st, Ok (negb c)) /\
    dtl_contains tok st = (st', Ok (default (negb c) force)).
Proof.
  intros He Hp Hb Htok.
  pose proof (getAttribute_spec e name s en He Hp) as Hr.
  set (r := option_map _ _) in Hr.
  set (L0 := filter (fun x => bool_decide (x <> "")) (split_ws (trim (default "" r)))).
  assert (Hread : updateTokens None (s, mkDOMTokenList e name toks false) =
                  ((s, mkDOMTokenList e name (Some L0) false), Ok L0))
    by (by apply updateTokens_read).
  exists (bool_decide (tok ∈ L0)), (s, mkDOMTokenList e name (Some L0) false).
  destruct (default (negb (bool_decide (tok ∈ L0))) force) eqn:Hf.
  - destruct (add_then_contains e name tok (Some L0) s en He Hp Hb Htok)
      as (st & st' & H1 & H2).
    exists st, st'. split; [|split].
    + unfold dtl_contains. by rewrite (tbind_step _ _ _ _ L0 Hread).
    + unfold dtl_toggle. rewrite (tbind_step _ _ _ _ L0 Hread). cbv zeta.
      rewrite Hf. by rewrite (tbind_step _ _ _ st tt H1).
    + exact H2.
  - destruct (remove_then_not_contains e name tok (Some L0) s en He Hp Hb)
      as (st & st' & H1 & H2).
    exists st, st'. split; [|split].
    + unfold dtl_contains. by rewrite (tbind_step _ _ _ _ L0 Hread).
    + unfold dtl_toggle. rewrite (tbind_step _ _ _ _ L0 Hread). cbv zeta.
      rewrite Hf. by rewrite (tbind_step _ _ _ st tt H1).
    + exact H2.
Qed.

(** [classList.replace(oldToken, newToken)] returns whether [oldToken] was
    present.  When it was not, the document is left as it was; when it was,
    [newToken] (non-empty, without white space) is present afterwards. *)
Theorem classList_replace (e : nat) (name old new : string)
    (toks : option (list string)) (s : St) (en : NodeRec) :
  heap s !! e = Some en -> attrs_present s (attributes en) -> ids_below s ->
  token_ok new = true ->
  exists c st0 st,
    dtl_contains old (s, mkDOMTokenList e name toks false) = (st0, Ok c) /\
    dtl_replace old new (s, mkDOMTokenList e name toks false) = (st, Ok c) /\
    (if c then exists st', dtl_contains new st = (st', Ok true) else fst st = s).
Proof.
  intros He Hp Hb Hnew.
  pose proof (getAttribute_spec e name s en He Hp) as Hr.
  set (r := option_map _ _) in Hr.
  set (L0 := filter (fun x => bool_decide (x <> "")) (split_ws (trim (default "" r)))).
  assert (Hread : updateTokens None (s, mkDOMTokenList e name toks false) =
                  ((s, mkDOMTokenList e name (Some L0) false), Ok L0))
    by (by apply updateTokens_read).
  assert (HL0 : Forall (fun x => token_ok x = true) L0) by apply split_tokens_ok.
  exists (bool_decide (old ∈ L0)), (s, mkDOMTokenList e name (Some L0) false).
  destruct (str_indexOf old L0) as [i|] eqn:Hi.
  - assert (Hin : old ∈ L0)
      by (eapply list_elem_of_lookup_2, str_indexOf_lookup; exact Hi).
    set (D := dedupe (<[i := new]> L0)).
    set (s' := set_attr_state e name (join_space D) s en).
    assert (Hset : setAttribute e name (join_space D) s = (s', Ok tt))
      by (by apply setAttribute_spec).
    assert (HD : Forall (fun x => token_ok x = true) D).
    { apply Forall_forall. intros x Hx.
      apply dedupe_subset, elem_of_insert_inv in Hx as [->|Hx]; [exact Hnew|].
      rewrite Forall_forall in HL0. by apply HL0. }
    exists (s', mkDOMTokenList e name (Some D) false). split; [|split].
    + unfold dtl_contains. by rewrite (tbind_step _ _ _ _ L0 Hread).
    + unfold dtl_replace. rewrite (tbind_step _ _ _ _ L0 Hread). rewrite Hi.
      cbv [mbind TM_bind mret TM_ret self set_self]. unfold with_tokens.
      cbn [ownerElement_ attributeName updating]. fold D.
      rewrite (updateAttribute_write_some e name (join_space D) (Some D) s s' Hset).
      by rewrite (bool_decide_eq_true_2 _ Hin).
    + rewrite (bool_decide_eq_true_2 _ Hin). eexists. unfold dtl_contains.
      rewrite (tbind_step _ _ _ (s', mkDOMTokenList e name (Some D) false) D).
      * cbv [mret TM_ret]. rewrite bool_decide_eq_true_2; [reflexivity|].
        apply dedupe_elem, list_elem_of_insert. apply lookup_lt_Some with old.
        by apply str_indexOf_lookup.
      * rewrite updateTokens_read with (r := Some (join_space D))
          by (by eapply getAttribute_after_set).
        cbn [default]. unfold id. by rewrite join_space_split.
  - assert (Hnin : old ∉ L0).
    { intros Hin. destruct (str_indexOf_elem old L0 Hin) as [j Hj]. congruence. }
    exists (s, mkDOMTokenList e name (Some L0) false). split; [|split].
    + unfold dtl_contains. by rewrite (tbind_step _ _ _ _ L0 Hread).
    + unfold dtl_replace. rewrite (tbind_step _ _ _ _ L0 Hread), Hi.
      by rewrite (bool_decide_eq_false_2 _ Hnin).
    + by rewrite (bool_decide_eq_false_2 _ Hnin).
Qed.

(* ------------------------------------------------------------------ *)
(** ** Round trips *)

(** What [#updateAttribute] writes ([tokens.join(" ")]) is read back by
    [#updateTokens] ([trim], [split(/\s+/)], dropping empty pieces) as the
    same list, for tokens that are non-empty and free of white space. *)
Theorem token_list_round_trip (l : list string) :
  Forall (fun x => token_ok x = true) l ->
  filter (fun x => bool_decide (x <> "")) (split_ws (trim (join_space l))) = l.
Proof. apply join_space_split. Qed.

(** [setAttribute(name, value)] on an element followed by
    [getAttribute(name)] returns [value]. *)
Theorem setAttribute_getAttribute (e : nat) (name v : string) (s : St) (en : NodeRec) :
  heap s !! e = Some en -> attrs_present s (attributes en) -> ids_below s ->
  exists s', setAttribute e name v s = (s', Ok tt) /\
    getAttribute e name s' = (s', Ok (Some v)).
Proof. apply set_get_attribute. Qed.

(* ------------------------------------------------------------------ *)
(** ** Witnesses *)

Lemma token_list_round_trip_witness :
  filter (fun x => bool_decide (x <> "")) (split_ws (trim (join_space ["a"; "bc"])))
    = ["a"; "bc"].
Proof. apply token_list_round_trip. repeat constructor. Defined.

Lemma setAttribute_getAttribute_witness :
  exists s', setAttribute 2 "lang" "fr" lang_state = (s', Ok tt) /\
    getAttribute 2 "lang" s' = (s', Ok (Some "fr")).
Proof.
  apply (setAttribute_getAttribute 2 "lang" "fr" lang_state (node_or_blank lang_state 2)).
  - vm_compute. reflexivity.
  - unfold attrs_present. apply (bool_decide_unpack _). vm_compute. reflexivity.
  - apply ids_below_keys. apply (bool_decide_unpack _). vm_compute. reflexivity.
Defined.

(** The hypotheses on a concrete state, decided by evaluation. *)
Ltac decide_concrete :=
  first [ vm_compute; reflexivity
        | unfold attrs_present, ci_distinct; apply (bool_decide_unpack _); vm_compute; reflexivity
        | apply ids_below_keys; apply (bool_decide_unpack _); vm_compute; reflexivity
        | apply (bool_decide_unpack _); vm_compute; reflexivity ].

Lemma setAttribute_keeps_ci_distinct_witness :
  exists s' en', setAttribute 2 "LANG" "fr" lang_state = (s', Ok tt) /\
    heap s' !! 2 = Some en' /\ ci_distinct s' (attributes en').
Proof.
  apply (setAttribute_keeps_ci_distinct 2 "LANG" "fr" lang_state (node_or_blank lang_state 2));
    decide_concrete.
Defined.

Lemma setAttribute_other_names_witness :
  exists s' r, setAttribute 2 "id" "x" lang_state = (s', Ok tt) /\
    getAttribute 2 "lang" lang_state = (lang_state, Ok r) /\ getAttribute 2 "lang" s' = (s', Ok r).
Proof.
  apply (setAttribute_other_names 2 "id" "x" "lang" lang_state (node_or_blank lang_state 2));
    decide_concrete.
Defined.

Lemma setAttribute_drops_case_variants_witness :
  exists s', setAttribute 2 "LANG" "fr" lang_state = (s', Ok tt) /\
    getAttribute 2 "lang" s' = (s', Ok None).
Proof.
  apply (setAttribute_drops_case_variants 2 "LANG" "fr" "lang" lang_state
           (node_or_blank lang_state 2)); decide_concrete.
Defined.

Lemma classList_add_contains_witness :
  exists st st', dtl_add ["big"] (lang_state, mkDOMTokenList 2 "class" None false) = (st, Ok tt) /\
    dtl_contains "big" st = (st', Ok true).
Proof.
  apply (classList_add_contains 2 "class" "big" None lang_state (node_or_blank lang_state 2));
    decide_concrete.
Defined.

Lemma classList_remove_not_contains_witness :
  exists st st', dtl_remove ["en"] (lang_state, mkDOMTokenList 2 "lang" None false) = (st, Ok tt) /\
    dtl_contains "en" st = (st', Ok false).
Proof.
  apply (classList_remove_not_contains 2 "lang" "en" None lang_state (node_or_blank lang_state 2));
    decide_concrete.
Defined.

Lemma classList_toggle_witness :
  exists c st0 st st',
    dtl_contains "en" (lang_state, mkDOMTokenList 2 "lang" None false) = (st0, Ok c) /\
    dtl_toggle "en" (Some true) (lang_state, mkDOMTokenList 2 "lang" None false) = (st, Ok (negb c)) /\
    dtl_contains "en" st = (st', Ok (default (negb c) (Some true))).
Proof.
  apply (classList_toggle 2 "lang" "en" (Some true) None lang_state (node_or_blank lang_state 2));
    decide_concrete.
Defined.

Lemma classList_replace_witness :
  exists c st0 st,
    dtl_contains "en" (lang_state, mkDOMTokenList 2 "lang" None false) = (st0, Ok c) /\
    dtl_replace "en" "fr" (lang_state, mkDOMTokenList 2 "lang" None false) = (st, Ok c) /\
    (if c then exists st', dtl_contains "fr" st = (st', Ok true) else fst st = lang_state).
Proof.
  apply (classList_replace 2 "lang" "en" "fr" None lang_state (node_or_blank lang_state 2));
    decide_concrete.
Defined.

Lemma removeChild_detaches_witness :
  2 = 2 /\
  childNodes <$> heap (exec (removeChild 1 2) lang_state) !! 1 =
    Some (filter (fun c => c <> 2) (childNodes (node_or_blank lang_state 1))) /\
  parentNode <$> heap (exec (removeChild 1 2) lang_state) !! 2 = Some None /\
  previousSibling <$> heap (exec (removeChild 1 2) lang_state) !! 2 = Some None /\
  nextSibling <$> heap (exec (removeChild 1 2) lang_state) !! 2 = Some None.
Proof.
  apply (removeChild_detaches 1 2 2 lang_state (exec (removeChild 1 2) lang_state)
           (node_or_blank lang_state 1)); decide_concrete.
Defined.

Lemma appendChild_appends_witness :
  2 = 2 /\
  childNodes <$> heap (exec (appendChild build_fuel 1 2) two_parents_state) !! 1 =
    Some (childNodes (node_or_blank two_parents_state 1) ++ [2]) /\
  lastChild <$> heap (exec (appendChild build_fuel 1 2) two_parents_state) !! 1 = Some (Some 2) /\
  parentNode <$> heap (exec (appendChild build_fuel 1 2) two_parents_state) !! 2 = Some (Some 1) /\
  nextSibling <$> heap (exec (appendChild build_fuel 1 2) two_parents_state) !! 2 = Some None.
Proof.
  apply (appendChild_appends build_fuel 1 2 2 two_parents_state
           (exec (appendChild build_fuel 1 2) two_parents_state)
           (node_or_blank two_parents_state 1) (node_or_blank two_parents_state 2));
    first [decide_concrete | vm_compute; discriminate].
Defined.

(* ------------------------------------------------------------------ *)
(** ** CharacterData and Text *)

Lemma str_length_app (a b : string) : String.length (a +:+ b) = String.length a + String.length b.
Proof. induction a as [|c a IH]; [reflexivity|]. rewrite str_app_cons. simpl. by rewrite IH. Qed.

Lemma substring_app_l (a b : string) : String.substring 0 (String.length a) (a +:+ b) = a.
Proof. induction a as [|c a IH]; [by destruct b|]. rewrite str_app_cons. simpl. by rewrite IH. Qed.

Lemma substring_app_r (a b : string) (n : nat) :
  String.substring (String.length a) n (a +:+ b) = String.substring 0 n b.
Proof. induction a as [|c a IH]; [reflexivity|]. rewrite str_app_cons. simpl. exact IH. Qed.

Lemma substring_full (b : string) (n : nat) : String.length b <= n -> String.substring 0 n b = b.
Proof.
  revert n. induction b as [|c b IH]; intros n Hn; [by destruct n|].
  destruct n as [|n]; simpl in Hn; [lia|]. simpl. f_equal. apply IH. lia.
Qed.

Lemma substring_split (s : string) (o : nat) :
  o <= String.length s ->
  String.substring 0 o s +:+ String.substring o (String.length s - o) s = s.
Proof.
  revert o. induction s as [|c s IH]; intros o Ho.
  - destruct o; reflexivity.
  - destruct o as [|o]; simpl.
    + rewrite str_app_empty. f_equal. apply substring_full. lia.
    + rewrite str_app_cons. f_equal. apply IH. simpl in Ho. lia.
Qed.

Lemma substring_length (s : string) (o k : nat) :
  o + k <= String.length s -> String.length (String.substring o k s) = k.
Proof.
  revert o k. induction s as [|c s IH]; intros o k H.
  - simpl in H. assert (o = 0) as -> by lia. assert (k = 0) as -> by lia. reflexivity.
  - destruct o as [|o]; destruct k as [|k]; simpl in *; try reflexivity.
    + f_equal. apply IH. lia.
    + apply IH. lia.
    + apply IH. lia.
Qed.

(** Slicing at the boundary between two strings. *)
Lemma js_slice_app_l (a b : string) :
  js_slice (a +:+ b) 0 (Some (Z.of_nat (String.length a))) = a.
Proof.
  unfold js_slice. rewrite str_length_app. cbv zeta.
  replace (0 <? 0)%Z with false by reflexivity.
  destruct (Z.of_nat (String.length a) <? 0)%Z eqn:E; [apply Z.ltb_lt in E; lia|].
  rewrite !Z.min_l by lia. rewrite Z.sub_0_r, Nat2Z.id. simpl Z.to_nat.
  apply substring_app_l.
Qed.

Lemma js_slice_app_r (a b : string) :
  js_slice (a +:+ b) (Z.of_nat (String.length a)) None = b.
Proof.
  unfold js_slice. rewrite str_length_app. cbv zeta.
  destruct (Z.of_nat (String.length a) <? 0)%Z eqn:E; [apply Z.ltb_lt in E; lia|].
  rewrite Z.min_l by lia. rewrite Nat2Z.id.
  replace (Z.to_nat (Z.of_nat (String.length a + String.length b) - Z.of_nat (String.length a)))
    with (String.length b) by lia.
  rewrite substring_app_r. apply substring_full. lia.
Qed.

Lemma js_substring_mid (a d b : string) :
  js_substring (a +:+ d +:+ b) (Z.of_nat (String.length a))
    (Z.of_nat (String.length a) + Z.of_nat (String.length d)) = d.
Proof.
  unfold js_substring. rewrite !str_length_app. cbv zeta.
  rewrite (Z.max_l (Z.of_nat (String.length a))) by lia.
  rewrite (Z.max_l (Z.of_nat (String.length a) + _)) by lia.
  rewrite !Z.min_l by lia. rewrite Z.max_r by lia.
  replace (Z.to_nat (Z.of_nat (String.length a) + Z.of_nat (String.length d) - Z.of_nat (String.length a)))
    with (String.length d) by lia.
  rewrite Nat2Z.id, substring_app_r.
  replace (String.length d) with (String.length d) by reflexivity.
  apply substring_app_l.
Qed.

Lemma keeps_ret {A B} (g : NodeRec -> A) (x : B) : keeps_field g (mret x).
Proof. intros s s' y H. by inversion H. Qed.

Lemma keeps_throw {A B} (g : NodeRec -> A) (e : exn) : keeps_field g (throw (A := B) e).
Proof. intros s s' y H. discriminate. Qed.

Lemma keeps_get {A} (g : NodeRec -> A) (r : nat) : keeps_field g (get r).
Proof. intros s s' y H. unfold get in H. destruct (heap s !! r); by inversion H. Qed.

Lemma keeps_bind {A B C} (g : NodeRec -> A) (m : M B) (f : B -> M C) :
  keeps_field g m -> (forall b, keeps_field g (f b)) -> keeps_field g (mbind f m).
Proof.
  intros Hm Hf s s' y H k. unfold mbind, M_bind in H.
  destruct (m s) as [s1 [b|e]] eqn:E; [|discriminate].
  rewrite (Hf b s1 s' y H k). exact (Hm s s1 b E k).
Qed.

Lemma keeps_modify {A} (g : NodeRec -> A) (r : nat) (f : NodeRec -> NodeRec) :
  (forall n, g (f n) = g n) -> keeps_field g (modify r f).
Proof.
  intros Hf s s' y H k. unfold modify, mbind, M_bind, get, put in H.
  destruct (heap s !! r) as [n|] eqn:E; inversion H; subst. simpl.
  apply fmap_insert_same with n; [exact E | apply Hf].
Qed.

Lemma keeps_set_readonly_checked {A} (g : NodeRec -> A) (prop : string) (f : NodeRec -> NodeRec) (r : nat) :
  (forall n, g (f n) = g n) -> keeps_field g (set_readonly_checked prop f r).
Proof.
  intros Hf s s' y H k. unfold set_readonly_checked, mbind, M_bind, get, put, throw in H.
  destruct (heap s !! r) as [n|] eqn:E; [|discriminate].
  destruct (decide _); [discriminate|]. inversion H; subst. simpl.
  apply fmap_insert_same with n; [exact E | apply Hf].
Qed.

Ltac keeps :=
  repeat match goal with
  | |- keeps_field _ (mbind _ _) => apply keeps_bind; [|intros ?]
  | |- keeps_field _ (if ?b then _ else _) => destruct b
  | |- keeps_field _ (match ?x with _ => _ end) => destruct x
  | |- keeps_field _ (mret _) => apply keeps_ret
  | |- keeps_field _ (throw _) => apply keeps_throw
  | |- keeps_field _ (get _) => apply keeps_get
  | |- keeps_field _ (set_parentNode _ _) => apply keeps_set_readonly_checked; reflexivity
  | |- keeps_field _ (set_previousSibling _ _) => apply keeps_set_readonly_checked; reflexivity
  | |- keeps_field _ (set_nextSibling _ _) => apply keeps_set_readonly_checked; reflexivity
  | |- keeps_field _ (set_ownerDocument _ _) => apply keeps_set_readonly_checked; reflexivity
  | |- keeps_field _ (set_firstChild _ _) => apply keeps_modify; reflexivity
  | |- keeps_field _ (set_lastChild _ _) => apply keeps_modify; reflexivity
  | |- keeps_field _ (set_childNodes _ _) => apply keeps_modify; reflexivity
  | |- keeps_field _ _ => progress cbv beta zeta
  end.

Lemma keeps_nodeValue_removeChild (this oldChild : nat) :
  keeps_field nodeValue (removeChild this oldChild).
Proof. unfold removeChild. keeps. Qed.

Lemma keeps_nodeValue_insertBefore (fuel this newChild : nat) (refChild : option nat) :
  keeps_field nodeValue (insertBefore fuel this newChild refChild).
Proof.
  revert this newChild refChild.
  induction fuel as [|fuel IH]; intros this newChild refChild; cbn [insertBefore].
  - apply keeps_throw.
  - keeps; try apply keeps_nodeValue_removeChild; try apply IH.
    match goal with
    | |- keeps_field _ (?L fuel 0) =>
        assert (HL : forall k i, keeps_field nodeValue (L k i)); [|apply HL]
    end.
    induction k as [|k IHk]; intros i; simpl; keeps; try apply IH; try apply IHk.
Qed.

Lemma js_slice_split (s : string) (o : Z) :
  (0 <= o <= Z.of_nat (String.length s))%Z ->
  js_slice s 0 (Some o) +:+ js_slice s o None = s /\
  String.length (js_slice s 0 (Some o)) = Z.to_nat o.
Proof.
  intros Ho. unfold js_slice. cbv zeta.
  replace (0 <? 0)%Z with false by reflexivity.
  destruct (o <? 0)%Z eqn:E; [apply Z.ltb_lt in E; lia|].
  rewrite !Z.min_l by lia. rewrite Z.sub_0_r. simpl Z.to_nat.
  replace (Z.to_nat (Z.of_nat (String.length s) - o)) with (String.length s - Z.to_nat o) by lia.
  split; [apply substring_split; lia|]. apply substring_length. lia.
Qed.

Lemma characterData_data_spec (r : nat) (s : St) (n : NodeRec) :
  heap s !! r = Some n -> characterData_data r s = (s, Ok (default "" (nodeValue n))).
Proof. intros E. unfold characterData_data, mbind, M_bind, get. by rewrite E. Qed.

Lemma set_data_spec (r : nat) (v : string) (s : St) (n : NodeRec) :
  heap s !! r = Some n ->
  set_data r v s = (mkSt (<[r := with_nodeValue (Some v) n]> (heap s)) (next_id s) (wsets s) (next_ws s), Ok tt).
Proof. intros E. unfold set_data, modify, mbind, M_bind, get, put. by rewrite E. Qed.

Lemma data_after_set (r : nat) (v : string) (s : St) (n : NodeRec) :
  let s' := mkSt (<[r := with_nodeValue (Some v) n]> (heap s)) (next_id s) (wsets s) (next_ws s) in
  characterData_data r s' = (s', Ok v).
Proof.
  intros s'.
  rewrite (characterData_data_spec r _ (with_nodeValue (Some v) n)); [reflexivity|].
  simpl. by rewrite lookup_insert_eq.
Qed.

(** [insertData(offset, data)] followed by
    [substringData(offset, data.length)] returns [data], for
    [0 <= offset <= length]. *)
Theorem insertData_substringData (r : nat) (offset : Z) (data : string) (s : St) (n : NodeRec) :
  heap s !! r = Some n ->
  (0 <= offset <= Z.of_nat (String.length (default "" (nodeValue n))))%Z ->
  exists s', insertData r offset data s = (s', Ok tt) /\
    substringData r offset (Z.of_nat (String.length data)) s' = (s', Ok data).
Proof.
  intros E Ho. set (cur := default "" (nodeValue n)) in *.
  destruct (js_slice_split cur offset Ho) as [_ Hlen].
  unfold insertData. rewrite (bind_step _ _ _ _ _ (characterData_data_spec r s n E)).
  rewrite (set_data_spec r _ s n E).
  eexists. split; [reflexivity|].
  unfold substringData. rewrite (bind_step _ _ _ _ _ (data_after_set r _ s n)).
  cbv [mret M_ret]. do 2 f_equal. fold cur.
  set (a := js_slice cur 0 (Some offset)) in *. set (b := js_slice cur offset None).
  assert (Hoff : offset = Z.of_nat (String.length a)) by lia.
  rewrite Hoff. apply js_substring_mid.
Qed.

(** [insertData(offset, data)] followed by [deleteData(offset, data.length)]
    gives back the original [data], for [0 <= offset <= length]. *)
Theorem insertData_deleteData (r : nat) (offset : Z) (data : string) (s : St) (n : NodeRec) :
  heap s !! r = Some n ->
  (0 <= offset <= Z.of_nat (String.length (default "" (nodeValue n))))%Z ->
  exists s1 s2, insertData r offset data s = (s1, Ok tt) /\
    deleteData r offset (Z.of_nat (String.length data)) s1 = (s2, Ok tt) /\
    characterData_data r s2 = (s2, Ok (default "" (nodeValue n))).
Proof.
  intros E Ho. set (cur := default "" (nodeValue n)) in *.
  destruct (js_slice_split cur offset Ho) as [Hsplit Hlen].
  set (a := js_slice cur 0 (Some offset)) in *. set (b := js_slice cur offset None) in *.
  unfold insertData. rewrite (bind_step _ _ _ _ _ (characterData_data_spec r s n E)).
  rewrite (set_data_spec r _ s n E).
  set (s1 := mkSt _ _ _ _).
  assert (E1 : heap s1 !! r = Some (with_nodeValue (Some (a +:+ data +:+ b)) n))
    by (simpl; by rewrite lookup_insert_eq).
  exists s1. eexists. split; [reflexivity|]. split.
  - unfold deleteData. rewrite (bind_step _ _ _ _ _ (characterData_data_spec r s1 _ E1)).
    rewrite (set_data_spec r _ s1 _ E1). reflexivity.
  - cbn [nodeValue with_nodeValue default]. unfold id.
    replace (js_slice (a +:+ data +:+ b) 0 (Some offset)) with a.
    2:{ replace offset with (Z.of_nat (String.length a)) by lia. by rewrite js_slice_app_l. }
    replace (js_slice (a +:+ data +:+ b) (offset + Z.of_nat (String.length data)) None) with b.
    2:{ rewrite <- str_app_assoc.
        replace (offset + Z.of_nat (String.length data))%Z
          with (Z.of_nat (String.length (a +:+ data))) by (rewrite str_length_app; lia).
        by rewrite js_slice_app_r. }
    rewrite Hsplit. apply data_after_set.
Qed.


Lemma with_nodeValue_twice (v w : option string) (n : NodeRec) :
  with_nodeValue v (with_nodeValue w n) = with_nodeValue v n.
Proof. reflexivity. Qed.

(** [replaceData(offset, count, data)] has exactly the effect of
    [deleteData(offset, count)] followed by [insertData(offset, data)], for
    [0 <= offset <= length] and every [count]. *)
Theorem replaceData_delete_insert (r : nat) (offset count : Z) (data : string) (s : St) (n : NodeRec) :
  heap s !! r = Some n ->
  (0 <= offset <= Z.of_nat (String.length (default "" (nodeValue n))))%Z ->
  replaceData r offset count data s = (deleteData r offset count;; insertData r offset data) s.
Proof.
  intros E Ho. set (cur := default "" (nodeValue n)) in *.
  destruct (js_slice_split cur offset Ho) as [_ Hlen].
  set (a := js_slice cur 0 (Some offset)) in *.
  set (c := js_slice cur (offset + count) None).
  assert (Hoff : offset = Z.of_nat (String.length a)) by lia.
  unfold replaceData. rewrite (bind_step _ _ _ _ _ (characterData_data_spec r s n E)).
  rewrite (set_data_spec r _ s n E).
  assert (Hd : deleteData r offset count s =
    (mkSt (<[r := with_nodeValue (Some (a +:+ c)) n]> (heap s)) (next_id s) (wsets s) (next_ws s), Ok tt)).
  { unfold deleteData. rewrite (bind_step _ _ _ _ _ (characterData_data_spec r s n E)).
    by rewrite (set_data_spec r _ s n E). }
  rewrite (bind_step _ _ _ _ _ Hd).
  set (s1 := mkSt (<[r := with_nodeValue (Some (a +:+ c)) n]> (heap s)) (next_id s) (wsets s) (next_ws s)).
  assert (E1 : heap s1 !! r = Some (with_nodeValue (Some (a +:+ c)) n))
    by (simpl; by rewrite lookup_insert_eq).
  unfold insertData.
  rewrite (bind_step _ _ _ _ _ (characterData_data_spec r s1 _ E1)).
  rewrite (set_data_spec r _ s1 _ E1). unfold s1.
  cbn [heap next_id wsets next_ws]. rewrite insert_insert_eq.
  replace (default "" (nodeValue (with_nodeValue (Some (a +:+ c)) n))) with (a +:+ c) by reflexivity.
  rewrite with_nodeValue_twice. fold cur a c.
  replace (js_slice (a +:+ c) 0 (Some offset)) with a by (rewrite Hoff; by rewrite js_slice_app_l).
  replace (js_slice (a +:+ c) offset None) with c by (rewrite Hoff; by rewrite js_slice_app_r).
  reflexivity.
Qed.



(** [splitText(offset)], for [0 <= offset <= length], returns a fresh node:
    the node keeps the first [offset] characters of its data and the new
    node holds the rest, whether or not the node has a parent. *)
Theorem splitText_splits (fuel r : nat) (offset : Z) (s s' : St) (n : NodeRec) (t : nat) :
  ids_below s -> heap s !! r = Some n ->
  (0 <= offset <= Z.of_nat (String.length (default "" (nodeValue n))))%Z ->
  splitText fuel r offset s = (s', Ok t) ->
  heap s !! t = None /\
  exists head tail, nodeValue <$> heap s' !! r = Some (Some head) /\
    nodeValue <$> heap s' !! t = Some (Some tail) /\
    head +:+ tail = default "" (nodeValue n) /\ String.length head = Z.to_nat offset.
Proof.
  intros Hb E Ho H. set (cur := default "" (nodeValue n)) in *.
  destruct (js_slice_split cur offset Ho) as [Hsplit Hlen].
  assert (Hr : r <= next_id s) by (apply Hb; rewrite E; eauto).
  unfold splitText in H. rewrite (bind_step _ _ _ _ _ (characterData_data_spec r s n E)) in H.
  fold cur in H. cbv zeta in H.
  set (head := js_slice cur 0 (Some offset)) in *. set (tail := js_slice cur offset None) in *.
  rewrite (bind_step _ _ _ _ _ (set_data_spec r head s n E)) in H.
  set (s1 := mkSt (<[r := with_nodeValue (Some head) n]> (heap s)) (next_id s) (wsets s) (next_ws s)) in H.
  set (i := S (next_id s)).
  set (s2 := mkSt (<[i := blank_node TEXT_NODE "#text" (Some tail)]> (heap s1)) i (wsets s1) (next_ws s1)).
  assert (Ha : new_Text tail s1 = (s2, Ok i)) by reflexivity.
  rewrite (bind_step _ _ _ _ _ Ha) in H.
  assert (Hg : get r s2 = (s2, Ok (with_nodeValue (Some head) n))).
  { unfold get. simpl. rewrite lookup_insert_ne by lia. by rewrite lookup_insert_eq. }
  rewrite (bind_step _ _ _ _ _ Hg) in H.
  assert (Hi : heap s !! i = None).
  { destruct (heap s !! i) eqn:Ei; [|reflexivity].
    assert (i <= next_id s) by (apply Hb; rewrite Ei; eauto). lia. }
  assert (Hkeep : nodeValue <$> heap s' !! r = nodeValue <$> heap s2 !! r /\
                  nodeValue <$> heap s' !! i = nodeValue <$> heap s2 !! i /\ t = i).
  { cbn [parentNode with_nodeValue] in H. destruct (parentNode n) as [p|].
    - apply bind_ok_inv in H as (s3 & x & Hm & H). apply ret_ok in H as [-> ->].
      pose proof (keeps_nodeValue_insertBefore fuel p i (nextSibling n) _ _ _ Hm) as K.
      split; [apply K|]. split; [apply K|reflexivity].
    - apply ret_ok in H as [-> ->]. auto. }
  destruct Hkeep as (K1 & K2 & ->). split; [exact Hi|].
  exists head, tail. rewrite K1, K2. simpl.
  rewrite lookup_insert_ne by lia. rewrite !lookup_insert_eq. auto.
Qed.

Lemma insertData_substringData_witness :
  (0 <= 5 <= Z.of_nat (String.length (default "" (nodeValue (node_or_blank text_state 2)))))%Z /\
  exists s', insertData 2 5 "," text_state = (s', Ok tt) /\
    substringData 2 5 (Z.of_nat (String.length ",")) s' = (s', Ok ",").
Proof.
  split; [vm_compute; split; discriminate|].
  apply (insertData_substringData 2 5 "," text_state (node_or_blank text_state 2));
    [vm_compute; reflexivity | vm_compute; split; discriminate].
Defined.

Lemma insertData_deleteData_witness :
  (0 <= 5 <= Z.of_nat (String.length (default "" (nodeValue (node_or_blank text_state 2)))))%Z /\
  exists s1 s2, insertData 2 5 "," text_state = (s1, Ok tt) /\
    deleteData 2 5 (Z.of_nat (String.length ",")) s1 = (s2, Ok tt) /\
    characterData_data 2 s2 = (s2, Ok (default "" (nodeValue (node_or_blank text_state 2)))).
Proof.
  split; [vm_compute; split; discriminate|].
  apply (insertData_deleteData 2 5 "," text_state (node_or_blank text_state 2));
    [vm_compute; reflexivity | vm_compute; split; discriminate].
Defined.

Lemma replaceData_delete_insert_witness :
  (0 <= 6 <= Z.of_nat (String.length (default "" (nodeValue (node_or_blank text_state 2)))))%Z /\
  replaceData 2 6 5 "there" text_state = (deleteData 2 6 5;; insertData 2 6 "there") text_state.
Proof.
  split; [vm_compute; split; discriminate|].
  apply (replaceData_delete_insert 2 6 5 "there" text_state (node_or_blank text_state 2));
    [vm_compute; reflexivity | vm_compute; split; discriminate].
Defined.


Lemma splitText_splits_witness :
  heap text_state !! 3 = None /\
  exists head tail,
    nodeValue <$> heap (exec (splitText build_fuel 2 5) text_state) !! 2 = Some (Some head) /\
    nodeValue <$> heap (exec (splitText build_fuel 2 5) text_state) !! 3 = Some (Some tail) /\
    head +:+ tail = default "" (nodeValue (node_or_blank text_state 2)) /\
    String.length head = Z.to_nat 5.
Proof.
  apply (splitText_splits build_fuel 2 5 text_state (exec (splitText build_fuel 2 5) text_state)
           (node_or_blank text_state 2) 3);
    first [decide_concrete | vm_compute; split; discriminate].
Defined.

(* ------------------------------------------------------------------ *)
(** ** [replaceChild] *)









